(** * soad: reconciliation, balance derivation and profit/loss

    A shallow embedding of [data/sync_worker.py] and of the profit/loss
    calculator of [database/db_manager.py].

    Python numbers (prices, quantities, balances) are modelled as exact
    rationals [Q], so that an equation [==] between computed values holds
    up to the rounding of the code's floats; a value that may be [None] is
    an [option]; an exception is an explicit [Raise].  The ledger is a pair
    of tables (lists of rows); ORM objects are referred to by their primary
    key, so that two references to one row alias. *)

From Stdlib Require Import QArith Qabs Qminmax Lqa Ascii.
From stdpp Require Import base option list strings gmap.

Local Open Scope Z_scope.

(** ** Python values and exceptions *)

Inductive exn : Type :=
  | TypeError
  | ZeroDivisionError
  | AttributeError
  | KeyError
  | ObjectDeletedError
  | TimeoutError
  | PendingRollbackError
  | BrokerError (msg : string)
  | DatabaseError (msg : string).

Global Instance exn_eq_dec : EqDecision exn.
Proof. solve_decision. Defined.

Inductive result (A : Type) : Type :=
  | Ok (a : A)
  | Raise (e : exn).
Arguments Ok {A} a.
Arguments Raise {A} e.

Global Instance result_ret : MRet result := λ A a, Ok a.
Global Instance result_bind : MBind result := λ A B k m,
  match m with
  | Ok a => k a
  | Raise e => Raise e
  end.

(** [float(v)]: [None] is a [TypeError]. *)
Definition py_float (v : option Q) : result Q :=
  match v with
  | Some q => Ok q
  | None => Raise TypeError
  end.

(** [a / b] on floats. *)
Definition py_truediv (a b : Q) : result Q :=
  if Qeq_bool b 0 then Raise ZeroDivisionError else Ok (a / b)%Q.

(** [max(a, b)] returns [a] unless [b] is strictly greater. *)
Definition py_max (a b : Q) : Q :=
  if Qlt_le_dec a b then b else a.

(** [x * y] where [x] may be [None]. *)
Definition py_mul (x : option Q) (y : Q) : result Q :=
  match x with
  | Some q => Ok (q * y)%Q
  | None => Raise TypeError
  end.

(** [str.lower()], on ASCII. *)
Definition ascii_lower (c : ascii) : ascii :=
  let n := nat_of_ascii c in
  if (65 <=? n)%nat && (n <=? 90)%nat then ascii_of_nat (n + 32) else c.

Fixpoint lower (s : string) : string :=
  match s with
  | EmptyString => EmptyString
  | String c s' => String (ascii_lower c) (lower s')
  end.

(** ** Symbol classification ([soad.utils.utils], not part of the sources)

    The functions are taken as an interface. *)

Class SymbolUtils : Type := {
  is_option : string → bool;
  is_futures_symbol : string → bool;
  futures_contract_size : string → Z;
  (** [extract_option_details(symbol)[0]], the underlying *)
  extract_option_details : string → string;
}.

(** Modelled from the spec: the constant [OPTION_MULTIPLIER] of
    [soad.utils.utils], "a fixed option multiplier constant (100)". *)
Definition OPTION_MULTIPLIER : Z := 100.

(** ** Rows of the ledger *)

Record Position : Type := mkPosition {
  pos_id : nat;
  pos_broker : string;
  pos_strategy : string;
  pos_symbol : string;
  pos_quantity : Q;
  pos_latest_price : option Q;
  pos_cost_basis : option Q;
  pos_last_updated : Z;
  pos_underlying_volatility : option Q;
  pos_underlying_latest_price : option Q;
}.

Record Balance : Type := mkBalance {
  bal_broker : string;
  bal_strategy : string;
  bal_type : string;
  bal_balance : Q;
  bal_timestamp : Z;
}.

Record Trade : Type := mkTrade {
  trade_broker : string;
  trade_symbol : string;
  trade_strategy : string;
  trade_side : string;
  trade_quantity : Q;
  trade_executed_price : option Q;
}.

(** ** [database/db_manager.py]: the profit/loss calculator *)

Module DBManager.
Section DBManager.
Context `{SymbolUtils}.

(** The table [Position], read only here. *)
Variable positions : list Position.

(** [get_position]: the first row matching broker, symbol and strategy. *)
Definition get_position (broker symbol strategy : string) : option Position :=
  head (filter (λ p, pos_broker p = broker ∧ pos_symbol p = symbol
                     ∧ pos_strategy p = strategy) positions).

(** An attribute of [position], which may be [None]. *)
Definition attr {A} (position : option Position) (f : Position → A) : result A :=
  match position with
  | Some p => Ok (f p)
  | None => Raise AttributeError
  end.

(** A [try: ... except Exception: return None] around a body that returns
    a float or [None]. *)
Definition except_None (body : result (option Q)) : option Q :=
  match body with
  | Ok v => v
  | Raise _ => None
  end.

Definition calculate_partial_profit_loss (trade : Trade) (position : option Position)
  : option Q :=
  except_None (
    if decide (lower (trade_side trade) = "sell") then
      price ← py_float (trade_executed_price trade);
      cost_basis ← attr position pos_cost_basis;
      cost ← py_float cost_basis;
      quantity ← attr position pos_quantity;
      per_share ← py_truediv cost quantity;
      Ok (Some ((price - per_share) * trade_quantity trade)%Q)
    else if decide (lower (trade_side trade) = "buy") then
      quantity ← attr position pos_quantity;
      if Qlt_le_dec quantity 0 then
        cost_basis ← attr position pos_cost_basis;
        cost ← py_float cost_basis;
        cost_per_share ← py_truediv cost (Qabs quantity);
        price ← py_float (trade_executed_price trade);
        Ok (Some ((cost_per_share - price) * Qabs (trade_quantity trade))%Q)
      else Ok None
    else Ok None).

(** The block "Adjust for futures and options" of [calculate_profit_loss]:
    two independent [if]s, each an in-place [*=]. *)
Definition adjust_for_futures_and_options (symbol : string) (profit_loss : option Q)
  : result (option Q) :=
  profit_loss ←
    (if is_futures_symbol symbol then
       v ← py_mul profit_loss (inject_Z (futures_contract_size symbol)); Ok (Some v)
     else Ok profit_loss);
  if is_option symbol then
    v ← py_mul profit_loss (inject_Z OPTION_MULTIPLIER); Ok (Some v)
  else Ok profit_loss.

Definition calculate_profit_loss (trade : Trade) : option Q :=
  except_None (
    current_price ← py_float (trade_executed_price trade);
    if decide (lower (trade_side trade) = "buy") then
      let position :=
        get_position (trade_broker trade) (trade_symbol trade) (trade_strategy trade) in
      match position with
      | Some p =>
          if Qlt_le_dec (pos_quantity p) 0 then
            cost ← py_float (pos_cost_basis p);
            cost_per_share ← py_truediv cost (Qabs (pos_quantity p));
            Ok (Some ((cost_per_share - current_price) * Qabs (trade_quantity trade))%Q)
          else Ok None
      | None => Ok None
      end
    else if decide (lower (trade_side trade) = "sell") then
      let position :=
        get_position (trade_broker trade) (trade_symbol trade) (trade_strategy trade) in
      profit_loss ←
        match position with
        | Some p =>
            if Qeq_bool (pos_quantity p) (trade_quantity trade) then
              price ← py_float (trade_executed_price trade);
              cost ← py_float (pos_cost_basis p);
              Ok (Some (price * trade_quantity trade - cost)%Q)
            else Ok (calculate_partial_profit_loss trade position)
        | None => Ok (calculate_partial_profit_loss trade position)
        end;
      adjust_for_futures_and_options (trade_symbol trade) profit_loss
    else Ok None).

End DBManager.
End DBManager.

(** ** The session: the ledger's tables and the unit of work *)

Inductive Event : Type :=
  | LogReconciled (broker : string)
  | LogBalancesUpdated (broker : string)
  | LogPriceMissing (symbol : string)
  | LogVolatilityMissing (symbol : string)
  | LogCostBasisError (symbol : string)
  | LogPositionError (symbol : option string) (e : exn)
  | LogPricesCompleted
  | LogPositionsFetched
  | LogReconcileStageError (e : exn)
  | LogValuationStageError (e : exn)
  | LogIterationTimeout
  | LogIterationStarted
  | LogIterationCompleted
  | Commit.

Global Instance Event_eq_dec : EqDecision Event.
Proof. solve_decision. Defined.

Record Session : Type := mkSession {
  positions : list Position;
  balances : list Balance;
  (** objects given to [session.delete], removed at the next flush *)
  pending_delete : list nat;
  commits : nat;
  trace : list Event;
}.

(** ** The external collaborators *)

Record BrokerPosition : Type := mkBrokerPosition {
  bp_symbol : string;
  bp_quantity : Q;
}.

Record Broker : Type := mkBroker {
  get_current_price : string → result (option Q);
  get_positions : result (gmap string BrokerPosition);
  (** [get_account_info()["value"]] *)
  get_account_info : result Q;
  get_cost_basis : string → result (option Q);
}.

Record World : Type := mkWorld {
  (** the dict [brokers], in its iteration order *)
  brokers : list (string * Broker);
  (** [_calculate_historical_volatility], [None] when the download fails *)
  historical_volatility : string → option Q;
  (** [datetime.now()] *)
  datetime_now : Z;
  (** the error, if any, of the [n]-th [session.commit()] of a session *)
  commit_error : nat → option exn;
  (** whether [asyncio.wait_for] runs into its timeout *)
  timeout_expires : bool;
  (** the dict [brokers] as it answers when a balance cycle asks a second
      time, for the uncategorized bucket *)
  brokers_again : list (string * Broker);
  (** the session as the body of [asyncio.wait_for] has left it when the
      timeout cancels it *)
  cancelled_at : Session → Session;
}.

(** The world of the second round of questions of a balance cycle. *)
Definition later (w : World) : World :=
  mkWorld (brokers_again w) (historical_volatility w) (datetime_now w)
          (commit_error w) (timeout_expires w) (brokers_again w) (cancelled_at w).

(** ** State and exceptions *)

Definition M (A : Type) : Type := Session → result A * Session.

Global Instance M_ret : MRet M := λ A a s, (Ok a, s).
Global Instance M_bind : MBind M := λ A B k m s,
  match m s with
  | (Ok a, s') => k a s'
  | (Raise e, s') => (Raise e, s')
  end.

Definition raise {A} (e : exn) : M A := λ s, (Raise e, s).
Definition lift {A} (r : result A) : M A := λ s, (r, s).
Definition get : M Session := λ s, (Ok s, s).
Definition modify (f : Session → Session) : M () := λ s, (Ok (), f s).

(** [try: body except Exception as e: handler(e)] *)
Definition try_except {A} (body : M A) (handler : exn → M A) : M A := λ s,
  match body s with
  | (Ok a, s') => (Ok a, s')
  | (Raise e, s') => handler e s'
  end.

(** [for x in xs: body(x)] *)
Fixpoint for_each {A} (xs : list A) (body : A → M ()) : M () :=
  match xs with
  | [] => mret ()
  | x :: xs' => _ ← body x; for_each xs' body
  end.

(** [run_ok m s Post]: from [s], [m] returns normally, with a value and a
    session that satisfy [Post]. *)
Definition run_ok {A} (m : M A) (s : Session) (Post : A → Session → Prop) : Prop :=
  match m s with
  | (Ok a, s') => Post a s'
  | (Raise _, _) => False
  end.

Definition set_positions (ps : list Position) (s : Session) : Session :=
  {| positions := ps; balances := balances s; pending_delete := pending_delete s;
     commits := commits s; trace := trace s |}.
Definition set_balances (bs : list Balance) (s : Session) : Session :=
  {| positions := positions s; balances := bs; pending_delete := pending_delete s;
     commits := commits s; trace := trace s |}.
Definition set_pending_delete (ids : list nat) (s : Session) : Session :=
  {| positions := positions s; balances := balances s; pending_delete := ids;
     commits := commits s; trace := trace s |}.
Definition set_commits (n : nat) (s : Session) : Session :=
  {| positions := positions s; balances := balances s;
     pending_delete := pending_delete s; commits := n; trace := trace s |}.
Definition set_trace (t : list Event) (s : Session) : Session :=
  {| positions := positions s; balances := balances s;
     pending_delete := pending_delete s; commits := commits s; trace := t |}.

Definition log (e : Event) : M () := modify (λ s, set_trace (trace s ++ [e]) s).

(** The flush that precedes every query and every commit: pending
    deletions reach the table. *)
Definition flushed (s : Session) : Session :=
  set_pending_delete []
    (set_positions (filter (λ p, pos_id p ∉ pending_delete s) (positions s)) s).
Definition flush : M () := modify flushed.

(** [select(Position).filter_by(...)]: the rows, in table order. *)
Definition select_positions (P : Position → Prop) `{∀ p, Decision (P p)}
  : M (list Position) :=
  _ ← flush; s ← get; mret (filter P (positions s)).

(** [select(Balance)...]: the rows, in table order. *)
Definition select_balances (P : Balance → Prop) `{∀ b, Decision (P b)}
  : M (list Balance) :=
  _ ← flush; s ← get; mret (filter P (balances s)).

(** [session.add(Balance(...))]; the row is visible to the next query. *)
Definition add_balance (b : Balance) : M () :=
  modify (λ s, set_balances (balances s ++ [b]) s).

(** An attribute read of a loaded object. *)
Definition find_position (id : nat) (ps : list Position) : option Position :=
  head (filter (λ p, pos_id p = id) ps).
Definition obj (id : nat) : M Position :=
  s ← get;
  match find_position id (positions s) with
  | Some p => mret p
  | None => raise ObjectDeletedError
  end.

(** An attribute write on a loaded object. *)
Definition update_obj (id : nat) (f : Position → Position) : M () :=
  modify (λ s, set_positions
                 ((λ p, if decide (pos_id p = id) then f p else p) <$> positions s) s).

Definition session_delete (id : nat) : M () :=
  modify (λ s, set_pending_delete (pending_delete s ++ [id]) s).

Definition fresh_id (ps : list Position) : nat :=
  S (foldr Nat.max 0%nat (pos_id <$> ps)).

Definition set_quantity (q : Q) (p : Position) : Position :=
  mkPosition (pos_id p) (pos_broker p) (pos_strategy p) (pos_symbol p) q
    (pos_latest_price p) (pos_cost_basis p) (pos_last_updated p)
    (pos_underlying_volatility p) (pos_underlying_latest_price p).
Definition set_latest_price (v : option Q) (p : Position) : Position :=
  mkPosition (pos_id p) (pos_broker p) (pos_strategy p) (pos_symbol p)
    (pos_quantity p) v (pos_cost_basis p) (pos_last_updated p)
    (pos_underlying_volatility p) (pos_underlying_latest_price p).
Definition set_cost_basis (v : option Q) (p : Position) : Position :=
  mkPosition (pos_id p) (pos_broker p) (pos_strategy p) (pos_symbol p)
    (pos_quantity p) (pos_latest_price p) v (pos_last_updated p)
    (pos_underlying_volatility p) (pos_underlying_latest_price p).
Definition set_last_updated (t : Z) (p : Position) : Position :=
  mkPosition (pos_id p) (pos_broker p) (pos_strategy p) (pos_symbol p)
    (pos_quantity p) (pos_latest_price p) (pos_cost_basis p) t
    (pos_underlying_volatility p) (pos_underlying_latest_price p).
Definition set_underlying_volatility (v : option Q) (p : Position) : Position :=
  mkPosition (pos_id p) (pos_broker p) (pos_strategy p) (pos_symbol p)
    (pos_quantity p) (pos_latest_price p) (pos_cost_basis p) (pos_last_updated p)
    v (pos_underlying_latest_price p).
Definition set_underlying_latest_price (v : option Q) (p : Position) : Position :=
  mkPosition (pos_id p) (pos_broker p) (pos_strategy p) (pos_symbol p)
    (pos_quantity p) (pos_latest_price p) (pos_cost_basis p) (pos_last_updated p)
    (pos_underlying_volatility p) v.

(** ** [data/sync_worker.py] *)

(** [SELECT DISTINCT]: every value once, in the order of first occurrence *)
Fixpoint distinct (l : list string) : list string :=
  match l with
  | [] => []
  | x :: l' => x :: filter (λ y, y ≠ x) (distinct l')
  end.

Definition UPDATE_UNCATEGORIZED_POSITIONS : bool := false.
Definition RECONCILE_POSITIONS : bool := false.
Definition TIMEOUT_DURATION : Z := 120.

Module SyncWorker.
Section Services.
Context `{SymbolUtils}.
Variable w : World.

(** [session.commit()]: it flushes, and fails when the world says so.  No
    caller rolls back after a failure; what that means for the statements
    that follow is [transaction_failed], below. *)
Definition commit : M () :=
  _ ← flush;
  _ ← log Commit;
  s ← get;
  _ ← modify (set_commits (S (commits s)));
  match commit_error w (commits s) with
  | Some e => raise e
  | None => mret ()
  end.

(** *** BrokerService *)

Definition get_broker_instance (broker_name : string) : M Broker :=
  match (list_to_map (brokers w) : gmap string Broker) !! broker_name with
  | Some b => mret b
  | None => raise KeyError
  end.

Definition get_latest_price (broker_name symbol : string) : M (option Q) :=
  broker_instance ← get_broker_instance broker_name;
  lift (get_current_price broker_instance symbol).

Definition broker_account_info (broker_name : string) : M Q :=
  broker_instance ← get_broker_instance broker_name;
  lift (get_account_info broker_instance).

(** *** PositionService: reconciliation *)

(** [{pos.symbol: pos for pos in rows}]: a later row replaces an earlier
    one under the same symbol. *)
Definition by_symbol (rows : list Position) : gmap string nat :=
  foldl (λ d pos, <[pos_symbol pos := pos_id pos]> d) ∅ rows.

Definition _fetch_db_positions (broker : string) : M (gmap string nat) :=
  rows ← select_positions (λ p, pos_broker p = broker);
  mret (by_symbol rows).

Definition _get_positions (broker : string)
  : M (gmap string BrokerPosition * gmap string nat) :=
  broker_instance ← get_broker_instance broker;
  broker_positions ← lift (get_positions broker_instance);
  db_positions ← _fetch_db_positions broker;
  mret (broker_positions, db_positions).

Definition _is_uncategorized_position (db_position : Position) : bool :=
  bool_decide (pos_strategy db_position = "uncategorized").

(** [sum(pos.quantity for pos in db_positions.values() if ...)] *)
Fixpoint sum_categorized (symbol : string) (values : list nat) (acc : Q) : M Q :=
  match values with
  | [] => mret acc
  | id :: rest =>
      pos ← obj id;
      if bool_decide (pos_symbol pos = symbol)
         && negb (bool_decide (pos_strategy pos = "uncategorized"))
      then sum_categorized symbol rest (acc + pos_quantity pos)%Q
      else sum_categorized symbol rest acc
  end.

Definition _get_categorized_quantity (db_positions : gmap string nat) (symbol : string)
  : M Q :=
  sum_categorized symbol (map_to_list db_positions).*2 0%Q.

Definition _calculate_net_broker_quantity (broker_quantity categorized_quantity : Q) : Q :=
  py_max (broker_quantity - categorized_quantity)%Q 0%Q.

Definition _adjust_uncategorized_position (db_position : nat) (net_broker_quantity : Q)
  : M () :=
  pos ← obj db_position;
  if Qlt_le_dec net_broker_quantity (pos_quantity pos) then
    update_obj db_position (set_quantity net_broker_quantity)
  else mret ().

Definition _remove_excess_uncategorized_positions
    (db_positions : gmap string nat) (broker_positions : gmap string BrokerPosition)
  : M () :=
  for_each (map_to_list db_positions) (λ '(symbol, db_position),
    pos ← obj db_position;
    if _is_uncategorized_position pos then
      match broker_positions !! symbol with
      | None => session_delete db_position
      | Some broker_position =>
          categorized_quantity ← _get_categorized_quantity db_positions symbol;
          let net_broker_quantity :=
            _calculate_net_broker_quantity (bp_quantity broker_position)
              categorized_quantity in
          _adjust_uncategorized_position db_position net_broker_quantity
      end
    else mret ()).

Definition _remove_db_positions (broker : string)
    (db_positions : gmap string nat) (broker_positions : gmap string BrokerPosition)
  : M () :=
  let broker_symbols : gset string := dom broker_positions in
  let db_symbols : gset string := dom db_positions in
  let symbols_to_remove := db_symbols ∖ broker_symbols in
  if decide (symbols_to_remove = ∅) then mret ()
  else
    _ ← flush;
    modify (λ s, set_positions
      (filter (λ p, ¬ (pos_broker p = broker ∧ pos_symbol p ∈ symbols_to_remove))
              (positions s)) s).

Definition _update_existing_position (existing_position : nat)
    (broker_position : BrokerPosition) (now : Z) : M () :=
  _ ← update_obj existing_position (set_quantity (bp_quantity broker_position));
  update_obj existing_position (set_last_updated now).

Definition _insert_new_position (broker : string) (broker_position : BrokerPosition)
    (now : Z) : M () :=
  price ← get_latest_price broker (bp_symbol broker_position);
  modify (λ s, set_positions
    (positions s ++
       [mkPosition (fresh_id (positions s)) broker "uncategorized"
          (bp_symbol broker_position) (bp_quantity broker_position) price None now
          None None]) s).

Definition _add_missing_positions (broker : string)
    (db_positions : gmap string nat) (broker_positions : gmap string BrokerPosition)
    (now : Z) : M () :=
  for_each (map_to_list broker_positions) (λ '(symbol, broker_position),
    match db_positions !! symbol with
    | Some existing_position =>
        _update_existing_position existing_position broker_position now
    | None =>
        if UPDATE_UNCATEGORIZED_POSITIONS then
          _insert_new_position broker broker_position now
        else mret ()
    end).

Definition reconcile_positions (broker : string) (timestamp : option Z) : M () :=
  let now := default (datetime_now w) timestamp in
  '(broker_positions, db_positions) ← _get_positions broker;
  _ ← _remove_excess_uncategorized_positions db_positions broker_positions;
  _ ← _remove_db_positions broker db_positions broker_positions;
  '(broker_positions, db_positions) ← _get_positions broker;
  _ ← _add_missing_positions broker db_positions broker_positions now;
  _ ← commit;
  log (LogReconciled broker).

(** *** PositionService: valuation *)

Definition update_position_cost_basis (position : nat) (broker_instance : Broker)
  : M () :=
  pos ← obj position;
  match get_cost_basis broker_instance (pos_symbol pos) with
  | Ok (Some cost_basis) => update_obj position (set_cost_basis (Some cost_basis))
  | Ok None => log (LogCostBasisError (pos_symbol pos))
  | Raise _ => log (LogCostBasisError (pos_symbol pos))
  end.

Definition update_cost_basis (position : nat) : M () :=
  pos ← obj position;
  broker_instance ← get_broker_instance (pos_broker pos);
  update_position_cost_basis position broker_instance.

Definition _fetch_and_log_price (position : nat) : M (option Q) :=
  pos ← obj position;
  latest_price ← get_latest_price (pos_broker pos) (pos_symbol pos);
  _ ← match latest_price with
      | None => log (LogPriceMissing (pos_symbol pos))
      | Some _ => mret ()
      end;
  mret latest_price.

Definition _get_underlying_symbol (pos : Position) : string :=
  if is_option (pos_symbol pos) then extract_option_details (pos_symbol pos)
  else pos_symbol pos.

Definition _update_volatility_and_underlying_price (position : nat)
    (underlying_symbol : string) : M () :=
  pos ← obj position;
  latest_underlying_price ← get_latest_price (pos_broker pos) underlying_symbol;
  match historical_volatility w underlying_symbol with
  | Some volatility =>
      _ ← update_obj position (set_underlying_volatility (Some volatility));
      price ← lift (py_float latest_underlying_price);
      update_obj position (set_underlying_latest_price (Some price))
  | None => log (LogVolatilityMissing underlying_symbol)
  end.

(** [not latest_price]: [None] and [0] are both falsy. *)
Definition falsy (v : option Q) : bool :=
  match v with
  | None => true
  | Some q => Qeq_bool q 0
  end.

Definition _update_position_price (position : nat) (now_naive : Z) : M () :=
  latest_price ← _fetch_and_log_price position;
  if falsy latest_price then mret ()
  else
    _ ← update_obj position (set_latest_price latest_price);
    _ ← update_obj position (set_last_updated now_naive);
    pos ← obj position;
    _update_volatility_and_underlying_price position (_get_underlying_symbol pos).

(** The symbol shown by the handler's log line, when the object can
    still be read. *)
Definition symbol_of (position : nat) (s : Session) : option string :=
  pos_symbol <$> find_position position (positions s).

Definition _update_prices_and_volatility (positions : list nat) (now_naive : Z)
  : M () :=
  for_each positions (λ position,
    try_except
      (_ ← _update_position_price position now_naive;
       if RECONCILE_POSITIONS then update_cost_basis position else mret ())
      (λ e, s ← get; log (LogPositionError (symbol_of position s) e))).

Definition _strip_timezone (timestamp : Z) : Z := timestamp.

Definition update_position_prices_and_volatility (positions : list nat)
    (timestamp : option Z) : M () :=
  let now_naive := _strip_timezone (default (datetime_now w) timestamp) in
  _ ← _update_prices_and_volatility positions now_naive;
  _ ← commit;
  log LogPricesCompleted.

(** *** BalanceService *)

(** [select(Balance.strategy).filter_by(broker=broker).distinct()
    .where(Balance.strategy != "uncategorized")] *)
Definition _get_strategies (broker : string) : M (list string) :=
  rows ← select_balances (λ b, bal_broker b = broker ∧ bal_strategy b ≠ "uncategorized");
  mret (distinct (bal_strategy <$> rows)).

(** [ORDER BY timestamp DESC LIMIT 1]: a row with the greatest timestamp
    (the earliest such row of the table, when several have it). *)
Definition most_recent (rows : list Balance) : option Balance :=
  foldl (λ best r,
           match best with
           | None => Some r
           | Some b => if bal_timestamp b <? bal_timestamp r then Some r else Some b
           end) None rows.

Definition _get_cash_balance (broker strategy : string) : M Q :=
  rows ← select_balances (λ b, bal_broker b = broker ∧ bal_strategy b = strategy
                              ∧ bal_type b = "cash");
  mret (match most_recent rows with
        | Some balance => bal_balance balance
        | None => 0%Q
        end).

Fixpoint sum_position_values (broker : string) (rows : list Position)
    (total_positions_value : Q) : M Q :=
  match rows with
  | [] => mret total_positions_value
  | position :: rest =>
      latest_price ← get_latest_price broker (pos_symbol position);
      latest_price ←
        (if is_option (pos_symbol position) then
           v ← lift (py_mul latest_price (pos_quantity position));
           mret (Some (v * 100)%Q)
         else if is_futures_symbol (pos_symbol position) then
           v ← lift (py_mul latest_price (pos_quantity position));
           mret (Some (v * inject_Z (futures_contract_size (pos_symbol position)))%Q)
         else mret latest_price);
      position_value ← lift (py_mul latest_price (pos_quantity position));
      sum_position_values broker rest (total_positions_value + position_value)%Q
  end.

Definition _calculate_positions_balance (broker strategy : string) : M Q :=
  rows ← select_positions (λ p, pos_broker p = broker ∧ pos_strategy p = strategy);
  sum_position_values broker rows 0%Q.

Definition _insert_or_update_balance (broker strategy balance_type : string)
    (balance_value : Q) (timestamp : option Z) : M () :=
  let timestamp := default (datetime_now w) timestamp in
  add_balance (mkBalance broker strategy balance_type balance_value timestamp).

Definition update_strategy_balance (broker strategy : string) (timestamp : option Z)
  : M () :=
  cash_balance ← _get_cash_balance broker strategy;
  positions_balance ← _calculate_positions_balance broker strategy;
  _ ← _insert_or_update_balance broker strategy "cash" cash_balance timestamp;
  _ ← _insert_or_update_balance broker strategy "positions" positions_balance timestamp;
  let total_balance := (cash_balance + positions_balance)%Q in
  _insert_or_update_balance broker strategy "total" total_balance timestamp.

Definition _update_each_strategy_balance (broker : string) (strategies : list string)
    (timestamp : option Z) : M () :=
  for_each strategies (λ strategy, update_strategy_balance broker strategy timestamp).

Fixpoint _sum_each_strategy_balance (broker : string) (strategies : list string)
    (total_balance : Q) : M Q :=
  match strategies with
  | [] => mret total_balance
  | strategy :: rest =>
      cash_balance ← _get_cash_balance broker strategy;
      positions_balance ← _calculate_positions_balance broker strategy;
      _sum_each_strategy_balance broker rest
        (total_balance + (cash_balance + positions_balance))%Q
  end.

Definition _sum_all_strategy_balances (broker : string) : M Q :=
  strategies ← _get_strategies broker;
  _sum_each_strategy_balance broker strategies 0%Q.

Definition _get_account_balance_info (broker : string) : M (Q * Q) :=
  total_value ← broker_account_info broker;
  categorized_balance_sum ← _sum_all_strategy_balances broker;
  mret (total_value, categorized_balance_sum).

Definition _insert_uncategorized_balance (broker : string) (uncategorized_balance : Q)
    (timestamp : Z) : M () :=
  add_balance (mkBalance broker "uncategorized" "cash" uncategorized_balance timestamp).

Definition update_uncategorized_balances (broker : string) (timestamp : Z) : M () :=
  '(total_value, categorized_balance_sum) ← _get_account_balance_info broker;
  let uncategorized_balance := py_max 0%Q (total_value - categorized_balance_sum)%Q in
  _insert_uncategorized_balance broker uncategorized_balance timestamp.

End Services.

Section Iteration.
Context `{SymbolUtils}.
Variable w : World.

(** The prices of the strategies are fetched once for their rows and once
    more for the uncategorized bucket. *)
Definition update_all_strategy_balances (broker : string) (timestamp : Z) : M () :=
  strategies ← _get_strategies broker;
  _ ← _update_each_strategy_balance w broker strategies (Some timestamp);
  _ ← update_uncategorized_balances (later w) broker timestamp;
  _ ← commit w;
  log (LogBalancesUpdated broker).

(** *** The orchestrator *)

(** [async with Session() as session]: a new session, with no commit behind
    it and nothing pending. *)
Definition open_session : M () :=
  modify (λ s, set_commits 0 (set_pending_delete [] s)).

(** No handler of the worker rolls back: once a commit of the session has
    failed, the session refuses every further statement. *)
Definition transaction_failed (s : Session) : bool :=
  existsb (λ n, bool_decide (is_Some (commit_error w n))) (seq 0 (commits s)).

Definition statement {A} (m : M A) : M A := λ s,
  if transaction_failed s then (Raise PendingRollbackError, s) else m s.

Definition _reconcile_brokers_and_update_balances (broker_names : list string)
    (now : Z) : M () :=
  for_each broker_names (λ broker,
    _ ← (if RECONCILE_POSITIONS then reconcile_positions w broker None else mret ());
    update_all_strategy_balances broker now).

Definition _fetch_and_update_positions (now : Z) : M () :=
  rows ← statement (select_positions (λ _, True));
  _ ← log LogPositionsFetched;
  update_position_prices_and_volatility w (pos_id <$> rows) (Some now).

Definition _run_sync_worker_iteration_logic : M () :=
  _ ← log LogIterationStarted;
  let now := datetime_now w in
  _ ← open_session;
  _ ← try_except (_reconcile_brokers_and_update_balances (brokers w).*1 now)
        (λ e, log (LogReconcileStageError e));
  _ ← try_except (_fetch_and_update_positions now)
        (λ e, log (LogValuationStageError e));
  _ ← statement (commit w);
  log LogIterationCompleted.

(** [asyncio.wait_for(body, timeout)]: whether the deadline passes first is
    the world's choice, and so is how far the body has come by then. *)
Definition wait_for {A} (body : M A) : M A := λ s,
  if timeout_expires w then (Raise TimeoutError, cancelled_at w s) else body s.

Definition _run_sync_worker_iteration : M () :=
  try_except (wait_for _run_sync_worker_iteration_logic)
    (λ e, match e with
          | TimeoutError => _ ← log LogIterationTimeout; raise TimeoutError
          | _ => raise e
          end).

End Iteration.
End SyncWorker.

(** ** What the specification says, for comparison with the code *)

Module Spec.
Section Spec.
Context `{SymbolUtils}.
Local Open Scope Q_scope.

(** "if the symbol is a futures contract, multiply P/L by its contract
    size; if it is an option, multiply by the fixed option multiplier" *)
Definition futures_multiplier (symbol : string) : Q :=
  if is_futures_symbol symbol then inject_Z (futures_contract_size symbol) else 1.
Definition option_multiplier (symbol : string) : Q :=
  if is_option symbol then inject_Z OPTION_MULTIPLIER else 1.

(** "Sell, quantity exactly matches position quantity: P/L = executedPrice
    * tradeQty - costBasis.  Sell, partial: P/L = (executedPrice -
    costBasis / positionQty) * tradeQty." *)
Definition sell_profit_loss (price cost position_qty trade_qty : Q) : Q :=
  if Qeq_bool position_qty trade_qty then price * trade_qty - cost
  else (price - cost / position_qty) * trade_qty.

(** "costPerShare = |costBasis| / |positionQty|; P/L = (costPerShare -
    executedPrice) * |tradeQty|" *)
Definition short_cover_profit_loss (price cost position_qty trade_qty : Q) : Q :=
  (Qabs cost / Qabs position_qty - price) * Qabs trade_qty.

(** "each position contributes price * quantity * multiplier (quantity
    entering the product exactly once)" *)
Definition position_value (price : Q) (position : Position) : Q :=
  if is_option (pos_symbol position) then price * pos_quantity position * 100
  else if is_futures_symbol (pos_symbol position) then
    price * pos_quantity position
    * inject_Z (futures_contract_size (pos_symbol position))
  else price * pos_quantity position.

End Spec.
End Spec.

(** ** Relations between two states of the table [Position] *)

(** The row [p'] is the row [p], up to its mutable attributes. *)
Definition same_row (p p' : Position) : Prop :=
  pos_id p = pos_id p' ∧ pos_broker p = pos_broker p'
  ∧ pos_strategy p = pos_strategy p' ∧ pos_symbol p = pos_symbol p'.

(** Every row of [ps'] is a row of [ps] whose quantity was kept, or was
    overwritten by a value that satisfies [G]. *)
Definition derived (G : Q → Prop) (ps ps' : list Position) : Prop :=
  ∀ p', p' ∈ ps' →
    ∃ p, p ∈ ps ∧ same_row p p'
         ∧ (pos_quantity p' = pos_quantity p ∨ G (pos_quantity p')).

(** A write to a row that keeps its identity, and both keeps its
    quantity or sets one that satisfies [G]. *)
Definition safe_write (G : Q → Prop) (f : Position → Position) : Prop :=
  ∀ p, same_row p (f p) ∧ (pos_quantity (f p) = pos_quantity p ∨ G (pos_quantity (f p))).

(** A piece of work on the session that commits nothing and treats the
    table [Position] as [derived] says. *)
Definition reworked (G : Q → Prop) (s s' : Session) : Prop :=
  derived G (positions s) (positions s') ∧ commits s' = commits s.

(** The one row of a broker and symbol that a map keyed by symbol holds:
    the last one in table order. *)
Definition visible_row (broker symbol : string) (ps : list Position) : option Position :=
  last (filter (λ p, pos_symbol p = symbol) (filter (λ p, pos_broker p = broker) ps)).

(** What a row adds to the categorized quantity. *)
Definition categorized_quantity_of (row : option Position) : Q :=
  match row with
  | Some p => if bool_decide (pos_strategy p = "uncategorized") then 0 else pos_quantity p
  | None => 0
  end.

(** ** Valuation *)

(** An attribute write through a reference: it reaches the rows of that
    primary key. *)
Definition write_to (id : nat) (f : Position → Position) (p : Position) : Position :=
  if decide (pos_id p = id) then f p else p.

(** What the fetch of a position's own price yields. *)
Definition own_price (w : World) (p : Position) : result (option Q) :=
  match (list_to_map (brokers w) : gmap string Broker) !! pos_broker p with
  | Some broker_instance => get_current_price broker_instance (pos_symbol p)
  | None => Raise KeyError
  end.

(** The fetch of the position's own price fails: it raises, or yields no
    price ([None], or the falsy 0). *)
Definition price_missing (w : World) (p : Position) : Prop :=
  match own_price w p with
  | Ok v => SyncWorker.falsy v = true
  | Raise _ => True
  end.

(** A step on the session that commits nothing and writes to the rows of
    one primary key only, leaving their identity, price and timestamp. *)
Definition keeps (id : nat) (s s' : Session) : Prop :=
  commits s' = commits s
  ∧ ∃ g, positions s' = write_to id g <$> positions s
         ∧ ∀ r, same_row r (g r)
                ∧ pos_latest_price (g r) = pos_latest_price r
                ∧ pos_last_updated (g r) = pos_last_updated r.

(** What the valuation of one position does to the table: nothing when
    its own price is missing; otherwise it writes the price and the
    timestamp to the rows of the position. *)
Definition valued (w : World) (id : nat) (now : Z) (s s' : Session) : Prop :=
  commits s' = commits s
  ∧ match find_position id (positions s) with
    | None => positions s' = positions s
    | Some p =>
        match own_price w p with
        | Ok (Some x) =>
            if Qeq_bool x 0 then positions s' = positions s
            else ∃ g, positions s' = write_to id g <$> positions s
                      ∧ ∀ r, same_row r (g r) ∧ pos_latest_price (g r) = Some x
                             ∧ pos_last_updated (g r) = now
        | _ => positions s' = positions s
        end
    end.

(** ** Reading the table [Balance] *)

(** No deletion is pending. *)
Definition clean (s : Session) : Prop := pending_delete s = [].

(** The value of the most recent row of a broker, strategy and type. *)
Definition latest_balance (bs : list Balance) (broker strategy type : string)
  : option Q :=
  bal_balance <$> SyncWorker.most_recent
    (filter (λ r, bal_broker r = broker ∧ bal_strategy r = strategy
                  ∧ bal_type r = type) bs).

(** The strategies of a broker that have balance rows, "uncategorized"
    apart, in the order of their first rows. *)
Definition real_strategies (bs : list Balance) (broker : string) : list string :=
  distinct (bal_strategy <$>
    filter (λ r, bal_broker r = broker ∧ bal_strategy r ≠ "uncategorized") bs).

(** The sum of the most recent [total] rows over a list of strategies. *)
Definition sum_latest_totals (bs : list Balance) (broker : string)
    (strategies : list string) : Q :=
  foldr (λ strategy acc,
           (default 0 (latest_balance bs broker strategy "total") + acc)%Q)
        0%Q strategies.

(** The positions balance that the code derives for a strategy from the
    positions of a session (0 when the derivation fails). *)
Definition positions_balance_of `{SymbolUtils} (w : World) (broker : string)
    (s0 : Session) (strategy : string) : Q :=
  match (SyncWorker._calculate_positions_balance w broker strategy s0).1 with
  | Ok v => v
  | Raise _ => 0%Q
  end.

(** The most recent [cash] row plus the positions balance that the code
    derives in the world [w], added up over a list of strategies the way
    [_sum_each_strategy_balance] does. *)
Definition sum_cash_and_positions `{SymbolUtils} (w : World) (bs : list Balance)
    (broker : string) (s0 : Session) (strategies : list string) : Q :=
  foldl (λ total strategy,
           (total + (default 0 (latest_balance bs broker strategy "cash")
                     + positions_balance_of w broker s0 strategy))%Q)
        0%Q strategies.

(** The three rows that a cycle writes for a strategy. *)
Definition strategy_rows (broker strategy : string) (cash positions : Q) (t : Z)
  : list Balance :=
  [mkBalance broker strategy "cash" cash t;
   mkBalance broker strategy "positions" positions t;
   mkBalance broker strategy "total" (cash + positions)%Q t].

Definition cycle_rows (broker : string) (t : Z) (cash positions : string → Q)
    (strategies : list string) : list Balance :=
  strategies ≫= λ strategy,
    strategy_rows broker strategy (cash strategy) (positions strategy) t.

(** ** Concrete ledgers, brokers and trades *)

Module Examples.
Local Open Scope Q_scope.

(** A classification with one option symbol and one futures symbol. *)
Definition utils : SymbolUtils :=
  {| is_option := λ s, bool_decide (s = "OPT");
     is_futures_symbol := λ s, bool_decide (s = "FUT");
     futures_contract_size := λ _, 50%Z;
     extract_option_details := λ _, "UND" |}.

Definition position (id : nat) (strategy symbol : string) (quantity : Q)
    (cost_basis : option Q) : Position :=
  mkPosition id "b" strategy symbol quantity None cost_basis 0 None None.

(** Profit/loss. *)
Definition long_100 : list Position := [position 1 "alpha" "SYM" 100 (Some 1000)].
Definition sell_50_at_12 : Trade := mkTrade "b" "SYM" "alpha" "sell" 50 (Some 12).
Definition sell_100_at_12 : Trade := mkTrade "b" "SYM" "alpha" "Sell" 100 (Some 12).
Definition long_100_option : list Position :=
  [position 1 "alpha" "OPT" 100 (Some 1000)].
Definition sell_50_option_at_12 : Trade := mkTrade "b" "OPT" "alpha" "sell" 50 (Some 12).
Definition long_100_futures : list Position :=
  [position 1 "alpha" "FUT" 100 (Some 1000)].
Definition sell_50_futures_at_12 : Trade :=
  mkTrade "b" "FUT" "alpha" "sell" 50 (Some 12).
Definition short_10 : list Position := [position 1 "alpha" "SYM" (-10) (Some 1000)].
Definition short_10_negative_basis : list Position :=
  [position 1 "alpha" "SYM" (-10) (Some (-1000))].
Definition buy_10_at_90 : Trade := mkTrade "b" "SYM" "alpha" "buy" 10 (Some 90).
Definition buy_4_at_90 : Trade := mkTrade "b" "SYM" "alpha" "BUY" 4 (Some 90).
Definition short_10_option : list Position :=
  [position 1 "alpha" "OPT" (-10) (Some 1000)].
Definition buy_4_option_at_90 : Trade := mkTrade "b" "OPT" "alpha" "buy" 4 (Some 90).

(** Reconciliation. *)
Definition broker_reporting (reported : gmap string BrokerPosition) : Broker :=
  mkBroker (λ _, Ok (Some 3)) (Ok reported) (Ok 5000) (λ _, Ok None).
Definition world_of (brokers : list (string * Broker)) : World :=
  mkWorld brokers (λ _, Some 1) 10%Z (λ _, None) false brokers (λ s, s).
Definition ledger (ps : list Position) : Session := mkSession ps [] [] 0 [].

(** The broker reports 100 SYM; "alpha" holds 60 and the uncategorized
    bucket 50. *)
Definition sym_100 : World :=
  world_of [("b", broker_reporting {["SYM" := mkBrokerPosition "SYM" 100]})].
Definition alpha_60_uncategorized_50 : Session :=
  ledger [position 1 "alpha" "SYM" 60 None; position 2 "uncategorized" "SYM" 50 None].
Definition uncategorized_50_alpha_60 : Session :=
  ledger [position 2 "uncategorized" "SYM" 50 None; position 1 "alpha" "SYM" 60 None].

(** Two strategies hold SYM, next to the uncategorized bucket. *)
Definition alpha_60_beta_7_uncategorized_50 : Session :=
  ledger [position 1 "alpha" "SYM" 60 None; position 2 "uncategorized" "SYM" 50 None;
          position 3 "beta" "SYM" 7 None].

(** The first two steps of [reconcile_positions]: the fetch and the shrink
    pass. *)
Definition shrink_pass (w : World) (broker : string) : M () :=
  '(broker_positions, db_positions) ← SyncWorker._get_positions w broker;
  SyncWorker._remove_excess_uncategorized_positions db_positions broker_positions.

(** The broker reports a short of 5 SYM; "alpha" holds 10. *)
Definition sym_short_5 : World :=
  world_of [("b", broker_reporting {["SYM" := mkBrokerPosition "SYM" (-5)]})].
Definition alpha_10 : Session := ledger [position 1 "alpha" "SYM" 10 None].

(** "alpha" also holds a symbol that the broker no longer reports. *)
Definition alpha_60_and_old : Session :=
  ledger [position 1 "alpha" "SYM" 60 None; position 2 "alpha" "OLD" 5 None].

(** Balances: every price is 3 and the account is worth 5000. *)
Definition two_options : Session := ledger [position 1 "alpha" "OPT" 2 None].
Definition two_futures : Session := ledger [position 1 "alpha" "FUT" 2 None].
Definition alpha_cash_200 : Session :=
  mkSession [position 1 "alpha" "SYM" 10 None] [mkBalance "b" "alpha" "cash" 200 1]
    [] 0 [].

Definition alpha_cash_6000 : Session :=
  mkSession [position 1 "alpha" "SYM" 10 None] [mkBalance "b" "alpha" "cash" 6000 1]
    [] 0 [].

(** Between the two rounds of price fetches of a cycle the price moves
    from 3 to 4. *)
Definition broker_quoting (price : Q) : Broker :=
  mkBroker (λ _, Ok (Some price)) (Ok ∅) (Ok 5000) (λ _, Ok None).
Definition price_moves : World :=
  mkWorld [("b", broker_quoting 3)] (λ _, Some 1) 10%Z (λ _, None) false
          [("b", broker_quoting 4)] (λ s, s).

(** Valuation: the broker of the second position is not configured. *)
Definition mixed_batch : Session :=
  ledger [position 1 "alpha" "SYM" 10 None;
          mkPosition 2 "elsewhere" "alpha" "SYM" 5 None None 0 None None;
          position 3 "beta" "OPT" 1 None].

(** The orchestrator: the account information of broker "a" cannot be
    fetched; broker "b" works. *)
Definition broker_unavailable : Broker :=
  mkBroker (λ _, Ok (Some 3)) (Ok ∅) (Raise (BrokerError "unavailable"))
    (λ _, Ok None).
Definition a_fails_b_works : World :=
  world_of [("a", broker_unavailable);
            ("b", broker_reporting {["SYM" := mkBrokerPosition "SYM" 100]})].
Definition b_works : World :=
  world_of [("b", broker_reporting {["SYM" := mkBrokerPosition "SYM" 100]})].
Definition two_brokers : Session :=
  mkSession [position 1 "alpha" "SYM" 10 None]
    [mkBalance "a" "alpha" "cash" 1 1; mkBalance "b" "alpha" "cash" 200 1] [] 0 [].

(** Broker "b" works, the first commit of a session fails, and the timeout
    does not expire. *)
Definition first_commit_fails : World :=
  mkWorld [("b", broker_reporting {["SYM" := mkBrokerPosition "SYM" 100]})]
          (λ _, Some 1) 10%Z
          (λ n, match n with O => Some (DatabaseError "connection lost") | _ => None end)
          false
          [("b", broker_reporting {["SYM" := mkBrokerPosition "SYM" 100]})] (λ s, s).

End Examples.

(** ** What a computation does to the session, whatever its outcome *)

(** [always R m]: from every session, [m] ends (normally or with an
    exception) in a session related to it by [R]. *)
Definition always {A} (R : relation Session) (m : M A) : Prop :=
  ∀ s, R s (m s).2.

(** The table [Balance] is as it was. *)
Definition balances_kept (s s' : Session) : Prop := balances s' = balances s.

(** The table [Balance] has only grown at its end. *)
Definition balances_appended (s s' : Session) : Prop :=
  balances s `prefix_of` balances s'.

(** Every row of the table [Position] is a row that was there, unchanged. *)
Definition positions_within (s s' : Session) : Prop :=
  positions s' ⊆ positions s.

(** Every row of the table [Position] is a row that was there, with its
    identity, strategy tag, quantity and cost basis. *)
Definition holdings_kept (s s' : Session) : Prop :=
  ∀ p', p' ∈ positions s' →
    ∃ p, p ∈ positions s ∧ same_row p p'
         ∧ pos_quantity p' = pos_quantity p
         ∧ pos_cost_basis p' = pos_cost_basis p.

(** Every row of the table [Position] is a row that was there, with its
    identity and strategy tag. *)
Definition tags_kept (s s' : Session) : Prop :=
  derived (λ _, True) (positions s) (positions s').

(** No commit was attempted. *)
Definition commits_kept (s s' : Session) : Prop := commits s' = commits s.

(** Two relations at once. *)
Definition both (R1 R2 : relation Session) : relation Session :=
  λ s s', R1 s s' ∧ R2 s s'.

(** From a session that satisfies [Inv], [m] leads to one that does,
    whatever its outcome, and a value that it returns satisfies [Q]. *)
Definition maintains {A} (Inv : Session → Prop) (m : M A) (Q : A → Prop) : Prop :=
  ∀ s, Inv s → Inv (m s).2 ∧ ∀ a, (m s).1 = Ok a → Q a.

(** The rows of the table [Position] that belong to other brokers. *)
Definition other_brokers (broker : string) (ps : list Position) : list Position :=
  filter (λ p, pos_broker p ≠ broker) ps.

(** What one pass of the loop of [_calculate_positions_balance] adds to
    [total_positions_value], for a position and the price fetched for
    it. *)
Definition position_value_added `{SymbolUtils} (latest_price : Q)
    (position : Position) : Q :=
  ((if is_option (pos_symbol position) then
      latest_price * pos_quantity position * 100
    else if is_futures_symbol (pos_symbol position) then
      latest_price * pos_quantity position
      * inject_Z (futures_contract_size (pos_symbol position))
    else latest_price) * pos_quantity position)%Q.

(** ** [database/db_manager.py]: the methods that write *)

Record AccountInfo : Type := mkAccountInfo {
  ai_broker : string;
  ai_value : Q;
}.

(** A row of the table [Trade]: the trade with its primary key, status
    and recorded profit/loss. *)
Record TradeRow : Type := mkTradeRow {
  tr_id : nat;
  tr_status : string;
  tr_profit_loss : option Q;
  tr_trade : Trade;
}.

Record Database : Type := mkDatabase {
  db_account_info : list AccountInfo;
  db_trades : list TradeRow;
  db_balances : list Balance;
  db_positions : list Position;
}.

Module DBStore.
Section DBStore.

(** The error, if any, of the [n]-th [session.commit()] of a call. *)
Variable commit_error : nat → option exn.

(** An attribute write on the object that a query returned first. *)
Fixpoint update_first {A} (P : A → Prop) `{∀ x, Decision (P x)} (f : A → A)
    (l : list A) : list A :=
  match l with
  | [] => []
  | x :: l' => if decide (P x) then f x :: l' else x :: update_first P f l'
  end.

Definition set_value (v : Q) (a : AccountInfo) : AccountInfo :=
  mkAccountInfo (ai_broker a) v.
Definition set_status (status : string) (t : TradeRow) : TradeRow :=
  mkTradeRow (tr_id t) status (tr_profit_loss t) (tr_trade t).
Definition set_trade_strategy (strategy : string) (t : TradeRow) : TradeRow :=
  mkTradeRow (tr_id t) (tr_status t) (tr_profit_loss t)
    (mkTrade (trade_broker (tr_trade t)) (trade_symbol (tr_trade t)) strategy
       (trade_side (tr_trade t)) (trade_quantity (tr_trade t))
       (trade_executed_price (tr_trade t))).
Definition set_balance_strategy (strategy : string) (b : Balance) : Balance :=
  mkBalance (bal_broker b) strategy (bal_type b) (bal_balance b) (bal_timestamp b).
Definition set_position_strategy (strategy : string) (p : Position) : Position :=
  mkPosition (pos_id p) (pos_broker p) strategy (pos_symbol p) (pos_quantity p)
    (pos_latest_price p) (pos_cost_basis p) (pos_last_updated p)
    (pos_underlying_volatility p) (pos_underlying_latest_price p).

Definition with_account_info (l : list AccountInfo) (db : Database) : Database :=
  mkDatabase l (db_trades db) (db_balances db) (db_positions db).
Definition with_trades (l : list TradeRow) (db : Database) : Database :=
  mkDatabase (db_account_info db) l (db_balances db) (db_positions db).
Definition with_balances (l : list Balance) (db : Database) : Database :=
  mkDatabase (db_account_info db) (db_trades db) l (db_positions db).
Definition with_positions (l : list Position) (db : Database) : Database :=
  mkDatabase (db_account_info db) (db_trades db) (db_balances db) l.

(** [await session.commit()] inside [try: ... except: await
    session.rollback()]: the pending state is stored, or the stored state
    is kept and the error logged. *)
Definition commit_or_rollback (n : nat) (stored pending : Database)
  : option exn * Database :=
  match commit_error n with
  | None => (None, pending)
  | Some e => (Some e, stored)
  end.

(** The methods return the error they logged, if any, with the database;
    none of them raises. *)
Definition add_account_info (account_info : AccountInfo) (db : Database)
  : option exn * Database :=
  let existing_info :=
    head (filter (λ a, ai_broker a = ai_broker account_info) (db_account_info db)) in
  let pending :=
    match existing_info with
    | Some _ =>
        with_account_info
          (update_first (λ a, ai_broker a = ai_broker account_info)
             (set_value (ai_value account_info)) (db_account_info db)) db
    | None => with_account_info (db_account_info db ++ [account_info]) db
    end in
  commit_or_rollback 0 db pending.

Definition get_trade (trade_id : nat) (db : Database) : option TradeRow :=
  head (filter (λ t, tr_id t = trade_id) (db_trades db)).

Definition update_trade_status (trade_id : nat) (status : string) (db : Database)
  : option exn * Database :=
  match get_trade trade_id db with
  | None => (Some AttributeError, db)
  | Some _ =>
      commit_or_rollback 0 db
        (with_trades
           (update_first (λ t, tr_id t = trade_id) (set_status status) (db_trades db))
           db)
  end.

Definition set_trade_filled (trade_id : nat) (db : Database)
  : option exn * Database :=
  match get_trade trade_id db with
  | None => (Some AttributeError, db)
  | Some _ =>
      commit_or_rollback 0 db
        (with_trades
           (update_first (λ t, tr_id t = trade_id) (set_status "filled")
              (db_trades db)) db)
  end.

Definition set_trade_cancelled (trade_id : nat) (db : Database)
  : option exn * Database :=
  match get_trade trade_id db with
  | None => (Some AttributeError, db)
  | Some _ =>
      commit_or_rollback 0 db
        (with_trades
           (update_first (λ t, tr_id t = trade_id) (set_status "cancelled")
              (db_trades db)) db)
  end.

Definition get_open_trades (db : Database) : list TradeRow :=
  filter (λ t, tr_status t = "open") (db_trades db).

Definition get_all_trades (db : Database) : list TradeRow := db_trades db.

(** [get_profit_loss]: for an unknown id the warning itself reads
    [trade.id] of [None]; the handler returns [None]. *)
Definition get_profit_loss (trade_id : nat) (db : Database) : option Q :=
  DBManager.except_None
    (match get_trade trade_id db with
     | None => Raise AttributeError
     | Some trade => Ok (tr_profit_loss trade)
     end).

(** [for row in rows: row.strategy = new_strategy_name], on the rows of
    [filter_by(broker=broker, strategy=old_strategy_name)]. *)
Definition renamed {A} (row_broker row_strategy : A → string)
    (set_strategy : string → A → A) (broker old new : string) (l : list A)
  : list A :=
  (λ row, if decide (row_broker row = broker ∧ row_strategy row = old)
          then set_strategy new row else row) <$> l.

Definition rename_strategy (broker old_strategy_name new_strategy_name : string)
    (db : Database) : option exn * Database :=
  let db1 :=
    with_balances
      (renamed bal_broker bal_strategy set_balance_strategy broker
         old_strategy_name new_strategy_name (db_balances db)) db in
  match commit_error 0 with
  | Some e => (Some e, db)
  | None =>
      let db2 :=
        with_trades
          (renamed (trade_broker ∘ tr_trade) (trade_strategy ∘ tr_trade)
             set_trade_strategy broker old_strategy_name new_strategy_name
             (db_trades db1)) db1 in
      match commit_error 1 with
      | Some e => (Some e, db1)
      | None =>
          let db3 :=
            with_positions
              (renamed pos_broker pos_strategy set_position_strategy broker
                 old_strategy_name new_strategy_name (db_positions db2)) db2 in
          commit_or_rollback 2 db2 db3
      end
  end.

End DBStore.
End DBStore.

(** ** Further concrete inputs *)

(** The new name is free at [broker] when no balance, trade or position
    of the broker carries it. *)
Definition name_free (broker new : string) (db : Database) : Prop :=
  (∀ r, r ∈ db_balances db → ¬ (bal_broker r = broker ∧ bal_strategy r = new))
  ∧ (∀ r, r ∈ db_trades db →
       ¬ (trade_broker (tr_trade r) = broker ∧ trade_strategy (tr_trade r) = new))
  ∧ (∀ r, r ∈ db_positions db →
       ¬ (pos_broker r = broker ∧ pos_strategy r = new)).

Module MoreExamples.
Local Open Scope Q_scope.

Definition flat_position : list Position :=
  [Examples.position 1 "alpha" "SYM" 0 (Some 1000)].

(** A database with two brokers, three trades, and the balances and
    positions of the strategy alpha at broker b. *)
Definition store : Database :=
  mkDatabase
    [mkAccountInfo "b" 1000; mkAccountInfo "c" 50]
    [mkTradeRow 1 "filled" None (mkTrade "b" "SYM" "alpha" "buy" 100 (Some 10));
     mkTradeRow 2 "open" (Some 100) Examples.sell_50_at_12;
     mkTradeRow 3 "open" None (mkTrade "c" "SYM" "alpha" "buy" 5 None)]
    [mkBalance "b" "alpha" "cash" 200 1; mkBalance "c" "alpha" "cash" 70 1]
    [Examples.position 1 "alpha" "SYM" 50 (Some 500);
     Examples.position 2 "uncategorized" "SYM" 7 None].

Definition commits_succeed : nat → option exn := λ _, None.
Definition second_commit_fails : nat → option exn :=
  λ n, if decide (n = 1%nat) then Some (DatabaseError "locked") else None.

(** A broker that quotes 3 for every symbol but the listed ones, for
    which it has no price, and worlds with and without a historical
    volatility. *)
Definition broker_not_quoting (unquoted : list string) : Broker :=
  mkBroker (λ symbol, if decide (symbol ∈ unquoted) then Ok None else Ok (Some 3))
    (Ok ∅) (Ok 5000) (λ _, Ok None).
Definition no_quote_for_NEW : World :=
  Examples.world_of [("b", broker_not_quoting ["NEW"])].
Definition no_quote_for_UND : World :=
  Examples.world_of [("b", broker_not_quoting ["UND"])].
Definition no_volatility : World :=
  mkWorld [("b", broker_not_quoting [])] (λ _, None) 10%Z (λ _, None) false
          [("b", broker_not_quoting [])] (λ s, s).

(** Two strategies at broker b: alpha holds a stock and a short option,
    beta a symbol called NEW. *)
Definition alpha_and_beta : Session :=
  mkSession
    [Examples.position 1 "alpha" "SYM" 10 None;
     Examples.position 2 "beta" "NEW" 4 None;
     Examples.position 3 "alpha" "OPT" (-2) None]
    [mkBalance "b" "alpha" "cash" 200 1; mkBalance "b" "beta" "cash" 50 1]
    [] 0 [].

End MoreExamples.

(** * Properties of the profit/loss calculator *)

Module DBManagerFacts.
Import DBManager.
Local Open Scope Q_scope.

Section Facts.
Context `{SymbolUtils}.
Variable positions : list Position.

Lemma py_truediv_Ok (a b : Q) : ¬ b == 0 → py_truediv a b = Ok (a / b).
Proof.
  intros Hb. unfold py_truediv.
  destruct (Qeq_bool b 0) eqn:E; [|done].
  by apply Qeq_bool_iff in E.
Qed.

Lemma Qabs_neg_nonzero (q : Q) : q < 0 → ¬ Qabs q == 0.
Proof.
  intros Hq Habs. rewrite Qabs_neg in Habs by (by apply Qlt_le_weak).
  lra.
Qed.

(** The base value of a sell, before the adjustment for futures and
    options. *)
Lemma sell_base trade pos price cost :
  trade_executed_price trade = Some price →
  pos_cost_basis pos = Some cost →
  lower (trade_side trade) = "sell" →
  (pos_quantity pos == trade_quantity trade ∨ ¬ pos_quantity pos == 0) →
  (if Qeq_bool (pos_quantity pos) (trade_quantity trade) then
     price ← py_float (trade_executed_price trade);
     cost ← py_float (pos_cost_basis pos);
     Ok (Some (price * trade_quantity trade - cost)%Q)
   else Ok (calculate_partial_profit_loss trade (Some pos)))
  = Ok (Some (Spec.sell_profit_loss price cost (pos_quantity pos) (trade_quantity trade))).
Proof.
  intros Hprice Hcost Hside Hq. unfold Spec.sell_profit_loss.
  destruct (Qeq_bool (pos_quantity pos) (trade_quantity trade)) eqn:E.
  - by rewrite Hprice, Hcost.
  - destruct Hq as [Hq|Hq]; [apply Qeq_bool_iff in Hq; congruence|].
    unfold calculate_partial_profit_loss. rewrite Hside, Hprice. simpl.
    rewrite Hcost. simpl. by rewrite (py_truediv_Ok _ _ Hq).
Qed.

Lemma calculate_profit_loss_sell trade pos price cost :
  lower (trade_side trade) = "sell" →
  get_position positions (trade_broker trade) (trade_symbol trade)
    (trade_strategy trade) = Some pos →
  trade_executed_price trade = Some price →
  pos_cost_basis pos = Some cost →
  (pos_quantity pos == trade_quantity trade ∨ ¬ pos_quantity pos == 0) →
  calculate_profit_loss positions trade =
    except_None (adjust_for_futures_and_options (trade_symbol trade)
      (Some (Spec.sell_profit_loss price cost (pos_quantity pos)
               (trade_quantity trade)))).
Proof.
  intros Hside Hpos Hprice Hcost Hq. unfold calculate_profit_loss.
  rewrite Hside, Hpos. rewrite (sell_base _ _ _ _ Hprice Hcost Hside Hq).
  by rewrite Hprice.
Qed.

Lemma calculate_profit_loss_short_cover trade pos price cost :
  lower (trade_side trade) = "buy" →
  get_position positions (trade_broker trade) (trade_symbol trade)
    (trade_strategy trade) = Some pos →
  pos_quantity pos < 0 →
  trade_executed_price trade = Some price →
  pos_cost_basis pos = Some cost →
  calculate_profit_loss positions trade =
    Some ((cost / Qabs (pos_quantity pos) - price) * Qabs (trade_quantity trade)).
Proof.
  intros Hside Hpos Hq Hprice Hcost. unfold calculate_profit_loss.
  rewrite Hside, Hpos, Hprice. simpl.
  destruct (Qlt_le_dec (pos_quantity pos) 0) as [_|Hle]; [|lra].
  rewrite Hcost. simpl. by rewrite (py_truediv_Ok _ _ (Qabs_neg_nonzero _ Hq)).
Qed.

Lemma calculate_partial_profit_loss_short_cover trade pos price cost :
  lower (trade_side trade) = "buy" →
  pos_quantity pos < 0 →
  trade_executed_price trade = Some price →
  pos_cost_basis pos = Some cost →
  calculate_partial_profit_loss trade (Some pos) =
    Some ((cost / Qabs (pos_quantity pos) - price) * Qabs (trade_quantity trade)).
Proof.
  intros Hside Hq Hprice Hcost. unfold calculate_partial_profit_loss.
  rewrite Hside. simpl.
  destruct (Qlt_le_dec (pos_quantity pos) 0) as [_|Hle]; [|lra].
  rewrite Hcost. simpl. rewrite (py_truediv_Ok _ _ (Qabs_neg_nonzero _ Hq)).
  by rewrite Hprice.
Qed.

(** C6, as amended: for a sell with a matching position whose symbol is
    neither a futures contract nor an option, the result is executedPrice *
    tradeQty - costBasis when the quantities are equal, and (executedPrice -
    costBasis / positionQty) * tradeQty otherwise (the position quantity
    being non-zero). *)
Theorem sell_profit_loss_plain_symbol trade pos price cost :
  lower (trade_side trade) = "sell" →
  get_position positions (trade_broker trade) (trade_symbol trade)
    (trade_strategy trade) = Some pos →
  trade_executed_price trade = Some price →
  pos_cost_basis pos = Some cost →
  is_futures_symbol (trade_symbol trade) = false →
  is_option (trade_symbol trade) = false →
  (pos_quantity pos == trade_quantity trade →
   calculate_profit_loss positions trade = Some (price * trade_quantity trade - cost))
  ∧ (¬ pos_quantity pos == trade_quantity trade → ¬ pos_quantity pos == 0 →
     calculate_profit_loss positions trade =
       Some ((price - cost / pos_quantity pos) * trade_quantity trade)).
Proof.
  intros Hside Hpos Hprice Hcost Hfut Hopt. split.
  - intros Hq.
    rewrite (calculate_profit_loss_sell _ _ _ _ Hside Hpos Hprice Hcost)
      by (by left).
    unfold adjust_for_futures_and_options, Spec.sell_profit_loss.
    rewrite Hfut, Hopt. simpl.
    apply Qeq_bool_iff in Hq. by rewrite Hq.
  - intros Hne Hnz.
    rewrite (calculate_profit_loss_sell _ _ _ _ Hside Hpos Hprice Hcost)
      by (by right).
    unfold adjust_for_futures_and_options, Spec.sell_profit_loss.
    rewrite Hfut, Hopt. simpl.
    destruct (Qeq_bool _ _) eqn:E; [|done].
    by apply Qeq_bool_iff in E.
Qed.

(** C7: on a sell, the base value is multiplied by the contract size when
    the symbol is a futures contract and by 100 when it is an option, after
    the base formula; a buy that covers a short gets no such adjustment,
    whatever its symbol is. *)
Theorem multiplier_on_sells_only trade pos price cost :
  get_position positions (trade_broker trade) (trade_symbol trade)
    (trade_strategy trade) = Some pos →
  trade_executed_price trade = Some price →
  pos_cost_basis pos = Some cost →
  (lower (trade_side trade) = "sell" →
   (pos_quantity pos == trade_quantity trade ∨ ¬ pos_quantity pos == 0) →
   ∃ v, calculate_profit_loss positions trade = Some v
        ∧ v == Spec.sell_profit_loss price cost (pos_quantity pos)
                 (trade_quantity trade)
               * Spec.futures_multiplier (trade_symbol trade)
               * Spec.option_multiplier (trade_symbol trade))
  ∧ (lower (trade_side trade) = "buy" → pos_quantity pos < 0 →
     calculate_profit_loss positions trade =
       Some ((cost / Qabs (pos_quantity pos) - price)
             * Qabs (trade_quantity trade))).
Proof.
  intros Hpos Hprice Hcost. split.
  - intros Hside Hq.
    rewrite (calculate_profit_loss_sell _ _ _ _ Hside Hpos Hprice Hcost Hq).
    unfold adjust_for_futures_and_options, Spec.futures_multiplier,
      Spec.option_multiplier.
    destruct (is_futures_symbol _), (is_option _); simpl;
      eexists; (split; [reflexivity|]); ring.
  - intros Hside Hq. by apply calculate_profit_loss_short_cover.
Qed.

End Facts.

(** C5: on a short of 10 whose stored cost basis is -1000, covered at 90,
    [calculate_profit_loss] and the buy branch of
    [calculate_partial_profit_loss] return (-1000 / |-10| - 90) * |10| =
    -1900, where the claim's (|costBasis| / |positionQty| - executedPrice)
    * |tradeQty| is 100: the code takes the absolute value of both
    quantities and divides the cost basis as it is stored.  The same cover
    of the same short with the cost basis stored as 1000 yields the
    claimed 100. *)
Lemma short_cover_negative_cost_basis :
  ∃ pos v partial v',
    lower (trade_side Examples.buy_10_at_90) = "buy"
    ∧ get_position Examples.short_10_negative_basis "b" "SYM" "alpha" = Some pos
    ∧ pos_quantity pos < 0
    ∧ pos_cost_basis pos = Some (-1000)
    ∧ @calculate_profit_loss Examples.utils Examples.short_10_negative_basis
        Examples.buy_10_at_90 = Some v
    ∧ v == -1900
    ∧ calculate_partial_profit_loss Examples.buy_10_at_90 (Some pos) = Some partial
    ∧ partial == -1900
    ∧ Spec.short_cover_profit_loss 90 (-1000) (pos_quantity pos) 10 == 100
    ∧ ¬ v == Spec.short_cover_profit_loss 90 (-1000) (pos_quantity pos) 10
    ∧ @calculate_profit_loss Examples.utils Examples.short_10 Examples.buy_10_at_90
      = Some v'
    ∧ v' == Spec.short_cover_profit_loss 90 1000 (-10) 10.
Proof.
  eexists _, _, _, _. split_and!; try reflexivity; vm_compute; discriminate.
Qed.

(** C6 at the specification's scenario: selling 50 of a 100-share position
    of cost basis 1000 at 12 a share yields 100. *)
Lemma sell_profit_loss_plain_symbol_witness :
  @calculate_profit_loss Examples.utils Examples.long_100 Examples.sell_50_at_12
  = Some ((12 - 1000 / 100) * 50)
  ∧ (12 - 1000 / 100) * 50 == 100
  ∧ @calculate_profit_loss Examples.utils Examples.long_100 Examples.sell_100_at_12
    = Some (12 * 100 - 1000).
Proof.
  split_and!.
  - apply (sell_profit_loss_plain_symbol (H:=Examples.utils) Examples.long_100
             Examples.sell_50_at_12
             (Examples.position 1 "alpha" "SYM" 100 (Some 1000)) 12 1000);
      try reflexivity; vm_compute; discriminate.
  - reflexivity.
  - apply (sell_profit_loss_plain_symbol (H:=Examples.utils) Examples.long_100
             Examples.sell_100_at_12
             (Examples.position 1 "alpha" "SYM" 100 (Some 1000)) 12 1000);
      reflexivity.
Defined.

(** C6 as stated fails on an option symbol: the same sale of 50 out of 100
    returns 10000, a hundred times the claim's 100. *)
Lemma sell_profit_loss_option_symbol :
  ∃ pos v,
    lower (trade_side Examples.sell_50_option_at_12) = "sell"
    ∧ get_position Examples.long_100_option "b" "OPT" "alpha" = Some pos
    ∧ pos_quantity pos = 100 ∧ pos_cost_basis pos = Some 1000
    ∧ @calculate_profit_loss Examples.utils Examples.long_100_option
        Examples.sell_50_option_at_12 = Some v
    ∧ v == 10000
    ∧ (12 - 1000 / 100) * 50 == 100
    ∧ ¬ v == (12 - 1000 / 100) * 50.
Proof.
  eexists _, _. split_and!; try reflexivity; vm_compute; discriminate.
Qed.

(** C7 at a futures sale (contract size 50) and at a short cover of an
    option. *)
Lemma multiplier_on_sells_only_witness :
  (∃ v, @calculate_profit_loss Examples.utils Examples.long_100_futures
          Examples.sell_50_futures_at_12 = Some v
        ∧ v == Spec.sell_profit_loss 12 1000 100 50
               * @Spec.futures_multiplier Examples.utils "FUT"
               * @Spec.option_multiplier Examples.utils "FUT")
  ∧ @calculate_profit_loss Examples.utils Examples.short_10_option
      Examples.buy_4_option_at_90
    = Some ((1000 / Qabs (-10) - 90) * Qabs 4).
Proof.
  split.
  - apply (multiplier_on_sells_only (H:=Examples.utils) Examples.long_100_futures
             Examples.sell_50_futures_at_12
             (Examples.position 1 "alpha" "FUT" 100 (Some 1000)) 12 1000);
      try reflexivity.
    right. vm_compute. discriminate.
  - apply (multiplier_on_sells_only (H:=Examples.utils) Examples.short_10_option
             Examples.buy_4_option_at_90
             (Examples.position 1 "alpha" "OPT" (-10) (Some 1000)) 90 1000);
      reflexivity.
Defined.

End DBManagerFacts.

(** * Reasoning about the session monad *)

Module MonadFacts.

Lemma run_ok_ret {A} (a : A) s (Post : A → Session → Prop) :
  Post a s → run_ok (mret a) s Post.
Proof. done. Qed.

Lemma run_ok_bind {A B} (m : M A) (k : A → M B) s (Post : B → Session → Prop) :
  run_ok m s (λ a s', run_ok (k a) s' Post) → run_ok (m ≫= k) s Post.
Proof.
  unfold run_ok, mbind, M_bind. by destruct (m s) as [[a|e] s'].
Qed.

Lemma run_ok_mono {A} (m : M A) s (P Q : A → Session → Prop) :
  (∀ a s', P a s' → Q a s') → run_ok m s P → run_ok m s Q.
Proof.
  unfold run_ok. destruct (m s) as [[a|e] s']; [|done]. auto.
Qed.

Lemma run_ok_get s (Post : Session → Session → Prop) :
  Post s s → run_ok get s Post.
Proof. done. Qed.

Lemma run_ok_modify f s (Post : () → Session → Prop) :
  Post () (f s) → run_ok (modify f) s Post.
Proof. done. Qed.

Lemma run_ok_lift {A} (r : result A) a s (Post : A → Session → Prop) :
  r = Ok a → Post a s → run_ok (lift r) s Post.
Proof. intros ->. done. Qed.

Lemma run_ok_elim {A} (m : M A) s (Post : A → Session → Prop) :
  run_ok m s Post → ∃ a s', m s = (Ok a, s') ∧ Post a s'.
Proof.
  unfold run_ok. destruct (m s) as [[a|e] s']; [eauto|done].
Qed.

Lemma run_ok_intro {A} (m : M A) s a s' (Post : A → Session → Prop) :
  m s = (Ok a, s') → Post a s' → run_ok m s Post.
Proof. unfold run_ok. by intros ->. Qed.

(** The loop rule: an invariant of every round is an invariant of the
    loop. *)
Lemma run_ok_for_each {A} (xs : list A) (body : A → M ()) (Inv : Session → Prop) s :
  Inv s →
  (∀ x s, x ∈ xs → Inv s → run_ok (body x) s (λ _ s', Inv s')) →
  run_ok (for_each xs body) s (λ _ s', Inv s').
Proof.
  revert s. induction xs as [|x xs IH]; intros s HI Hbody; [done|].
  simpl. apply run_ok_bind.
  eapply run_ok_mono; [|apply Hbody; [left|done]].
  intros [] s' HI'. apply IH; [done|].
  intros y s'' Hy. apply Hbody. by right.
Qed.

End MonadFacts.

(** * [SELECT DISTINCT] *)

Lemma elem_of_distinct (l : list string) x : x ∈ distinct l ↔ x ∈ l.
Proof.
  induction l as [|a l IH]; [done|].
  cbn [distinct]. rewrite !elem_of_cons, list_elem_of_filter, IH.
  split; [intros [?|[? ?]]; auto|intros [?|?]; [by left|]].
  destruct (decide (x = a)); [by left|by right].
Qed.

Lemma NoDup_distinct (l : list string) : NoDup (distinct l).
Proof.
  induction l as [|a l IH]; [constructor|].
  cbn [distinct]. apply NoDup_cons. split.
  - by intros [? _]%list_elem_of_filter.
  - by apply NoDup_filter.
Qed.

(** * Properties of reconciliation *)

Module ReconcileFacts.
Import SyncWorker MonadFacts.
Local Open Scope Q_scope.

(** ** Rows and their relations *)

Lemma same_row_refl p : same_row p p.
Proof. done. Qed.

Lemma same_row_trans p q r : same_row p q → same_row q r → same_row p r.
Proof. unfold same_row. intros (?&?&?&?) (?&?&?&?). split_and!; congruence. Qed.

Lemma derived_refl G ps : derived G ps ps.
Proof. intros p Hp. exists p. split_and!; [done|apply same_row_refl|by left]. Qed.

Lemma derived_trans G ps1 ps2 ps3 :
  derived G ps1 ps2 → derived G ps2 ps3 → derived G ps1 ps3.
Proof.
  intros H12 H23 p3 Hp3.
  destruct (H23 p3 Hp3) as (p2 & Hp2 & Hrow2 & Hq2).
  destruct (H12 p2 Hp2) as (p1 & Hp1 & Hrow1 & Hq1).
  exists p1. split_and!; [done|by eapply same_row_trans|].
  destruct Hq2 as [Hq2|Hq2]; [|by right].
  destruct Hq1 as [Hq1|Hq1]; [left; congruence|right; by rewrite Hq2].
Qed.

Lemma derived_filter G (P : Position → Prop) `{∀ p, Decision (P p)} ps :
  derived G ps (filter P ps).
Proof.
  intros p Hp. apply list_elem_of_filter in Hp as [_ Hp].
  exists p. split_and!; [done|apply same_row_refl|by left].
Qed.

Lemma derived_update G f id (ps : list Position) :
  safe_write G f →
  derived G ps ((λ p, if decide (pos_id p = id) then f p else p) <$> ps).
Proof.
  intros Hf p' Hp'. apply list_elem_of_fmap in Hp' as (p & -> & Hp).
  exists p. split; [done|]. destruct (decide (pos_id p = id)); [apply Hf|].
  split; [apply same_row_refl|by left].
Qed.

Lemma safe_write_set_quantity (G : Q → Prop) q : G q → safe_write G (set_quantity q).
Proof. intros Hq p. split; [done|by right]. Qed.

Lemma safe_write_set_last_updated G t : safe_write G (set_last_updated t).
Proof. intros p. split; [done|by left]. Qed.

Lemma update_ids f id (ps : list Position) :
  (∀ p, pos_id (f p) = pos_id p) →
  pos_id <$> ((λ p, if decide (pos_id p = id) then f p else p) <$> ps) = pos_id <$> ps.
Proof.
  intros Hf. rewrite <- list_fmap_compose. apply list_fmap_ext.
  intros i p _. simpl. case_decide; [apply Hf|done].
Qed.

Lemma find_position_Some id (ps : list Position) p :
  find_position id ps = Some p → p ∈ ps ∧ pos_id p = id.
Proof.
  unfold find_position. intros Hh. apply head_Some_elem_of in Hh.
  by apply list_elem_of_filter in Hh as [? ?].
Qed.

Lemma find_position_is_Some id (ps : list Position) :
  id ∈ pos_id <$> ps → is_Some (find_position id ps).
Proof.
  intros Hid. apply list_elem_of_fmap in Hid as (p & -> & Hp).
  unfold find_position.
  destruct (filter (λ p0, pos_id p0 = pos_id p) ps) as [|q l] eqn:E; [|by eexists].
  assert (p ∈ filter (λ p0, pos_id p0 = pos_id p) ps) as Hin
    by (by apply list_elem_of_filter).
  rewrite E in Hin. by apply elem_of_nil in Hin.
Qed.

Lemma find_position_NoDup (ps : list Position) p :
  NoDup (pos_id <$> ps) → p ∈ ps → find_position (pos_id p) ps = Some p.
Proof.
  intros Hnd Hp. destruct (find_position_is_Some (pos_id p) ps) as [q Hq].
  { apply list_elem_of_fmap. eauto. }
  rewrite Hq. f_equal. apply find_position_Some in Hq as [Hq Hid].
  apply list_elem_of_lookup in Hp as [i Hi]. apply list_elem_of_lookup in Hq as [j Hj].
  assert (i = j) as ->; [|congruence].
  eapply NoDup_lookup; [done| |]; rewrite list_lookup_fmap.
  - by rewrite Hi.
  - rewrite Hj. simpl. by rewrite Hid.
Qed.

(** ** The map keyed by symbol *)

Lemma by_symbol_snoc rows p :
  by_symbol (rows ++ [p]) = <[pos_symbol p := pos_id p]> (by_symbol rows).
Proof. unfold by_symbol. by rewrite foldl_app. Qed.

(** The row that a symbol leads to is the last one of that symbol. *)
Lemma by_symbol_lookup rows symbol :
  by_symbol rows !! symbol
  = pos_id <$> last (filter (λ p, pos_symbol p = symbol) rows).
Proof.
  induction rows as [|p rows IH] using rev_ind; [done|].
  rewrite by_symbol_snoc, filter_app, filter_cons, filter_nil.
  case_decide as Hs.
  - rewrite Hs, lookup_insert_eq. by rewrite last_snoc.
  - rewrite lookup_insert_ne by done. by rewrite app_nil_r.
Qed.

Lemma by_symbol_lookup_Some rows symbol id :
  by_symbol rows !! symbol = Some id →
  ∃ p, p ∈ rows ∧ pos_symbol p = symbol ∧ pos_id p = id.
Proof.
  rewrite by_symbol_lookup. intros Hl.
  destruct (last _) as [p|] eqn:E; [|done]. injection Hl as <-.
  apply last_Some_elem_of in E. apply list_elem_of_filter in E as [? ?]. eauto.
Qed.

Lemma by_symbol_dom rows p : p ∈ rows → pos_symbol p ∈ dom (by_symbol rows).
Proof.
  intros Hp. apply elem_of_dom. rewrite by_symbol_lookup.
  destruct (last _) as [q|] eqn:E; [by eexists|].
  apply last_None in E.
  assert (p ∈ filter (λ p0, pos_symbol p0 = pos_symbol p) rows) as Hin
    by (by apply list_elem_of_filter).
  rewrite E in Hin. by apply elem_of_nil in Hin.
Qed.

(** ** The passes *)

Lemma reworked_refl G s : reworked G s s.
Proof. split; [apply derived_refl|done]. Qed.

Lemma reworked_trans G s1 s2 s3 :
  reworked G s1 s2 → reworked G s2 s3 → reworked G s1 s3.
Proof.
  intros [? ?] [? ?]. split; [by eapply derived_trans|congruence].
Qed.

Lemma reworked_flushed G s : reworked G s (flushed s).
Proof. split; [apply derived_filter|done]. Qed.

Lemma reworked_update G f id s :
  safe_write G f →
  reworked G s (set_positions
    ((λ p, if decide (pos_id p = id) then f p else p) <$> positions s) s).
Proof. intros Hf. split; [by apply derived_update|done]. Qed.

Section Passes.
Variable w : World.
Variable G : Q → Prop.
Hypothesis G_nonneg : ∀ q, 0 <= q → G q.

Lemma fetch_db_positions_run broker s :
  _fetch_db_positions broker s
  = (Ok (by_symbol (filter (λ p, pos_broker p = broker) (positions (flushed s)))),
     flushed s).
Proof. done. Qed.

Lemma get_positions_run broker br bps s :
  (list_to_map (brokers w) : gmap string Broker) !! broker = Some br →
  get_positions br = Ok bps →
  _get_positions w broker s
  = (Ok (bps, by_symbol (filter (λ p, pos_broker p = broker) (positions (flushed s)))),
     flushed s).
Proof.
  intros Hbr Hbps. unfold _get_positions, get_broker_instance.
  rewrite Hbr. unfold mbind at 1, M_bind. simpl. by rewrite Hbps.
Qed.

Lemma obj_run id s p :
  find_position id (positions s) = Some p → obj id s = (Ok p, s).
Proof. intros Hp. unfold obj, mbind, M_bind, get. by rewrite Hp. Qed.

Lemma sum_categorized_total symbol ids acc s :
  (∀ id, id ∈ ids → id ∈ pos_id <$> positions s) →
  ∃ q, sum_categorized symbol ids acc s = (Ok q, s).
Proof.
  revert acc. induction ids as [|id ids IH]; intros acc Hids; [by eexists|].
  destruct (find_position_is_Some id (positions s)) as [p Hp].
  { apply Hids. by left. }
  simpl. unfold mbind, M_bind. rewrite (obj_run _ _ _ Hp).
  destruct (_ && _); apply IH; intros i Hi; apply Hids; by right.
Qed.

Lemma py_max_nonneg a : 0 <= py_max a 0.
Proof. unfold py_max. destruct (Qlt_le_dec a 0); [done|done]. Qed.

(** The shrink pass never fails; it keeps every row, and writes
    non-negative quantities only. *)
Lemma shrink_run (db_positions : gmap string nat) broker_positions s :
  (∀ symbol id, db_positions !! symbol = Some id → id ∈ pos_id <$> positions s) →
  run_ok (_remove_excess_uncategorized_positions db_positions broker_positions) s
    (λ _ s', reworked G s s' ∧ pos_id <$> positions s' = pos_id <$> positions s).
Proof.
  intros Hdb. unfold _remove_excess_uncategorized_positions.
  apply (run_ok_for_each _ _
    (λ s', reworked G s s' ∧ pos_id <$> positions s' = pos_id <$> positions s)).
  { split; [apply reworked_refl|done]. }
  intros [symbol id] s' Hin [Hre Hids].
  apply elem_of_map_to_list in Hin.
  destruct (find_position_is_Some id (positions s')) as [p Hp].
  { rewrite Hids. eauto. }
  apply run_ok_bind. unfold run_ok at 1. rewrite (obj_run _ _ _ Hp).
  destruct (_is_uncategorized_position p); [|done].
  destruct (broker_positions !! symbol) as [bp|].
  - apply run_ok_bind.
    destruct (sum_categorized_total symbol (map_to_list db_positions).*2 0 s')
      as [q Hq].
    { intros i Hi. apply list_elem_of_fmap in Hi as ([k i'] & -> & Hi).
      apply elem_of_map_to_list in Hi. rewrite Hids. eauto. }
    unfold run_ok at 1, _get_categorized_quantity. rewrite Hq.
    unfold _adjust_uncategorized_position. apply run_ok_bind.
    unfold run_ok at 1. rewrite (obj_run _ _ _ Hp).
    destruct (Qlt_le_dec _ _); [|done].
    unfold run_ok, update_obj, modify. simpl. split.
    + eapply reworked_trans; [done|]. apply reworked_update.
      apply safe_write_set_quantity, G_nonneg, py_max_nonneg.
    + by rewrite update_ids.
  - unfold run_ok, session_delete, modify. simpl. done.
Qed.

(** After the prune pass, a row of the broker whose symbol the map knows
    has a symbol that the broker reports. *)
Lemma prune_run broker (db_positions : gmap string nat)
    (broker_positions : gmap string BrokerPosition) s :
  run_ok (_remove_db_positions broker db_positions broker_positions) s
    (λ _ s', reworked G s s'
             ∧ ∀ p, p ∈ positions s' → pos_broker p = broker →
                    pos_symbol p ∈ dom db_positions →
                    pos_symbol p ∈ dom broker_positions).
Proof.
  unfold _remove_db_positions. case_decide as Hempty.
  - split; [apply reworked_refl|]. intros p _ _ Hp.
    destruct (decide (pos_symbol p ∈ dom broker_positions)); [done|].
    assert (pos_symbol p ∈ dom db_positions ∖ dom broker_positions) as Hin
      by set_solver.
    rewrite Hempty in Hin. set_solver.
  - unfold run_ok, mbind, M_bind, flush, modify. simpl. split.
    + eapply reworked_trans; [apply reworked_flushed|].
      split; [apply derived_filter|done].
    + intros p Hp Hb Hdb. apply list_elem_of_filter in Hp as [Hp _].
      destruct (decide (pos_symbol p ∈ dom broker_positions)); [done|].
      exfalso. apply Hp. split; [done|]. set_solver.
Qed.

(** The grow pass never fails (as configured, it inserts nothing); it
    writes the broker's quantities. *)
Lemma grow_run broker (db_positions : gmap string nat)
    (broker_positions : gmap string BrokerPosition) now s :
  (∀ symbol bp, broker_positions !! symbol = Some bp → G (bp_quantity bp)) →
  run_ok (_add_missing_positions w broker db_positions broker_positions now) s
    (λ _ s', reworked G s s').
Proof.
  intros HG. unfold _add_missing_positions.
  apply (run_ok_for_each _ _ (λ s', reworked G s s')); [apply reworked_refl|].
  intros [symbol bp] s' Hin Hre. apply elem_of_map_to_list in Hin.
  destruct (db_positions !! symbol) as [id|]; [|done].
  unfold _update_existing_position, update_obj.
  apply run_ok_bind, run_ok_modify, run_ok_modify.
  eapply reworked_trans; [done|].
  eapply reworked_trans.
  - apply (reworked_update G (set_quantity (bp_quantity bp)) id s').
    apply safe_write_set_quantity. eauto.
  - apply (reworked_update G (set_last_updated now) id).
    apply safe_write_set_last_updated.
Qed.

Lemma commit_run s :
  commit_error w (commits s) = None →
  ∃ s', commit w s = (Ok (), s') ∧ positions s' = positions (flushed s)
        ∧ balances s' = balances s.
Proof.
  intros Hc. unfold commit, mbind, M_bind, flush, log, modify, get. simpl.
  rewrite Hc. by eexists.
Qed.

Lemma reconcile_positions_run broker timestamp br bps s :
  (list_to_map (brokers w) : gmap string Broker) !! broker = Some br →
  get_positions br = Ok bps →
  commit_error w (commits s) = None →
  (∀ symbol bp, bps !! symbol = Some bp → G (bp_quantity bp)) →
  run_ok (reconcile_positions w broker timestamp) s
    (λ _ s', derived G (positions s) (positions s')
             ∧ ∀ p, p ∈ positions s' → pos_broker p = broker →
                    pos_symbol p ∈ dom bps).
Proof.
  intros Hbr Hbps Hcommit HG. unfold reconcile_positions.
  apply run_ok_bind.
  eapply run_ok_intro; [by apply (get_positions_run _ br bps)|]. cbv beta iota.
  set (s1 := flushed s).
  set (db := by_symbol (filter (λ p, pos_broker p = broker) (positions s1))).
  assert (∀ p, p ∈ positions s1 → pos_broker p = broker → pos_symbol p ∈ dom db)
    as Hdom.
  { intros p Hp Hb. apply by_symbol_dom. by apply list_elem_of_filter. }
  apply run_ok_bind.
  eapply run_ok_mono; [|apply shrink_run].
  2:{ intros symbol id Hid. apply by_symbol_lookup_Some in Hid as (p & Hp & _ & <-).
      apply list_elem_of_filter in Hp as [_ Hp]. apply list_elem_of_fmap. eauto. }
  intros [] s2 [Hre2 _].
  apply run_ok_bind.
  eapply run_ok_mono; [|apply prune_run].
  intros [] s3 [Hre3 Hsym3].
  assert (reworked G s s3) as Hre.
  { eapply reworked_trans; [apply reworked_flushed|].
    eapply reworked_trans; [apply Hre2|apply Hre3]. }
  assert (∀ p, p ∈ positions s3 → pos_broker p = broker → pos_symbol p ∈ dom bps)
    as Hsym.
  { intros p Hp Hb. apply Hsym3; [done..|].
    destruct Hre2 as [Hd2 _], Hre3 as [Hd3 _].
    destruct (derived_trans _ _ _ _ Hd2 Hd3 p Hp) as (p1 & Hp1 & (_&Hb1&_&Hs1) & _).
    rewrite <- Hs1. apply Hdom; [done|congruence]. }
  apply run_ok_bind.
  eapply run_ok_intro; [by apply (get_positions_run _ br bps)|]. cbv beta iota.
  apply run_ok_bind.
  eapply run_ok_mono; [|by apply grow_run].
  intros [] s4 Hre4.
  assert (reworked G s s4) as [Hd4 Hc4].
  { eapply reworked_trans; [apply Hre|].
    eapply reworked_trans; [apply reworked_flushed|apply Hre4]. }
  assert (∀ p, p ∈ positions s4 → pos_broker p = broker → pos_symbol p ∈ dom bps)
    as Hsym4.
  { intros p Hp Hb. destruct Hre4 as [Hd _].
    destruct (Hd p Hp) as (p3 & Hp3 & (_&Hb3&_&Hs3) & _).
    apply list_elem_of_filter in Hp3 as [_ Hp3].
    rewrite <- Hs3. apply Hsym; [done|congruence]. }
  apply run_ok_bind.
  destruct (commit_run s4) as (s5 & Hs5 & Hpos5 & _); [congruence|].
  eapply run_ok_intro; [done|].
  unfold log. apply run_ok_modify. simpl. rewrite Hpos5. split.
  - eapply derived_trans; [done|apply derived_filter].
  - intros p Hp. apply list_elem_of_filter in Hp as [_ Hp]. by apply Hsym4.
Qed.

End Passes.

(** C4, as amended: when reconciliation of a configured broker completes
    (its positions are delivered and the commit goes through), every
    symbol the ledger holds for that broker is one the broker reports; and
    no ledger position of that broker is negative provided the broker
    reports no negative quantity and no ledger position of that broker was
    negative before. *)
Theorem reconcile_positions_postcondition w broker timestamp br bps s :
  (list_to_map (brokers w) : gmap string Broker) !! broker = Some br →
  get_positions br = Ok bps →
  commit_error w (commits s) = None →
  ∃ s', reconcile_positions w broker timestamp s = (Ok (), s')
    ∧ (∀ p, p ∈ positions s' → pos_broker p = broker → pos_symbol p ∈ dom bps)
    ∧ ((∀ symbol bp, bps !! symbol = Some bp → 0 <= bp_quantity bp) →
       (∀ p, p ∈ positions s → pos_broker p = broker → 0 <= pos_quantity p) →
       ∀ p, p ∈ positions s' → pos_broker p = broker → 0 <= pos_quantity p).
Proof.
  intros Hbr Hbps Hcommit.
  pose (G := λ q : Q, 0 <= q ∨ ∃ symbol bp, bps !! symbol = Some bp ∧ q = bp_quantity bp).
  destruct (run_ok_elim _ _ _
    (reconcile_positions_run w G (λ q Hq, or_introl Hq) broker timestamp br bps s
       Hbr Hbps Hcommit (λ symbol bp Hbp, or_intror (ex_intro _ symbol
          (ex_intro _ bp (conj Hbp eq_refl))))))
    as ([] & s' & Hrun & Hd & Hsym).
  exists s'. split_and!; [done|done|].
  intros Hbroker Hledger p' Hp' Hb.
  destruct (Hd p' Hp') as (p & Hp & (_&Hbp&_&_) & [Hq|[Hq|(symbol&bp&Hbp'&Hq)]]).
  - rewrite Hq. apply Hledger; [done|congruence].
  - done.
  - rewrite Hq. by eapply Hbroker.
Qed.

(** ** What the categorized sum of the shrink pass ranges over *)

Lemma sum_categorized_other symbol (entries : list (string * nat)) acc s :
  (∀ k id, (k, id) ∈ entries →
     ∃ p, find_position id (positions s) = Some p ∧ pos_symbol p = k) →
  symbol ∉ entries.*1 →
  sum_categorized symbol entries.*2 acc s = (Ok acc, s).
Proof.
  induction entries as [|[k id] entries IH]; intros Hrows Hnot; [done|].
  destruct (Hrows k id) as (p & Hp & Hk); [by left|].
  simpl in Hnot. apply not_elem_of_cons in Hnot as [Hne Hnot].
  simpl. unfold mbind, M_bind. rewrite (obj_run _ _ _ Hp).
  rewrite bool_decide_eq_false_2 by congruence.
  apply IH; [|done]. intros k' id' Hin. apply Hrows. by right.
Qed.

Lemma sum_categorized_value symbol (entries : list (string * nat)) acc s :
  (∀ k id, (k, id) ∈ entries →
     ∃ p, find_position id (positions s) = Some p ∧ pos_symbol p = k) →
  NoDup entries.*1 →
  ∃ q, sum_categorized symbol entries.*2 acc s = (Ok q, s)
       ∧ q == acc + categorized_quantity_of
                      (id ← (list_to_map entries : gmap string nat) !! symbol;
                       find_position id (positions s)).
Proof.
  revert acc. induction entries as [|[k id] entries IH]; intros acc Hrows Hnd.
  { exists acc. split; [done|]. simpl. rewrite lookup_empty. simpl. ring. }
  destruct (Hrows k id) as (p & Hp & Hk); [by left|].
  apply NoDup_cons in Hnd as [Hk' Hnd].
  assert (∀ k' id', (k', id') ∈ entries →
            ∃ p', find_position id' (positions s) = Some p' ∧ pos_symbol p' = k')
    as Hrows' by (intros k' id' Hin; apply Hrows; by right).
  simpl. unfold mbind at 1, M_bind. rewrite (obj_run _ _ _ Hp).
  destruct (decide (k = symbol)) as [->|Hne].
  - rewrite lookup_insert_eq. simpl. rewrite Hp. simpl.
    rewrite (bool_decide_eq_true_2 _ Hk).
    destruct (bool_decide (pos_strategy p = "uncategorized")); simpl.
    + rewrite sum_categorized_other by done. eexists. split; [done|]. ring.
    + rewrite sum_categorized_other by done. by eexists.
  - rewrite lookup_insert_ne by done.
    rewrite bool_decide_eq_false_2 by congruence. simpl. by apply IH.
Qed.

Lemma flushed_NoDup s :
  NoDup (pos_id <$> positions s) → NoDup (pos_id <$> positions (flushed s)).
Proof.
  simpl. generalize (positions s). intros ps Hnd.
  induction ps as [|p ps IH]; [done|].
  simpl in Hnd. apply NoDup_cons in Hnd as [Hp Hnd].
  rewrite filter_cons. case_decide; [|by apply IH].
  simpl. apply NoDup_cons. split; [|by apply IH].
  intros Hin. apply Hp. apply list_elem_of_fmap in Hin as (q & -> & Hq).
  apply list_elem_of_filter in Hq as [_ Hq]. apply list_elem_of_fmap. eauto.
Qed.

(** C10: the ledger's positions of a broker are loaded into a map keyed by
    symbol alone: under each symbol the map holds one row, the last of that
    broker and symbol in table order, whatever the number of strategies that
    hold the symbol; and the categorized quantity that the shrink pass
    computes for a symbol is what that single row adds, never a sum over
    several rows of the symbol. *)
Theorem ledger_keyed_by_symbol_alone broker s :
  NoDup (pos_id <$> positions s) →
  ∃ db_positions,
    _fetch_db_positions broker s = (Ok db_positions, flushed s)
    ∧ (∀ symbol,
         db_positions !! symbol
         = pos_id <$> visible_row broker symbol (positions (flushed s)))
    ∧ (∀ symbol, ∃ q,
         _get_categorized_quantity db_positions symbol (flushed s)
         = (Ok q, flushed s)
         ∧ q == categorized_quantity_of
                  (visible_row broker symbol (positions (flushed s)))).
Proof.
  intros Hnd. apply flushed_NoDup in Hnd.
  eexists. split; [apply fetch_db_positions_run|].
  set (ps := positions (flushed s)) in *.
  set (db := by_symbol (filter (λ p, pos_broker p = broker) ps)).
  assert (∀ symbol, db !! symbol = pos_id <$> visible_row broker symbol ps) as Hdb
    by (intros symbol; apply by_symbol_lookup).
  split; [done|]. intros symbol.
  destruct (sum_categorized_value symbol (map_to_list db) 0 (flushed s))
    as (q & Hq & Hval).
  { intros k id Hin. apply elem_of_map_to_list in Hin.
    apply by_symbol_lookup_Some in Hin as (p & Hp & Hk & <-).
    apply list_elem_of_filter in Hp as [_ Hp]. exists p. split; [|done].
    by apply find_position_NoDup. }
  { apply NoDup_fst_map_to_list. }
  exists q. split; [done|]. rewrite Hval, list_to_map_to_list, Hdb.
  destruct (visible_row broker symbol ps) as [p|] eqn:E; [|simpl; ring].
  unfold visible_row in E. apply last_Some_elem_of in E.
  apply list_elem_of_filter in E as [_ E]. apply list_elem_of_filter in E as [_ E].
  cbn [fmap option_fmap option_map mbind option_bind].
  fold ps. rewrite (find_position_NoDup ps p Hnd E). simpl. ring.
Qed.

(** C10 on a ledger where two strategies hold SYM: the map shows the row
    of "beta" alone, and the categorized quantity is 7, not 60 + 7. *)
Lemma ledger_keyed_by_symbol_alone_witness :
  ∃ db_positions,
    _fetch_db_positions "b" Examples.alpha_60_beta_7_uncategorized_50
    = (Ok db_positions, flushed Examples.alpha_60_beta_7_uncategorized_50)
    ∧ (∀ symbol,
         db_positions !! symbol
         = pos_id <$> visible_row "b" symbol
             (positions (flushed Examples.alpha_60_beta_7_uncategorized_50)))
    ∧ (∀ symbol, ∃ q,
         _get_categorized_quantity db_positions symbol
           (flushed Examples.alpha_60_beta_7_uncategorized_50)
         = (Ok q, flushed Examples.alpha_60_beta_7_uncategorized_50)
         ∧ q == categorized_quantity_of
                  (visible_row "b" symbol
                     (positions (flushed Examples.alpha_60_beta_7_uncategorized_50)))).
Proof.
  apply (ledger_keyed_by_symbol_alone "b" Examples.alpha_60_beta_7_uncategorized_50).
  apply (bool_decide_unpack _). vm_compute. reflexivity.
Defined.

(** C4 on a ledger with a symbol the broker no longer reports. *)
Lemma reconcile_positions_postcondition_witness :
  ∃ s', reconcile_positions Examples.sym_100 "b" None Examples.alpha_60_and_old
        = (Ok (), s')
    ∧ (∀ p, p ∈ positions s' → pos_broker p = "b" →
         pos_symbol p ∈ dom ({["SYM" := mkBrokerPosition "SYM" 100]}
                               : gmap string BrokerPosition))
    ∧ ((∀ symbol bp,
          ({["SYM" := mkBrokerPosition "SYM" 100]} : gmap string BrokerPosition)
            !! symbol = Some bp → 0 <= bp_quantity bp) →
       (∀ p, p ∈ positions Examples.alpha_60_and_old → pos_broker p = "b" →
          0 <= pos_quantity p) →
       ∀ p, p ∈ positions s' → pos_broker p = "b" → 0 <= pos_quantity p).
Proof.
  apply (reconcile_positions_postcondition Examples.sym_100 "b" None
           (Examples.broker_reporting {["SYM" := mkBrokerPosition "SYM" 100]}));
    reflexivity.
Defined.

(** C4 as stated fails when the broker reports a short position: the grow
    pass copies the quantity -5 into the ledger. *)
Lemma reconcile_positions_copies_short_quantity :
  ∃ s' p,
    reconcile_positions Examples.sym_short_5 "b" None Examples.alpha_10 = (Ok (), s')
    ∧ p ∈ positions s' ∧ pos_broker p = "b" ∧ pos_quantity p < 0.
Proof.
  eexists _, _. split; [vm_compute; reflexivity|].
  split; [apply list_elem_of_here|]. split; reflexivity.
Qed.

(** C3: evaluated on the scenario, in either order of the two rows, the
    shrink pass leaves the uncategorized quantity at 50, although the net
    broker quantity of the scenario is 100 - 60 = 40. *)
Lemma shrink_pass_scenario :
  _calculate_net_broker_quantity 100 60 = 40
  ∧ (pos_quantity <$> find_position 2 (positions
       (Examples.shrink_pass Examples.sym_100 "b" Examples.alpha_60_uncategorized_50).2))
    = Some 50
  ∧ (pos_quantity <$> find_position 2 (positions
       (Examples.shrink_pass Examples.sym_100 "b" Examples.uncategorized_50_alpha_60).2))
    = Some 50.
Proof. split_and!; vm_compute; reflexivity. Qed.

End ReconcileFacts.

(** * Properties of balance derivation *)

Module BalanceFacts.
Import SyncWorker MonadFacts.
Local Open Scope Q_scope.

(** C1: evaluated on two option contracts at price 3 the code returns 3 * 2
    * 100 * 2 = 1200, and on two futures contracts of size 50 it returns 3 *
    2 * 50 * 2 = 600: the quantity enters the product twice, where price *
    quantity * multiplier is 600, respectively 300. *)
Lemma positions_balance_counts_quantity_twice :
  (@_calculate_positions_balance Examples.utils Examples.sym_100 "b" "alpha"
     Examples.two_options).1 = Ok 1200
  ∧ @Spec.position_value Examples.utils 3 (Examples.position 1 "alpha" "OPT" 2 None)
    == 600
  ∧ (@_calculate_positions_balance Examples.utils Examples.sym_100 "b" "alpha"
       Examples.two_futures).1 = Ok 600
  ∧ @Spec.position_value Examples.utils 3 (Examples.position 1 "alpha" "FUT" 2 None)
    == 300.
Proof. split_and!; vm_compute; reflexivity. Qed.

(** ** Sessions without pending deletions *)

Lemma filter_not_pending (ps : list Position) :
  filter (λ p, pos_id p ∉ ([] : list nat)) ps = ps.
Proof.
  induction ps as [|p ps IH]; [done|].
  rewrite filter_cons. destruct (decide (pos_id p ∉ [])) as [_|Hn].
  - by rewrite IH.
  - exfalso. apply Hn. apply not_elem_of_nil.
Qed.

Lemma flushed_clean s : clean s → flushed s = s.
Proof.
  destruct s as [ps bs pd c t]. unfold clean, flushed. simpl. intros ->.
  unfold set_pending_delete, set_positions. simpl. by rewrite filter_not_pending.
Qed.

Lemma clean_flushed s : clean (flushed s).
Proof. done. Qed.

Lemma select_balances_run (P : Balance → Prop) `{∀ b, Decision (P b)} s :
  clean s → select_balances P s = (Ok (filter P (balances s)), s).
Proof.
  intros Hs. unfold select_balances, mbind, M_bind, flush, modify, get.
  by rewrite (flushed_clean s Hs).
Qed.

Lemma select_positions_run (P : Position → Prop) `{∀ p, Decision (P p)} s :
  clean s → select_positions P s = (Ok (filter P (positions s)), s).
Proof.
  intros Hs. unfold select_positions, mbind, M_bind, flush, modify, get.
  by rewrite (flushed_clean s Hs).
Qed.

(** ** The most recent row *)

Lemma most_recent_snoc rows r :
  most_recent (rows ++ [r])
  = match most_recent rows with
    | None => Some r
    | Some b => if (bal_timestamp b <? bal_timestamp r)%Z then Some r else Some b
    end.
Proof. unfold most_recent. by rewrite foldl_app. Qed.

Lemma most_recent_elem rows b : most_recent rows = Some b → b ∈ rows.
Proof.
  revert b. induction rows as [|r rows IH] using rev_ind; intros b; [done|].
  rewrite most_recent_snoc. destruct (most_recent rows) as [b'|].
  - destruct (_ <? _)%Z; intros [= <-]; set_unfold; auto.
  - intros [= <-]. set_unfold. auto.
Qed.

(** A row that is later than all the others is the most recent one. *)
Lemma most_recent_fresh rows r :
  (∀ b, b ∈ rows → (bal_timestamp b < bal_timestamp r)%Z) →
  most_recent (rows ++ [r]) = Some r.
Proof.
  intros Hrows. rewrite most_recent_snoc.
  destruct (most_recent rows) as [b|] eqn:E; [|done].
  apply most_recent_elem, Hrows in E. by apply Z.ltb_lt in E as ->.
Qed.

(** ** The rows of a cycle among the rows of the table *)

Lemma filter_none {A} (P : A → Prop) `{∀ x, Decision (P x)} (l : list A) :
  (∀ x, x ∈ l → ¬ P x) → filter P l = [].
Proof.
  induction l as [|x l IH]; intros Hl; [done|].
  rewrite filter_cons. destruct (decide (P x)) as [Hx|_].
  - destruct (Hl x); [by left|done].
  - apply IH. intros y Hy. apply Hl. by right.
Qed.

Lemma filter_same_key broker strategy type (l : list Balance) :
  (∀ r, r ∈ l → bal_broker r = broker ∧ bal_strategy r = strategy) →
  filter (λ r, bal_broker r = broker ∧ bal_strategy r = strategy ∧ bal_type r = type) l
  = filter (λ r, bal_type r = type) l.
Proof.
  induction l as [|x l IH]; intros Hl; [done|].
  destruct (Hl x) as [Hb Hs]; [by left|].
  rewrite !filter_cons, IH by (intros r Hr; apply Hl; by right).
  destruct (decide (bal_type x = type)) as [Ht|Ht].
  - by rewrite decide_True.
  - rewrite decide_False; [done|]. by intros (_ & _ & ?).
Qed.

Lemma strategy_rows_elem broker strategy cash positions t r :
  r ∈ strategy_rows broker strategy cash positions t →
  bal_broker r = broker ∧ bal_strategy r = strategy ∧ bal_timestamp r = t.
Proof.
  unfold strategy_rows. rewrite !elem_of_cons, elem_of_nil.
  intros [Hr|[Hr|[Hr|[]]]]; by rewrite Hr.
Qed.

Lemma cycle_rows_cons broker t cash positions strategy strategies :
  cycle_rows broker t cash positions (strategy :: strategies)
  = strategy_rows broker strategy (cash strategy) (positions strategy) t
    ++ cycle_rows broker t cash positions strategies.
Proof. done. Qed.

Lemma cycle_rows_elem broker t cash positions strategies r :
  r ∈ cycle_rows broker t cash positions strategies →
  bal_broker r = broker ∧ bal_strategy r ∈ strategies ∧ bal_timestamp r = t.
Proof.
  induction strategies as [|x l IH]; [by intros ?%elem_of_nil|].
  rewrite cycle_rows_cons, elem_of_app. intros [Hr|Hr].
  - apply strategy_rows_elem in Hr as (? & <- & ?). split_and!; [done|by left|done].
  - destruct (IH Hr) as (? & ? & ?). split_and!; [done|by right|done].
Qed.

Lemma cycle_rows_ext broker t cash cash' positions strategies :
  (∀ x, x ∈ strategies → cash x = cash' x) →
  cycle_rows broker t cash positions strategies
  = cycle_rows broker t cash' positions strategies.
Proof.
  induction strategies as [|x l IH]; intros Hc; [done|].
  rewrite !cycle_rows_cons, Hc by (by left). f_equal.
  apply IH. intros y Hy. apply Hc. by right.
Qed.

(** Among the rows of a cycle, those of a strategy are its three rows. *)
Lemma filter_cycle_rows broker t cash positions strategies strategy type :
  NoDup strategies → strategy ∈ strategies →
  filter (λ r, bal_broker r = broker ∧ bal_strategy r = strategy ∧ bal_type r = type)
         (cycle_rows broker t cash positions strategies)
  = filter (λ r, bal_type r = type)
           (strategy_rows broker strategy (cash strategy) (positions strategy) t).
Proof.
  induction strategies as [|x l IH]; intros Hnd Hin; [by apply elem_of_nil in Hin|].
  apply NoDup_cons in Hnd as [Hx Hnd]. rewrite cycle_rows_cons, filter_app.
  destruct (decide (x = strategy)) as [->|Hne].
  - rewrite (filter_none _ (cycle_rows _ _ _ _ l)).
    + rewrite app_nil_r. apply filter_same_key. intros r Hr.
      by apply strategy_rows_elem in Hr as (? & ? & _).
    + intros r Hr (_ & Hs & _). apply cycle_rows_elem in Hr as (_ & Hr & _).
      congruence.
  - rewrite (filter_none _ (strategy_rows _ _ _ _ _)).
    + apply IH; [done|]. by apply elem_of_cons in Hin as [?|?].
    + intros r Hr (_ & Hs & _). apply strategy_rows_elem in Hr as (_ & Hr & _).
      congruence.
Qed.

Lemma latest_balance_app_other bs extra broker strategy type :
  (∀ r, r ∈ extra →
     ¬ (bal_broker r = broker ∧ bal_strategy r = strategy ∧ bal_type r = type)) →
  latest_balance (bs ++ extra) broker strategy type
  = latest_balance bs broker strategy type.
Proof.
  intros Hextra. unfold latest_balance.
  by rewrite filter_app, (filter_none _ extra), app_nil_r.
Qed.

(** A single new row that is later than the old rows of its broker is the
    most recent one. *)
Lemma latest_balance_fresh bs extra broker strategy type r :
  (∀ b, b ∈ bs → bal_broker b = broker → (bal_timestamp b < bal_timestamp r)%Z) →
  filter (λ r, bal_broker r = broker ∧ bal_strategy r = strategy ∧ bal_type r = type)
         extra = [r] →
  latest_balance (bs ++ extra) broker strategy type = Some (bal_balance r).
Proof.
  intros Hold Hnew. unfold latest_balance. rewrite filter_app, Hnew.
  rewrite most_recent_fresh; [done|].
  intros b Hb. apply list_elem_of_filter in Hb as [[Hb _] Hin]. by apply Hold.
Qed.

(** ** The steps of a cycle *)

Lemma get_latest_price_own w broker p :
  pos_broker p = broker →
  ∀ s, get_latest_price w broker (pos_symbol p) s = (own_price w p, s).
Proof.
  intros <- s. unfold get_latest_price, get_broker_instance, own_price.
  by destruct (_ !! _).
Qed.

Lemma commit_keeps_balances w s : balances (commit w s).2 = balances s.
Proof.
  unfold commit, mbind, M_bind, flush, log, modify, get. cbn [fst snd].
  by destruct (commit_error w _).
Qed.

Section Cycle.
Context `{SymbolUtils}.
Variable w : World.
Variable broker : string.
Variable br : Broker.
Hypothesis broker_configured :
  (list_to_map (brokers w) : gmap string Broker) !! broker = Some br.

Lemma get_latest_price_run symbol s :
  get_latest_price w broker symbol s = (get_current_price br symbol, s).
Proof.
  unfold get_latest_price, get_broker_instance. by rewrite broker_configured.
Qed.

(** The sum over the positions reads the prices and nothing else: it
    leaves the session as it is, and its value does not depend on it. *)
Lemma sum_position_values_pure rows acc :
  ∃ r, ∀ s, sum_position_values w broker rows acc s = (r, s).
Proof.
  revert acc. induction rows as [|p rows IH]; intros acc; [by eexists|].
  simpl. unfold mbind at 1, M_bind at 1. setoid_rewrite get_latest_price_run.
  destruct (get_current_price br (pos_symbol p)) as [[price|]|e];
    [| |by eexists];
    destruct (is_option (pos_symbol p)), (is_futures_symbol (pos_symbol p));
    simpl; unfold mbind, M_bind, lift; simpl;
    first [apply IH | by eexists].
Qed.

End Cycle.

Section Derivation.
Context `{SymbolUtils}.
Variable w : World.
Variable broker : string.

Lemma sum_position_values_reads rows acc :
  ∃ r, ∀ s, sum_position_values w broker rows acc s = (r, s).
Proof.
  destruct ((list_to_map (brokers w) : gmap string Broker) !! broker) as [br|] eqn:Hbr.
  - by apply (sum_position_values_pure w broker br).
  - destruct rows as [|p rows]; [by eexists|]. exists (Raise KeyError). intros s.
    cbn [sum_position_values].
    unfold mbind at 1, M_bind at 1, get_latest_price, get_broker_instance.
    by rewrite Hbr.
Qed.

(** With a price for each of them, the sum over the positions has a
    value. *)
Lemma sum_position_values_priced rows acc :
  (∀ p, p ∈ rows → pos_broker p = broker ∧ ∃ x, own_price w p = Ok (Some x)) →
  ∃ v, ∀ s, sum_position_values w broker rows acc s = (Ok v, s).
Proof.
  revert acc. induction rows as [|p rows IH]; intros acc Hprice; [by eexists|].
  destruct (Hprice p) as [Hb [x Hx]]; [by left|].
  assert (∀ q, q ∈ rows → pos_broker q = broker ∧ ∃ x, own_price w q = Ok (Some x))
    as Hrest by (intros q Hq; apply Hprice; by right).
  cbn [sum_position_values]. unfold mbind at 1, M_bind at 1.
  setoid_rewrite (get_latest_price_own w broker p Hb). rewrite Hx.
  destruct (is_option (pos_symbol p)), (is_futures_symbol (pos_symbol p));
    simpl; unfold mbind, M_bind, lift; simpl; by apply IH.
Qed.

(** The sum depends on the world through the prices of its positions. *)
Lemma sum_position_values_ext w' rows acc s :
  (∀ p, p ∈ rows → pos_broker p = broker ∧ own_price w' p = own_price w p) →
  sum_position_values w' broker rows acc s = sum_position_values w broker rows acc s.
Proof.
  revert acc. induction rows as [|p rows IH]; intros acc Hrows; [done|].
  destruct (Hrows p) as [Hb Hp]; [by left|].
  assert (∀ q, q ∈ rows → pos_broker q = broker ∧ own_price w' q = own_price w q)
    as Hrest by (intros q Hq; apply Hrows; by right).
  cbn [sum_position_values]. unfold mbind, M_bind.
  rewrite (get_latest_price_own w broker p Hb), (get_latest_price_own w' broker p Hb), Hp.
  destruct (own_price w p) as [[x|]|e]; [| |done];
    destruct (is_option (pos_symbol p)), (is_futures_symbol (pos_symbol p));
    simpl; unfold mbind, M_bind, lift; simpl; first [by apply IH | done].
Qed.

(** The positions balance of a strategy is a function of the table
    [Position] and of the prices: it leaves the session as it is. *)
Lemma calculate_positions_balance_reads s0 strategy s :
  clean s0 → clean s → positions s = positions s0 →
  _calculate_positions_balance w broker strategy s
  = ((_calculate_positions_balance w broker strategy s0).1, s).
Proof.
  intros Hs0 Hs Hps. unfold _calculate_positions_balance, mbind, M_bind.
  rewrite !select_positions_run by done. rewrite Hps.
  destruct (sum_position_values_reads
    (filter (λ p, pos_broker p = broker ∧ pos_strategy p = strategy) (positions s0))
    0) as [r Hr].
  by rewrite !Hr.
Qed.

Lemma calculate_positions_balance_priced s0 strategy :
  clean s0 →
  (∀ p, p ∈ positions s0 → pos_broker p = broker → pos_strategy p = strategy →
     ∃ x, own_price w p = Ok (Some x)) →
  ∃ v, (_calculate_positions_balance w broker strategy s0).1 = Ok v.
Proof.
  intros Hs0 Hprice. unfold _calculate_positions_balance, mbind, M_bind.
  rewrite select_positions_run by done.
  destruct (sum_position_values_priced
    (filter (λ p, pos_broker p = broker ∧ pos_strategy p = strategy) (positions s0))
    0) as [v Hv].
  { intros p Hp. apply list_elem_of_filter in Hp as [[Hb Hst] Hp]. auto. }
  exists v. by rewrite Hv.
Qed.

Lemma positions_balance_of_Ok s0 strategy v :
  (_calculate_positions_balance w broker strategy s0).1 = Ok v →
  positions_balance_of w broker s0 strategy = v.
Proof. unfold positions_balance_of. by intros ->. Qed.

Lemma positions_balance_of_ext w' s0 strategy :
  clean s0 →
  (∀ p, p ∈ positions s0 → pos_broker p = broker → pos_strategy p = strategy →
     own_price w' p = own_price w p) →
  positions_balance_of w' broker s0 strategy = positions_balance_of w broker s0 strategy.
Proof.
  intros Hs0 Hsame. unfold positions_balance_of, _calculate_positions_balance, mbind, M_bind.
  rewrite !select_positions_run by done.
  rewrite sum_position_values_ext; [done|].
  intros p Hp. apply list_elem_of_filter in Hp as [[Hb Hst] Hp]. auto.
Qed.

Lemma get_strategies_run s :
  clean s → _get_strategies broker s = (Ok (real_strategies (balances s) broker), s).
Proof.
  intros Hs. unfold _get_strategies, mbind, M_bind.
  by rewrite select_balances_run by done.
Qed.

Lemma get_cash_balance_run strategy s :
  clean s →
  _get_cash_balance broker strategy s
  = (Ok (default 0 (latest_balance (balances s) broker strategy "cash")), s).
Proof.
  intros Hs. unfold _get_cash_balance, mbind, M_bind, latest_balance.
  rewrite select_balances_run by done.
  by destruct (most_recent _).
Qed.

(** A strategy gets its three rows, or none when its positions balance
    cannot be derived. *)
Lemma update_strategy_balance_step s0 strategy t s :
  clean s0 → clean s → positions s = positions s0 →
  update_strategy_balance w broker strategy (Some t) s
  = match (_calculate_positions_balance w broker strategy s0).1 with
    | Ok v =>
        (Ok (),
         set_balances
           (balances s ++
            strategy_rows broker strategy
              (default 0 (latest_balance (balances s) broker strategy "cash")) v t) s)
    | Raise e => (Raise e, s)
    end.
Proof.
  intros Hs0 Hs Hps.
  unfold update_strategy_balance, mbind, M_bind.
  rewrite get_cash_balance_run by done.
  rewrite (calculate_positions_balance_reads s0) by done.
  destruct (_calculate_positions_balance w broker strategy s0).1 as [v|e]; [|done].
  unfold _insert_or_update_balance, add_balance, modify, set_balances. simpl.
  by rewrite <- !app_assoc.
Qed.

Lemma update_each_strategy_balance_run s0 t strategies s :
  clean s0 → clean s → positions s = positions s0 →
  (∀ strategy, strategy ∈ strategies →
     ∃ v, (_calculate_positions_balance w broker strategy s0).1 = Ok v) →
  NoDup strategies →
  _update_each_strategy_balance w broker strategies (Some t) s
  = (Ok (),
     set_balances
       (balances s ++
        cycle_rows broker t
          (λ strategy, default 0 (latest_balance (balances s) broker strategy "cash"))
          (positions_balance_of w broker s0) strategies) s).
Proof.
  intros Hs0 Hs Hps Hderived Hnd. unfold _update_each_strategy_balance.
  revert s Hs Hps. induction strategies as [|x l IH]; intros s Hs Hps.
  { simpl. unfold cycle_rows. simpl. rewrite app_nil_r. by destruct s. }
  apply NoDup_cons in Hnd as [Hx Hnd].
  destruct (Hderived x) as [v Hv]; [by left|].
  cbn [for_each]. unfold mbind at 1, M_bind at 1.
  rewrite (update_strategy_balance_step s0), Hv by done.
  rewrite <- (positions_balance_of_Ok s0 x v Hv).
  rewrite IH; [|intros y Hy; apply Hderived; by right|done..].
  rewrite cycle_rows_cons. unfold set_balances. cbn [balances positions
    pending_delete commits trace]. rewrite <- app_assoc.
  do 4 f_equal. apply cycle_rows_ext. intros y Hy.
  rewrite latest_balance_app_other; [done|].
  intros r Hr (_ & Hstrategy & _).
  apply strategy_rows_elem in Hr as (_ & Hr & _). congruence.
Qed.

(** The loop over the strategies ends normally only if the positions
    balance of each of them was derived. *)
Lemma update_each_strategy_balance_completes s0 t strategies s s' :
  clean s0 → clean s → positions s = positions s0 →
  _update_each_strategy_balance w broker strategies (Some t) s = (Ok (), s') →
  ∀ strategy, strategy ∈ strategies →
    ∃ v, (_calculate_positions_balance w broker strategy s0).1 = Ok v.
Proof.
  intros Hs0. unfold _update_each_strategy_balance. revert s.
  induction strategies as [|x l IH]; intros s Hs Hps Hrun strategy Hin.
  { by apply elem_of_nil in Hin. }
  cbn [for_each] in Hrun. unfold mbind at 1, M_bind at 1 in Hrun.
  rewrite (update_strategy_balance_step s0) in Hrun by done.
  destruct (_calculate_positions_balance w broker x s0).1 as [v|e] eqn:Hx; [|done].
  apply elem_of_cons in Hin as [->|Hin]; [by exists v|].
  refine (IH _ _ _ Hrun strategy Hin); done.
Qed.

Lemma sum_each_strategy_balance_step s0 x l acc s :
  clean s0 → clean s → positions s = positions s0 →
  _sum_each_strategy_balance w broker (x :: l) acc s
  = match (_calculate_positions_balance w broker x s0).1 with
    | Ok v =>
        _sum_each_strategy_balance w broker l
          (acc + (default 0 (latest_balance (balances s) broker x "cash") + v)) s
    | Raise e => (Raise e, s)
    end.
Proof.
  intros Hs0 Hs Hps. cbn [_sum_each_strategy_balance].
  unfold mbind at 1, M_bind at 1. rewrite get_cash_balance_run by done.
  unfold mbind at 1, M_bind at 1.
  rewrite (calculate_positions_balance_reads s0) by done.
  by destruct (_calculate_positions_balance w broker x s0).1.
Qed.

Lemma sum_each_strategy_balance_run s0 strategies acc s :
  clean s0 → clean s → positions s = positions s0 →
  (∀ strategy, strategy ∈ strategies →
     ∃ v, (_calculate_positions_balance w broker strategy s0).1 = Ok v) →
  _sum_each_strategy_balance w broker strategies acc s
  = (Ok (foldl (λ total strategy,
                  total + (default 0 (latest_balance (balances s) broker strategy "cash")
                           + positions_balance_of w broker s0 strategy))
               acc strategies), s).
Proof.
  intros Hs0 Hs Hps. revert acc.
  induction strategies as [|x l IH]; intros acc Hderived; [done|].
  destruct (Hderived x) as [v Hv]; [by left|].
  rewrite (sum_each_strategy_balance_step s0), Hv by done.
  rewrite <- (positions_balance_of_Ok s0 x v Hv).
  apply IH. intros y Hy. apply Hderived. by right.
Qed.

Lemma sum_each_strategy_balance_completes s0 strategies acc s total s' :
  clean s0 → clean s → positions s = positions s0 →
  _sum_each_strategy_balance w broker strategies acc s = (Ok total, s') →
  ∀ strategy, strategy ∈ strategies →
    ∃ v, (_calculate_positions_balance w broker strategy s0).1 = Ok v.
Proof.
  intros Hs0 Hs Hps. revert acc.
  induction strategies as [|x l IH]; intros acc Hrun strategy Hin.
  { by apply elem_of_nil in Hin. }
  rewrite (sum_each_strategy_balance_step s0) in Hrun by done.
  destruct (_calculate_positions_balance w broker x s0).1 as [v|e] eqn:Hx; [|done].
  apply elem_of_cons in Hin as [->|Hin]; [by exists v|].
  by apply (IH _ Hrun).
Qed.

(** The row of the uncategorized bucket. *)
Lemma update_uncategorized_balances_run s0 t s br total_value :
  clean s0 → clean s → positions s = positions s0 →
  (list_to_map (brokers w) : gmap string Broker) !! broker = Some br →
  get_account_info br = Ok total_value →
  (∀ strategy, strategy ∈ real_strategies (balances s) broker →
     ∃ v, (_calculate_positions_balance w broker strategy s0).1 = Ok v) →
  update_uncategorized_balances w broker t s
  = (Ok (),
     set_balances
       (balances s ++
        [mkBalance broker "uncategorized" "cash"
           (py_max 0
              (total_value
               - foldl (λ total strategy,
                          total
                          + (default 0
                               (latest_balance (balances s) broker strategy "cash")
                             + positions_balance_of w broker s0 strategy))
                       0 (real_strategies (balances s) broker))) t]) s).
Proof.
  intros Hs0 Hs Hps Hbr Hacc Hderived.
  unfold update_uncategorized_balances, _get_account_balance_info,
    _sum_all_strategy_balances, mbind, M_bind.
  assert (broker_account_info w broker s = (Ok total_value, s)) as ->.
  { unfold broker_account_info, get_broker_instance.
    rewrite Hbr. unfold mbind, M_bind, mret, M_ret, lift.
    cbv beta iota. by rewrite Hacc. }
  rewrite get_strategies_run by done.
  by rewrite (sum_each_strategy_balance_run s0) by done.
Qed.

Lemma update_uncategorized_balances_completes s0 t s s' :
  clean s0 → clean s → positions s = positions s0 →
  update_uncategorized_balances w broker t s = (Ok (), s') →
  ∃ br total_value,
    (list_to_map (brokers w) : gmap string Broker) !! broker = Some br
    ∧ get_account_info br = Ok total_value
    ∧ ∀ strategy, strategy ∈ real_strategies (balances s) broker →
        ∃ v, (_calculate_positions_balance w broker strategy s0).1 = Ok v.
Proof.
  intros Hs0 Hs Hps.
  unfold update_uncategorized_balances, _get_account_balance_info,
    _sum_all_strategy_balances, broker_account_info, get_broker_instance.
  destruct ((list_to_map (brokers w) : gmap string Broker) !! broker) as [br|];
    [|done].
  unfold mbind, M_bind, mret, M_ret, lift. cbv beta iota.
  destruct (get_account_info br) as [total_value|e] eqn:Hacc; [|done].
  rewrite get_strategies_run by done.
  destruct (_sum_each_strategy_balance w broker
              (real_strategies (balances s) broker) 0 s) as [[total|e] s1] eqn:Hsum;
    [|done].
  intros _. exists br, total_value. split_and!; [done..|].
  by apply (sum_each_strategy_balance_completes s0 _ 0 s total s1).
Qed.

End Derivation.

Lemma foldl_sum {A} (f : A → Q) (l : list A) (acc : Q) :
  foldl (λ total x, total + f x) acc l == acc + foldr (λ x total, f x + total) 0 l.
Proof.
  revert acc. induction l as [|x l IH]; intros acc; simpl; [ring|].
  rewrite IH. ring.
Qed.

Lemma foldr_sum_ext {A} (f g : A → Q) (l : list A) :
  (∀ x, x ∈ l → f x = g x) →
  foldr (λ x total, f x + total) 0 l = foldr (λ x total, g x + total) 0 l.
Proof.
  induction l as [|x l IH]; intros Hfg; [done|].
  simpl. rewrite Hfg by (by left). f_equal. apply IH. intros y Hy. apply Hfg. by right.
Qed.

Lemma foldl_sum_ext {A} (f g : A → Q) (l : list A) (acc : Q) :
  (∀ x, x ∈ l → f x = g x) →
  foldl (λ total x, total + f x) acc l = foldl (λ total x, total + g x) acc l.
Proof.
  revert acc. induction l as [|x l IH]; intros acc Hfg; [done|].
  simpl. rewrite Hfg by (by left). apply IH. intros y Hy. apply Hfg. by right.
Qed.

Lemma Qeq_of_eq (a b : Q) : a = b → a == b.
Proof. by intros ->. Qed.

Lemma py_max_0_proper a b : a == b → py_max 0 a == py_max 0 b.
Proof.
  intros Hab. unfold py_max.
  destruct (Qlt_le_dec 0 a), (Qlt_le_dec 0 b); lra.
Qed.

Lemma py_max_0_plug total sum : sum <= total → sum + py_max 0 (total - sum) == total.
Proof. intros Hle. unfold py_max. destruct (Qlt_le_dec 0 (total - sum)); lra. Qed.

Lemma real_strategies_elem bs broker strategy :
  strategy ∈ real_strategies bs broker ↔
  ∃ r, r ∈ bs ∧ bal_broker r = broker ∧ bal_strategy r = strategy
       ∧ strategy ≠ "uncategorized".
Proof.
  unfold real_strategies. rewrite elem_of_distinct, list_elem_of_fmap. split.
  - intros (r & -> & Hr). apply list_elem_of_filter in Hr as [[? ?] ?]. eauto.
  - intros (r & Hr & Hb & <- & Hne). exists r. split; [done|].
    by apply list_elem_of_filter.
Qed.

Lemma filter_type_cash broker strategy cash positions t :
  filter (λ r, bal_type r = "cash") (strategy_rows broker strategy cash positions t)
  = [mkBalance broker strategy "cash" cash t].
Proof. reflexivity. Qed.

Lemma filter_type_positions broker strategy cash positions t :
  filter (λ r, bal_type r = "positions")
         (strategy_rows broker strategy cash positions t)
  = [mkBalance broker strategy "positions" positions t].
Proof. reflexivity. Qed.

Lemma filter_type_total broker strategy cash positions t :
  filter (λ r, bal_type r = "total") (strategy_rows broker strategy cash positions t)
  = [mkBalance broker strategy "total" (cash + positions) t].
Proof. reflexivity. Qed.

(** What the table holds after a cycle: the three rows of every strategy
    and the row of the uncategorized bucket are the most recent ones. *)
Section After.
Variable broker : string.
Variable t : Z.
Variable bs0 : list Balance.
Variables cash positions : string → Q.
Variable u : Q.
Hypothesis fresh :
  ∀ r, r ∈ bs0 → bal_broker r = broker → (bal_timestamp r < t)%Z.

Let strategies := real_strategies bs0 broker.
Let new := cycle_rows broker t cash positions strategies.
Let urow := mkBalance broker "uncategorized" "cash" u t.

Lemma strategies_NoDup : NoDup strategies.
Proof. apply NoDup_distinct. Qed.

Lemma strategies_real strategy : strategy ∈ strategies → strategy ≠ "uncategorized".
Proof. by intros (r & _ & _ & _ & ?)%real_strategies_elem. Qed.

Lemma real_strategies_after extra :
  (∀ r, r ∈ extra → bal_strategy r ∈ strategies ∨ bal_strategy r = "uncategorized") →
  ∀ strategy, strategy ∈ real_strategies (bs0 ++ extra) broker →
              strategy ∈ strategies.
Proof.
  intros Hextra strategy (r & Hr & Hb & Hs & Hne)%real_strategies_elem.
  apply elem_of_app in Hr as [Hr|Hr].
  - apply real_strategies_elem. eauto.
  - destruct (Hextra r Hr); congruence.
Qed.

Lemma new_rows_strategies r :
  r ∈ new ++ [urow] → bal_strategy r ∈ strategies ∨ bal_strategy r = "uncategorized".
Proof.
  rewrite elem_of_app, list_elem_of_singleton. intros [Hr| ->]; [left|by right].
  by apply cycle_rows_elem in Hr as (_ & ? & _).
Qed.

Lemma latest_after extra strategy type row :
  strategy ∈ strategies →
  (∀ r, r ∈ extra → bal_strategy r = "uncategorized") →
  filter (λ r, bal_type r = type)
         (strategy_rows broker strategy (cash strategy) (positions strategy) t)
  = [row] →
  bal_timestamp row = t →
  latest_balance (bs0 ++ new ++ extra) broker strategy type = Some (bal_balance row).
Proof.
  intros Hin Hextra Hrow Ht. apply latest_balance_fresh.
  - intros r Hr Hb. rewrite Ht. by apply fresh.
  - rewrite filter_app, (filter_none _ extra), app_nil_r.
    + unfold new. by rewrite filter_cycle_rows by (done || apply strategies_NoDup).
    + intros r Hr (_ & Hs & _). apply (strategies_real strategy Hin).
      rewrite <- Hs. by apply Hextra.
Qed.

Lemma latest_uncategorized_cash :
  latest_balance (bs0 ++ new ++ [urow]) broker "uncategorized" "cash" = Some u.
Proof.
  apply (latest_balance_fresh _ _ _ _ _ urow); [by apply fresh|].
  rewrite filter_app, (filter_none _ new).
  - simpl. rewrite filter_cons, filter_nil. by rewrite decide_True.
  - intros r Hr (_ & Hs & _). apply cycle_rows_elem in Hr as (_ & Hr & _).
    apply strategies_real in Hr. congruence.
Qed.

Lemma latest_uncategorized_other type :
  type ≠ "cash" →
  latest_balance (bs0 ++ new ++ [urow]) broker "uncategorized" type
  = latest_balance bs0 broker "uncategorized" type.
Proof.
  intros Htype. apply latest_balance_app_other.
  intros r Hr (_ & Hs & Ht). apply elem_of_app in Hr as [Hr|Hr].
  - apply cycle_rows_elem in Hr as (_ & Hr & _). apply strategies_real in Hr.
    congruence.
  - apply list_elem_of_singleton in Hr as ->. by apply Htype.
Qed.

End After.

Section CycleTheorem.
Context `{SymbolUtils}.
Variable w : World.
Variable broker : string.
Variable t : Z.
Variable s : Session.
Hypothesis fresh :
  ∀ r, r ∈ balances s → bal_broker r = broker → (bal_timestamp r < t)%Z.

Let s0 := flushed s.
Let cash := λ strategy, default 0 (latest_balance (balances s) broker strategy "cash").
Let strategies := real_strategies (balances s) broker.
Let new := cycle_rows broker t cash (positions_balance_of w broker s0) strategies.
Let categorized_balance_sum :=
  foldl (λ total strategy,
           total + (default 0 (latest_balance (balances s ++ new) broker strategy "cash")
                    + positions_balance_of (later w) broker s0 strategy))
        0 (real_strategies (balances s ++ new) broker).
Let s2 := set_balances (balances s0 ++ new) s0.

Lemma real_strategies_uncategorized_row bs x y z :
  real_strategies (bs ++ [mkBalance broker "uncategorized" x y z]) broker
  = real_strategies bs broker.
Proof.
  unfold real_strategies. rewrite filter_app, filter_cons, filter_nil.
  rewrite decide_False by (by intros [_ ?]). by rewrite app_nil_r.
Qed.

Lemma real_strategies_new :
  ∀ strategy, strategy ∈ real_strategies (balances s ++ new) broker →
              strategy ∈ strategies.
Proof.
  apply real_strategies_after. intros r Hr. left.
  by apply cycle_rows_elem in Hr as (_ & ? & _).
Qed.

(** The cycle in steps: the rows of the strategies from the first round of
    prices, the row of the uncategorized bucket from the account value and
    the second round, the commit. *)
Lemma update_all_strategy_balances_steps :
  update_all_strategy_balances w broker t s
  = match _update_each_strategy_balance w broker strategies (Some t) s0 with
    | (Ok _, s1) =>
        match update_uncategorized_balances (later w) broker t s1 with
        | (Ok _, s3) =>
            match commit w s3 with
            | (Ok _, s4) => (Ok (), set_trace (trace s4 ++ [LogBalancesUpdated broker]) s4)
            | (Raise e, s4) => (Raise e, s4)
            end
        | (Raise e, s3) => (Raise e, s3)
        end
    | (Raise e, s1) => (Raise e, s1)
    end.
Proof.
  unfold update_all_strategy_balances. unfold mbind at 1, M_bind at 1.
  change (_get_strategies broker s) with (Ok strategies, s0). cbv beta iota.
  unfold mbind at 1, M_bind at 1.
  destruct (_update_each_strategy_balance w broker strategies (Some t) s0)
    as [[[]|e] s1]; [|done].
  unfold mbind at 1, M_bind at 1.
  destruct (update_uncategorized_balances (later w) broker t s1) as [[[]|e] s3];
    [|done].
  unfold mbind at 1, M_bind at 1.
  by destruct (commit w s3) as [[[]|e] s4].
Qed.

(** A cycle completes when the broker reports its account value, quotes
    in both rounds a price for every position of a strategy that has
    balance rows, and the commit succeeds. *)
Lemma update_all_strategy_balances_completes br total_value :
  (list_to_map (brokers_again w) : gmap string Broker) !! broker = Some br →
  get_account_info br = Ok total_value →
  (∀ p, p ∈ positions s0 → pos_broker p = broker → pos_strategy p ∈ strategies →
     (∃ x, own_price w p = Ok (Some x)) ∧ (∃ x, own_price (later w) p = Ok (Some x))) →
  commit_error w (commits s) = None →
  ∃ s', update_all_strategy_balances w broker t s = (Ok (), s').
Proof.
  intros Hbr Hacc Hprices Hcommit.
  assert (clean s0) as Hs0 by done.
  assert (∀ strategy, strategy ∈ strategies →
            ∃ v, (_calculate_positions_balance w broker strategy s0).1 = Ok v)
    as Hfirst.
  { intros strategy Hin. apply calculate_positions_balance_priced; [done|].
    intros p Hp Hb Hst. apply Hprices; [done..|by rewrite Hst]. }
  assert (∀ strategy, strategy ∈ real_strategies (balances s ++ new) broker →
            ∃ v, (_calculate_positions_balance (later w) broker strategy s0).1 = Ok v)
    as Hsecond.
  { intros strategy Hin%real_strategies_new.
    apply calculate_positions_balance_priced; [done|].
    intros p Hp Hb Hst. apply Hprices; [done..|by rewrite Hst]. }
  rewrite update_all_strategy_balances_steps.
  rewrite (update_each_strategy_balance_run w broker s0 t strategies s0 Hs0 Hs0
             eq_refl Hfirst (NoDup_distinct _)).
  match goal with
  | |- context [update_uncategorized_balances (later w) broker t ?x] => change x with s2
  end.
  rewrite (update_uncategorized_balances_run (later w) broker s0 t s2 br total_value
             Hs0 (eq_refl : clean s2) eq_refl Hbr Hacc Hsecond).
  match goal with
  | |- context [commit w ?x] =>
      destruct (ReconcileFacts.commit_run w x) as (s4 & -> & _); [done|]
  end.
  by eexists.
Qed.

(** The rows that a cycle which completes has appended. *)
Lemma update_all_strategy_balances_completed s' :
  update_all_strategy_balances w broker t s = (Ok (), s') →
  ∃ br total_value,
    (list_to_map (brokers_again w) : gmap string Broker) !! broker = Some br
    ∧ get_account_info br = Ok total_value
    ∧ balances s'
      = balances s ++ new
        ++ [mkBalance broker "uncategorized" "cash"
              (py_max 0 (total_value - categorized_balance_sum)) t].
Proof.
  assert (clean s0) as Hs0 by done.
  rewrite update_all_strategy_balances_steps.
  destruct (_update_each_strategy_balance w broker strategies (Some t) s0)
    as [[[]|e] s1] eqn:Heach; [|done].
  pose proof (update_each_strategy_balance_completes w broker s0 t strategies s0 s1
                Hs0 Hs0 eq_refl Heach) as Hfirst.
  rewrite (update_each_strategy_balance_run w broker s0 t strategies s0 Hs0 Hs0
             eq_refl Hfirst (NoDup_distinct _)) in Heach.
  injection Heach as <-.
  match goal with
  | |- context [update_uncategorized_balances (later w) broker t ?x] => change x with s2
  end.
  destruct (update_uncategorized_balances (later w) broker t s2)
    as [[[]|e] s3] eqn:Hunc; [|done].
  destruct (update_uncategorized_balances_completes (later w) broker s0 t s2 s3
              Hs0 (eq_refl : clean s2) eq_refl Hunc)
    as (br & total_value & Hbr & Hacc & Hsecond).
  rewrite (update_uncategorized_balances_run (later w) broker s0 t s2 br total_value
             Hs0 (eq_refl : clean s2) eq_refl Hbr Hacc Hsecond) in Hunc.
  injection Hunc as <-.
  match goal with
  | |- context [commit w ?x] =>
      pose proof (commit_keeps_balances w x) as Hbal;
      destruct (commit w x) as [[[]|e] s4]; [|done]
  end.
  intros [= <-]. exists br, total_value. split_and!; [done..|].
  cbn [snd] in Hbal. cbn [balances set_trace]. rewrite Hbal.
  cbn [balances set_balances]. by rewrite <- app_assoc.
Qed.

(** C2, as amended: a balance-derivation cycle completes when the broker
    reports its account value, quotes a price, in both of the cycle's rounds
    of price fetches, for every position of a strategy that has balance
    rows, and the commit succeeds.  After a cycle that completes, with a
    timestamp later than the broker's existing rows: for every strategy
    other than "uncategorized" that has balance rows the most recent [total]
    row equals the most recent [cash] row plus the most recent [positions]
    row; for "uncategorized" the cycle writes a [cash] row only (its [total]
    and [positions] rows are as before), of value max(0, accountValue -
    sum'), where sum' adds, over the other strategies, the most recent
    [cash] row and the positions balance derived from the second round of
    prices; when the second round yields the prices of the first, sum' is,
    in exact arithmetic, the sum of the most recent [total] rows of the
    other strategies, and that sum plus the uncategorized [cash] row equals
    the broker-reported account value whenever the account value is at
    least the sum. *)
Theorem balance_cycle_books :
  (∀ br total_value,
     (list_to_map (brokers_again w) : gmap string Broker) !! broker = Some br →
     get_account_info br = Ok total_value →
     (∀ p, p ∈ positions (flushed s) → pos_broker p = broker →
           pos_strategy p ∈ real_strategies (balances s) broker →
           (∃ x, own_price w p = Ok (Some x))
           ∧ (∃ x, own_price (later w) p = Ok (Some x))) →
     commit_error w (commits s) = None →
     ∃ s', update_all_strategy_balances w broker t s = (Ok (), s'))
  ∧ ∀ s', update_all_strategy_balances w broker t s = (Ok (), s') →
      (∀ strategy, strategy ∈ real_strategies (balances s') broker →
         ∃ c p,
           latest_balance (balances s') broker strategy "cash" = Some c
           ∧ latest_balance (balances s') broker strategy "positions" = Some p
           ∧ latest_balance (balances s') broker strategy "total" = Some (c + p))
      ∧ latest_balance (balances s') broker "uncategorized" "total"
        = latest_balance (balances s) broker "uncategorized" "total"
      ∧ latest_balance (balances s') broker "uncategorized" "positions"
        = latest_balance (balances s) broker "uncategorized" "positions"
      ∧ ∃ br total_value uncategorized,
          (list_to_map (brokers_again w) : gmap string Broker) !! broker = Some br
          ∧ get_account_info br = Ok total_value
          ∧ latest_balance (balances s') broker "uncategorized" "cash"
            = Some uncategorized
          ∧ uncategorized
            = py_max 0 (total_value
                        - sum_cash_and_positions (later w) (balances s') broker
                            (flushed s) (real_strategies (balances s') broker))
          ∧ ((∀ p, p ∈ positions (flushed s) → pos_broker p = broker →
                   pos_strategy p ∈ real_strategies (balances s) broker →
                   own_price (later w) p = own_price w p) →
             uncategorized
             == py_max 0 (total_value
                          - sum_latest_totals (balances s') broker
                              (real_strategies (balances s') broker))
             ∧ (sum_latest_totals (balances s') broker
                  (real_strategies (balances s') broker) <= total_value →
                sum_latest_totals (balances s') broker
                  (real_strategies (balances s') broker) + uncategorized
                == total_value)).
Proof.
  split; [apply update_all_strategy_balances_completes|].
  intros s' Hrun.
  destruct (update_all_strategy_balances_completed s' Hrun)
    as (br & total_value & Hbr & Hacc & Hbal).
  rewrite Hbal. clear Hrun Hbal.
  set (u := py_max 0 (total_value - categorized_balance_sum)).
  set (P := positions_balance_of w broker s0).
  set (urow := mkBalance broker "uncategorized" "cash" u t).
  assert (∀ strategy, strategy ∈ strategies →
            latest_balance (balances s ++ new ++ [urow]) broker strategy "cash"
            = Some (cash strategy)
            ∧ latest_balance (balances s ++ new ++ [urow]) broker strategy "positions"
              = Some (P strategy)
            ∧ latest_balance (balances s ++ new ++ [urow]) broker strategy "total"
              = Some (cash strategy + P strategy)) as Hlatest.
  { intros strategy Hin. split_and!.
    - apply (latest_after broker t (balances s) cash P fresh [urow] strategy "cash"
               (mkBalance broker strategy "cash" (cash strategy) t));
        [done| |done..].
      by intros r ->%list_elem_of_singleton.
    - apply (latest_after broker t (balances s) cash P fresh [urow] strategy
               "positions" (mkBalance broker strategy "positions" (P strategy) t));
        [done| |done..].
      by intros r ->%list_elem_of_singleton.
    - apply (latest_after broker t (balances s) cash P fresh [urow] strategy "total"
               (mkBalance broker strategy "total" (cash strategy + P strategy) t));
        [done| |done..].
      by intros r ->%list_elem_of_singleton. }
  assert (∀ strategy,
            strategy ∈ real_strategies (balances s ++ new ++ [urow]) broker →
            strategy ∈ strategies) as Hreal.
  { apply real_strategies_after. apply new_rows_strategies. }
  assert (real_strategies (balances s ++ new ++ [urow]) broker
          = real_strategies (balances s ++ new) broker) as Hsame.
  { rewrite app_assoc. apply real_strategies_uncategorized_row. }
  assert (∀ strategy, strategy ∈ strategies →
            latest_balance (balances s ++ new) broker strategy "cash"
            = Some (cash strategy)) as Hcash.
  { intros strategy Hin. rewrite <- (app_nil_r new).
    apply (latest_after broker t (balances s) cash P fresh [] strategy "cash"
             (mkBalance broker strategy "cash" (cash strategy) t));
      [done| |done..].
    by intros r ?%elem_of_nil. }
  assert (categorized_balance_sum
          = sum_cash_and_positions (later w) (balances s ++ new ++ [urow]) broker s0
              (real_strategies (balances s ++ new ++ [urow]) broker)) as Hsum.
  { unfold categorized_balance_sum, sum_cash_and_positions.
    rewrite Hsame. apply foldl_sum_ext.
    intros strategy Hin. rewrite <- Hsame in Hin. apply Hreal in Hin.
    destruct (Hlatest strategy Hin) as (-> & _ & _). by rewrite Hcash. }
  split_and!.
  - intros strategy Hin%Hreal.
    destruct (Hlatest strategy Hin) as (? & ? & ?). eauto.
  - by apply latest_uncategorized_other.
  - by apply latest_uncategorized_other.
  - exists br, total_value, u. split_and!; [done..| | |].
    + by apply latest_uncategorized_cash.
    + unfold u. by rewrite Hsum.
    + intros Hstable.
      assert (categorized_balance_sum
              == sum_latest_totals (balances s ++ new ++ [urow]) broker
                   (real_strategies (balances s ++ new ++ [urow]) broker)) as Htotals.
      { rewrite Hsum. unfold sum_cash_and_positions, sum_latest_totals.
        rewrite foldl_sum, Qplus_0_l. apply Qeq_of_eq, foldr_sum_ext.
        intros strategy Hin%Hreal.
        destruct (Hlatest strategy Hin) as (-> & _ & ->). cbn [default]. unfold P.
        rewrite (positions_balance_of_ext w broker (later w) s0 strategy); [done..|].
        intros p Hp Hb Hst. apply Hstable; [done..|by rewrite Hst]. }
      split.
      * unfold u. apply py_max_0_proper. by rewrite Htotals.
      * intros Hle. unfold u. rewrite <- Htotals in *. by apply py_max_0_plug.
Qed.

End CycleTheorem.

(** C2 on a ledger where "alpha" has cash 200 and ten shares at price 3,
    the account being worth 5000: the cycle completes, and the rows add up
    to the account value. *)
Lemma balance_cycle_books_witness :
  ∃ s' uncategorized,
    @update_all_strategy_balances Examples.utils Examples.sym_100 "b" 2
      Examples.alpha_cash_200 = (Ok (), s')
    ∧ latest_balance (balances s') "b" "alpha" "total" = Some 230
    ∧ latest_balance (balances s') "b" "uncategorized" "cash" = Some uncategorized
    ∧ sum_latest_totals (balances s') "b" (real_strategies (balances s') "b")
      + uncategorized == 5000.
Proof.
  destruct (balance_cycle_books (H:=Examples.utils) Examples.sym_100 "b" 2
              Examples.alpha_cash_200) as [Hcompletes Hbooks].
  { intros r Hr _. apply list_elem_of_singleton in Hr as ->. reflexivity. }
  destruct (Hcompletes
              (Examples.broker_reporting {["SYM" := mkBrokerPosition "SYM" 100]})
              5000 eq_refl eq_refl) as [s' Hrun].
  { intros p _ Hb _. unfold own_price. rewrite Hb. split; by exists 3. }
  { reflexivity. }
  destruct (Hbooks s' Hrun)
    as (_ & _ & _ & br & total_value & uncategorized & Hbr & Hacc & Hcash & _ & Hstable).
  injection Hbr as <-. injection Hacc as <-.
  destruct Hstable as [_ Hsum]; [reflexivity|].
  exists s', uncategorized. split_and!; [done| |done|].
  - vm_compute in Hrun. injection Hrun as <-. reflexivity.
  - apply Hsum. vm_compute in Hrun. injection Hrun as <-. vm_compute. discriminate.
Defined.

(** C2 as stated fails for the uncategorized bucket and for the sum: with
    cash 6000 and positions worth 30 under "alpha" and an account worth
    5000, the cycle writes for "uncategorized" a [cash] row of 0 and no
    [total] or [positions] row, and the most recent [total] rows add up to
    6030, not to 5000. *)
Lemma balance_cycle_uncategorized_has_no_total :
  ∃ s',
    @update_all_strategy_balances Examples.utils Examples.sym_100 "b" 2
      Examples.alpha_cash_6000 = (Ok (), s')
    ∧ distinct (bal_strategy <$> filter (λ r, bal_broker r = "b") (balances s'))
      = ["alpha"; "uncategorized"]
    ∧ latest_balance (balances s') "b" "uncategorized" "cash" = Some 0
    ∧ latest_balance (balances s') "b" "uncategorized" "positions" = None
    ∧ latest_balance (balances s') "b" "uncategorized" "total" = None
    ∧ sum_latest_totals (balances s') "b" ["alpha"; "uncategorized"] == 6030
    ∧ get_account_info
        (Examples.broker_reporting {["SYM" := mkBrokerPosition "SYM" 100]}) = Ok 5000
    ∧ ¬ sum_latest_totals (balances s') "b" ["alpha"; "uncategorized"] == 5000.
Proof.
  eexists. split; [vm_compute; reflexivity|].
  split_and!; try (vm_compute; reflexivity). vm_compute. discriminate.
Qed.

(** When the price of the ten shares of "alpha" moves from 3 to 4 between
    the two rounds of a cycle, the rows of "alpha" are derived from 3 (total
    230) and the row of the uncategorized bucket from 4 (5000 - 240 = 4760):
    the rows add up to 4990, for an account worth 5000. *)
Lemma balance_cycle_with_moving_prices :
  ∃ s',
    @update_all_strategy_balances Examples.utils Examples.price_moves "b" 2
      Examples.alpha_cash_200 = (Ok (), s')
    ∧ latest_balance (balances s') "b" "alpha" "total" = Some 230
    ∧ latest_balance (balances s') "b" "uncategorized" "cash" = Some 4760
    ∧ ¬ 230 + 4760 == 5000.
Proof.
  eexists. split; [vm_compute; reflexivity|].
  split_and!; try (vm_compute; reflexivity). vm_compute. discriminate.
Qed.

End BalanceFacts.

(** * Properties of valuation *)

Module ValuationFacts.
Import SyncWorker MonadFacts.
Local Open Scope Q_scope.

Lemma find_position_write id0 id g (ps : list Position) :
  (∀ p, pos_id (g p) = pos_id p) →
  find_position id0 (write_to id g <$> ps)
  = if decide (id0 = id) then g <$> find_position id0 ps else find_position id0 ps.
Proof.
  intros Hg. unfold find_position.
  induction ps as [|p ps IH]; [by destruct (decide (id0 = id))|].
  rewrite fmap_cons, !filter_cons.
  assert (pos_id (write_to id g p) = pos_id p) as Hid.
  { unfold write_to. by destruct (decide (pos_id p = id)). }
  rewrite Hid. destruct (decide (pos_id p = id0)) as [<-|Hne]; simpl.
  - unfold write_to. by destruct (decide (pos_id p = id)).
  - apply IH.
Qed.

Lemma write_to_compose id g1 g2 (ps : list Position) :
  (∀ p, pos_id (g1 p) = pos_id p) →
  write_to id g2 <$> (write_to id g1 <$> ps) = write_to id (g2 ∘ g1) <$> ps.
Proof.
  intros Hg. rewrite <- list_fmap_compose. apply list_fmap_ext.
  intros _ p _. unfold write_to. simpl.
  destruct (decide (pos_id p = id)) as [Hp|Hp].
  - by rewrite decide_True by (by rewrite Hg).
  - by rewrite decide_False.
Qed.

Lemma write_to_id id (ps : list Position) : write_to id (λ p, p) <$> ps = ps.
Proof.
  rewrite <- (list_fmap_id ps) at 2. apply list_fmap_ext.
  intros _ p _. unfold write_to. by destruct (decide _).
Qed.

Lemma keeps_refl id s : keeps id s s.
Proof.
  split; [done|]. exists (λ p, p). split; [by rewrite write_to_id|done].
Qed.

Lemma keeps_trans id s1 s2 s3 : keeps id s1 s2 → keeps id s2 s3 → keeps id s1 s3.
Proof.
  intros [Hc1 (g1 & Hp1 & Hg1)] [Hc2 (g2 & Hp2 & Hg2)]. split; [congruence|].
  exists (g2 ∘ g1). split.
  - rewrite Hp2, Hp1. apply write_to_compose. intros p. by destruct (Hg1 p) as [[? _] _].
  - intros r. simpl. destruct (Hg1 r) as (Hr1 & Hl1 & Hu1).
    destruct (Hg2 (g1 r)) as (Hr2 & Hl2 & Hu2).
    split_and!; [by eapply ReconcileFacts.same_row_trans|congruence..].
Qed.

Lemma keeps_log id e s : keeps id s (set_trace (trace s ++ [e]) s).
Proof.
  split; [done|]. exists (λ p, p). split; [by rewrite write_to_id|done].
Qed.

Lemma keeps_write id g s :
  (∀ r, same_row r (g r) ∧ pos_latest_price (g r) = pos_latest_price r
        ∧ pos_last_updated (g r) = pos_last_updated r) →
  keeps id s (update_obj id g s).2.
Proof. intros Hg. split; [done|]. by exists g. Qed.

Section Valuation.
Context `{SymbolUtils}.
Variable w : World.

Lemma volatility_keeps id underlying_symbol s :
  keeps id s (_update_volatility_and_underlying_price w id underlying_symbol s).2.
Proof.
  unfold _update_volatility_and_underlying_price, obj, get_latest_price,
    get_broker_instance, mbind, M_bind, get.
  destruct (find_position id (positions s)) as [pos|]; [|apply keeps_refl].
  cbv beta iota. unfold mret at 1, M_ret at 1.
  destruct (list_to_map (brokers w) !! pos_broker pos) as [br|];
    [|apply keeps_refl].
  unfold mret, M_ret, lift. cbv beta iota.
  destruct (get_current_price br underlying_symbol) as [v|e]; [|apply keeps_refl].
  destruct (historical_volatility w underlying_symbol) as [vol|];
    [|apply keeps_log].
  destruct v as [price|]; cbn [py_float fst snd].
  - eapply keeps_trans; apply keeps_write; done.
  - apply (keeps_write id (set_underlying_volatility (Some vol))). done.
Qed.

Lemma fetch_and_log_price_run id s :
  _fetch_and_log_price w id s
  = match find_position id (positions s) with
    | None => (Raise ObjectDeletedError, s)
    | Some p =>
        match own_price w p with
        | Raise e => (Raise e, s)
        | Ok None =>
            (Ok None, set_trace (trace s ++ [LogPriceMissing (pos_symbol p)]) s)
        | Ok (Some x) => (Ok (Some x), s)
        end
    end.
Proof.
  unfold _fetch_and_log_price, obj, get_latest_price, get_broker_instance, own_price,
    mbind, M_bind, get.
  destruct (find_position id (positions s)) as [p|]; [|done].
  cbv beta iota. unfold mret at 1, M_ret at 1.
  destruct (list_to_map (brokers w) !! pos_broker p) as [br|]; [|done].
  unfold mret at 1, M_ret at 1, lift. cbv beta iota.
  by destruct (get_current_price br (pos_symbol p)) as [[x|]|e].
Qed.

Lemma update_position_price_valued id now s :
  valued w id now s (_update_position_price w id now s).2.
Proof.
  unfold valued.
  destruct (_update_position_price w id now s) as [res s'] eqn:E. cbn [snd].
  unfold _update_position_price in E. unfold mbind at 1, M_bind at 1 in E.
  rewrite fetch_and_log_price_run in E.
  destruct (find_position id (positions s)) as [p|] eqn:Hp;
    [|by injection E as <- <-].
  destruct (own_price w p) as [[x|]|e]; [|by injection E as <- <-..].
  cbn [falsy] in E. destruct (Qeq_bool x 0); [by injection E as <- <-|].
  set (g1 := set_latest_price (Some x)) in E. set (g2 := set_last_updated now) in E.
  set (s1 := (update_obj id g1 s).2). set (s2 := (update_obj id g2 s1).2).
  assert (positions s2 = write_to id (g2 ∘ g1) <$> positions s) as Hs2.
  { apply (write_to_compose id g1 g2). done. }
  assert (obj id s2 = (Ok (g2 (g1 p)), s2)) as Hobj.
  { apply ReconcileFacts.obj_run. rewrite Hs2, find_position_write by done.
    rewrite decide_True by done. by rewrite Hp. }
  change ((update_obj id g1 ≫= λ _, update_obj id g2 ≫= λ _, obj id ≫= λ pos,
             _update_volatility_and_underlying_price w id
               (_get_underlying_symbol pos)) s)
    with (match obj id s2 with
          | (Ok pos, s') =>
              _update_volatility_and_underlying_price w id
                (_get_underlying_symbol pos) s'
          | (Raise e, s') => (Raise e, s')
          end) in E.
  rewrite Hobj in E.
  destruct (volatility_keeps id (_get_underlying_symbol (g2 (g1 p))) s2)
    as [Hc (g3 & Hs3 & Hg3)].
  rewrite E in Hc, Hs3. cbn [snd] in Hc, Hs3.
  split; [by rewrite Hc|].
  exists (g3 ∘ (g2 ∘ g1)). split.
  - rewrite Hs3, Hs2. apply (write_to_compose id (g2 ∘ g1) g3). done.
  - intros r. destruct (Hg3 (g2 (g1 r))) as (Hrow & Hl & Hu).
    change ((g3 ∘ (g2 ∘ g1)) r) with (g3 (g2 (g1 r))).
    split_and!; [|by rewrite Hl|by rewrite Hu].
    eapply ReconcileFacts.same_row_trans; [|done]. done.
Qed.

Lemma own_price_same_row p p' : same_row p p' → own_price w p' = own_price w p.
Proof. intros (_ & Hb & _ & Hs). unfold own_price. by rewrite Hb, Hs. Qed.

(** One round of the batch loop: the exception of a position, if any,
    ends in the handler of that round. *)
Lemma round_valued id now s :
  ∃ s',
    try_except
      (_ ← _update_position_price w id now;
       if RECONCILE_POSITIONS then update_cost_basis w id else mret ())
      (λ e, s ← get; log (LogPositionError (symbol_of id s) e)) s
    = (Ok (), s')
    ∧ valued w id now s s'.
Proof.
  pose proof (update_position_price_valued id now s) as Hv.
  unfold try_except, mbind, M_bind.
  destruct (_update_position_price w id now s) as [[[]|e] s1]; cbn [snd] in Hv.
  - by exists s1.
  - eexists. split; [done|]. exact Hv.
Qed.

(** The effect of a round on the row that a reference leads to. *)
Lemma valued_other id id0 now s s' q :
  valued w id now s s' → find_position id0 (positions s) = Some q →
  (id0 ≠ id ∨ price_missing w q) →
  find_position id0 (positions s') = Some q.
Proof.
  intros [_ Hv] Hq Hcase.
  destruct (find_position id (positions s)) as [p|] eqn:Hp; [|by rewrite Hv].
  destruct (own_price w p) as [[x|]|e] eqn:Hprice; [|by rewrite Hv..].
  destruct (Qeq_bool x 0) eqn:Hx; [by rewrite Hv|].
  destruct Hv as (g & -> & Hg).
  rewrite find_position_write by (intros r; by destruct (Hg r) as [[? _] _]).
  destruct (decide (id0 = id)) as [->|Hne]; [|done].
  destruct Hcase as [?|Hmissing]; [done|].
  assert (p = q) as -> by congruence.
  unfold price_missing in Hmissing. rewrite Hprice in Hmissing. simpl in Hmissing.
  congruence.
Qed.

Lemma valued_same id now s s' q x :
  valued w id now s s' → find_position id (positions s) = Some q →
  own_price w q = Ok (Some x) → Qeq_bool x 0 = false →
  ∃ q', find_position id (positions s') = Some q' ∧ same_row q q'
        ∧ pos_latest_price q' = Some x ∧ pos_last_updated q' = now.
Proof.
  intros [_ Hv] Hq Hprice Hx. rewrite Hq, Hprice, Hx in Hv.
  destruct Hv as (g & -> & Hg).
  rewrite find_position_write by (intros r; by destruct (Hg r) as [[? _] _]).
  rewrite decide_True, Hq by done. exists (g q). split; [done|]. apply Hg.
Qed.

(** The batch loop: it never raises and commits nothing; a position whose
    own price is missing is left as it is; a position of the batch whose
    price is delivered ends with that price and the timestamp, whatever
    happens to the other positions. *)
Lemma update_prices_and_volatility_run ids now s :
  ∃ s1,
    _update_prices_and_volatility w ids now s = (Ok (), s1)
    ∧ commits s1 = commits s
    ∧ (∀ id p, find_position id (positions s) = Some p → price_missing w p →
         find_position id (positions s1) = Some p)
    ∧ (∀ id p x,
         find_position id (positions s) = Some p →
         own_price w p = Ok (Some x) → Qeq_bool x 0 = false →
         id ∈ ids ∨ (pos_latest_price p = Some x ∧ pos_last_updated p = now) →
         ∃ p', find_position id (positions s1) = Some p' ∧ same_row p p'
               ∧ pos_latest_price p' = Some x ∧ pos_last_updated p' = now).
Proof.
  unfold _update_prices_and_volatility.
  revert s. induction ids as [|id ids IH]; intros s.
  { exists s. split_and!; [done..|].
    intros id p x Hp _ _ [Hin|[? ?]]; [by apply elem_of_nil in Hin|].
    exists p. split_and!; done. }
  destruct (round_valued id now s) as (s' & Hround & Hv).
  destruct (IH s') as (s1 & Hrest & Hc & Hmissing & Hpriced).
  exists s1. cbn [for_each]. unfold mbind at 1, M_bind at 1.
  rewrite Hround. split; [done|]. split; [destruct Hv; congruence|]. split.
  - intros id0 p Hp Hm. apply Hmissing; [|done].
    eapply valued_other; [done..|by right].
  - intros id0 p x Hp Hprice Hx Hcase.
    destruct (decide (id0 = id)) as [->|Hne].
    + destruct (valued_same id now s s' p x Hv Hp Hprice Hx)
        as (q & Hq & Hrow & Hl & Hu).
      destruct (Hpriced id q x Hq) as (p' & Hp' & Hrow' & ? & ?);
        [by rewrite (own_price_same_row p q)|done|by right|].
      exists p'. split_and!; [done| |done..].
      by eapply ReconcileFacts.same_row_trans.
    + apply Hpriced; [|done..|].
      * eapply valued_other; [done..|by left].
      * destruct Hcase as [Hin|?]; [left|by right].
        by apply elem_of_cons in Hin as [?|?].
Qed.

Lemma commit_then_log_commits e s :
  commits ((commit w ≫= λ _, log e) s).2 = S (commits s).
Proof.
  unfold commit, flush, log, modify, get, mbind, M_bind, raise, mret, M_ret.
  simpl. by destruct (commit_error w (commits s)).
Qed.

Lemma valuation_equation ids timestamp s s1 :
  _update_prices_and_volatility w ids
    (_strip_timezone (default (datetime_now w) timestamp)) s = (Ok (), s1) →
  update_position_prices_and_volatility w ids timestamp s
  = (commit w ≫= λ _, log LogPricesCompleted) s1.
Proof.
  intros Hrun. unfold update_position_prices_and_volatility.
  unfold mbind at 1, M_bind at 1. by rewrite Hrun.
Qed.

Lemma valuation_commits ids timestamp s :
  commits (update_position_prices_and_volatility w ids timestamp s).2
  = S (commits s).
Proof.
  destruct (update_prices_and_volatility_run ids
              (_strip_timezone (default (datetime_now w) timestamp)) s)
    as (s1 & Hrun & Hc & _).
  rewrite (valuation_equation _ _ _ _ Hrun), <- Hc.
  apply commit_then_log_commits.
Qed.

(** C9: for every batch of positions given to the valuation, the batch
    loop never raises, whatever fails for a position (the exception is
    caught in the round of that position): a position whose own price
    cannot be fetched (the fetch raises, or yields no price) is left
    unmutated, and every position of the batch whose price is delivered
    is still given that price and the timestamp; the loop commits
    nothing, and the valuation is the loop followed by one commit. *)
Theorem valuation_isolates_failures ids timestamp s :
  ∃ s1,
    _update_prices_and_volatility w ids
      (_strip_timezone (default (datetime_now w) timestamp)) s = (Ok (), s1)
    ∧ commits s1 = commits s
    ∧ update_position_prices_and_volatility w ids timestamp s
      = (commit w ≫= λ _, log LogPricesCompleted) s1
    ∧ commits (update_position_prices_and_volatility w ids timestamp s).2
      = S (commits s)
    ∧ (∀ id p, find_position id (positions s) = Some p → price_missing w p →
         find_position id (positions s1) = Some p)
    ∧ (∀ id p x,
         id ∈ ids → find_position id (positions s) = Some p →
         own_price w p = Ok (Some x) → ¬ x == 0 →
         ∃ p', find_position id (positions s1) = Some p' ∧ same_row p p'
               ∧ pos_latest_price p' = Some x
               ∧ pos_last_updated p'
                 = _strip_timezone (default (datetime_now w) timestamp)).
Proof.
  destruct (update_prices_and_volatility_run ids
              (_strip_timezone (default (datetime_now w) timestamp)) s)
    as (s1 & Hrun & Hc & Hmissing & Hpriced).
  exists s1.
  split_and!; [done|done|by apply valuation_equation| |done|].
  - apply valuation_commits.
  - intros id p x Hin Hp Hprice Hx. apply Hpriced; [done..| |by left].
    destruct (Qeq_bool x 0) eqn:E; [|done]. by apply Qeq_bool_iff in E.
Qed.

End Valuation.

(** A batch of three positions, the second of an unknown broker: its
    [KeyError] is logged, the other two get price 3 and the timestamp, and
    the commit comes last. *)
Example valuation_of_mixed_batch :
  let s' := (@update_position_prices_and_volatility Examples.utils Examples.sym_100
               [1; 2; 3]%nat (Some 7%Z) Examples.mixed_batch).2 in
  (pos_latest_price <$> positions s') = [Some 3; None; Some 3]
  ∧ (pos_last_updated <$> positions s') = [7; 0; 7]%Z
  ∧ trace s' = [LogPositionError (Some "SYM") KeyError; Commit; LogPricesCompleted].
Proof. vm_compute. done. Qed.

End ValuationFacts.

(** * Properties of the orchestrator *)

Module OrchestratorFacts.
Import SyncWorker MonadFacts.
Local Open Scope Q_scope.

Lemma for_each_app {A} (xs ys : list A) (body : A → M ()) s :
  for_each (xs ++ ys) body s
  = match for_each xs body s with
    | (Ok _, s') => for_each ys body s'
    | (Raise e, s') => (Raise e, s')
    end.
Proof.
  revert s. induction xs as [|x xs IH]; intros s; [done|].
  simpl. unfold mbind, M_bind. destruct (body x s) as [[[]|e] s']; [apply IH|done].
Qed.

(** A handler that only logs turns every outcome into a normal return. *)
Lemma try_except_log (body : M ()) (event : exn → Event) s :
  ∃ s', try_except body (λ e, log (event e)) s = (Ok (), s')
        ∧ commits s' = commits (body s).2
        ∧ (∀ s1, body s = (Ok (), s1) → s' = s1)
        ∧ (∀ e s1, body s = (Raise e, s1) →
             s' = set_trace (trace s1 ++ [event e]) s1).
Proof.
  unfold try_except. destruct (body s) as [[[]|e] s1]; eexists;
    (split; [done|]); split_and!; try done; by intros; simplify_eq.
Qed.

Section Orchestrator.
Context `{SymbolUtils}.
Variable w : World.

Lemma transaction_failed_true s :
  transaction_failed w s = true
  ↔ ∃ n, (n < commits s)%nat ∧ is_Some (commit_error w n).
Proof.
  unfold transaction_failed. rewrite existsb_exists. split.
  - intros (n & Hn%in_seq & Herr%bool_decide_eq_true). exists n. split; [lia|done].
  - intros (n & Hn & Herr). exists n. split; [apply in_seq; lia|].
    by apply bool_decide_eq_true.
Qed.

Lemma transaction_failed_false s :
  transaction_failed w s = false
  ↔ ∀ n, (n < commits s)%nat → commit_error w n = None.
Proof.
  rewrite <- not_true_iff_false, transaction_failed_true. split.
  - intros Hno n Hn. destruct (commit_error w n) as [e|] eqn:He; [|done].
    destruct Hno. exists n. by rewrite He.
  - intros Hall (n & Hn & Herr). rewrite (Hall n Hn) in Herr. by destruct Herr.
Qed.

(** In a session with a failed commit behind it the valuation stage stops
    at its first statement. *)
Lemma fetch_and_update_positions_refused now s :
  transaction_failed w s = true →
  _fetch_and_update_positions w now s = (Raise PendingRollbackError, s).
Proof.
  intros Hfailed. unfold _fetch_and_update_positions, statement, mbind, M_bind.
  by rewrite Hfailed.
Qed.

Lemma fetch_and_update_positions_commits now s :
  transaction_failed w s = false →
  commits (_fetch_and_update_positions w now s).2 = S (commits s).
Proof.
  intros Hfailed.
  unfold _fetch_and_update_positions, statement, mbind at 1, M_bind at 1.
  rewrite Hfailed.
  unfold select_positions, flush, log, modify, get, mbind, M_bind, mret, M_ret.
  cbv beta iota. by rewrite ValuationFacts.valuation_commits.
Qed.

Lemma terminal_commit_result event s :
  ((statement w (commit w) ≫= λ _, log event) s).1
  = if transaction_failed w s then Raise PendingRollbackError
    else match commit_error w (commits s) with
         | Some e => Raise e
         | None => Ok ()
         end.
Proof.
  unfold statement, mbind at 1, M_bind at 1.
  destruct (transaction_failed w s); [done|].
  unfold commit, flush, log, modify, get, mbind, M_bind, raise, mret, M_ret.
  simpl. by destruct (commit_error w (commits s)).
Qed.

Lemma iteration_result s :
  timeout_expires w = false →
  (_run_sync_worker_iteration w s).1 = (_run_sync_worker_iteration_logic w s).1.
Proof.
  intros Hexp. unfold _run_sync_worker_iteration, try_except, wait_for.
  rewrite Hexp.
  destruct (_run_sync_worker_iteration_logic w s) as [[[]|e] s']; [done|].
  by destruct e.
Qed.

(** One broker's failure ends the reconcile+balance stage: the brokers
    after it do not matter. *)
Lemma stage_stops_at_failure names1 broker names2 now s s_mid e s' :
  _reconcile_brokers_and_update_balances w names1 now s = (Ok (), s_mid) →
  _reconcile_brokers_and_update_balances w [broker] now s_mid = (Raise e, s') →
  _reconcile_brokers_and_update_balances w (names1 ++ broker :: names2) now s
  = (Raise e, s').
Proof.
  unfold _reconcile_brokers_and_update_balances. intros H1 H2.
  rewrite for_each_app, H1. cbn [for_each] in *. unfold mbind, M_bind in *.
  destruct ((_ ← (if RECONCILE_POSITIONS then reconcile_positions w broker None
                  else mret ());
             update_all_strategy_balances w broker now) s_mid)
    as [[[]|e'] s''] eqn:E; unfold mbind, M_bind in E; rewrite E in *.
  - done.
  - done.
Qed.

(** C8, as amended: an iteration whose timeout expires raises the timeout
    error to its caller, after logging it.  Otherwise, in the new session
    that the iteration opens, an exception raised in the reconcile+balance
    stage or in the valuation stage is caught and logged inside the
    iteration, and the valuation stage is entered whatever the
    reconcile+balance stage did: it runs and commits, unless a commit of the
    reconcile+balance stage has failed, in which case the session, never
    rolled back, refuses the first statement of the valuation stage, which
    is logged as that stage's error.  The iteration then returns normally
    exactly when no commit of its session fails, the terminal one included:
    the error of the terminal commit reaches the caller, and after an
    earlier failed commit the terminal commit is refused and that refusal
    reaches the caller.  Within the reconcile+balance stage the failure of
    one broker ends the stage: the brokers after it are not processed. *)
Theorem iteration_error_boundary s :
  (timeout_expires w = true →
   _run_sync_worker_iteration w s
   = (Raise TimeoutError,
      set_trace (trace (cancelled_at w s) ++ [LogIterationTimeout]) (cancelled_at w s)))
  ∧ (timeout_expires w = false →
     ∃ s0 s1 s2,
       s0 = set_commits 0
              (set_pending_delete [] (set_trace (trace s ++ [LogIterationStarted]) s))
       ∧ try_except
           (_reconcile_brokers_and_update_balances w (brokers w).*1 (datetime_now w))
           (λ e, log (LogReconcileStageError e)) s0 = (Ok (), s1)
       ∧ (∀ e s1',
            _reconcile_brokers_and_update_balances w (brokers w).*1 (datetime_now w) s0
            = (Raise e, s1') →
            s1 = set_trace (trace s1' ++ [LogReconcileStageError e]) s1')
       ∧ try_except (_fetch_and_update_positions w (datetime_now w))
           (λ e, log (LogValuationStageError e)) s1 = (Ok (), s2)
       ∧ (∀ e s2',
            _fetch_and_update_positions w (datetime_now w) s1 = (Raise e, s2') →
            s2 = set_trace (trace s2' ++ [LogValuationStageError e]) s2')
       ∧ (transaction_failed w s1 = false → commits s2 = S (commits s1))
       ∧ (transaction_failed w s1 = true →
          s2 = set_trace (trace s1 ++ [LogValuationStageError PendingRollbackError]) s1)
       ∧ _run_sync_worker_iteration_logic w s
         = (statement w (commit w) ≫= λ _, log LogIterationCompleted) s2
       ∧ (_run_sync_worker_iteration w s).1
         = (if transaction_failed w s2 then Raise PendingRollbackError
            else match commit_error w (commits s2) with
                 | Some e => Raise e
                 | None => Ok ()
                 end)
       ∧ ((_run_sync_worker_iteration w s).1 = Ok ()
          ↔ ∀ n, (n ≤ commits s2)%nat → commit_error w n = None))
  ∧ (∀ names1 broker names2 now s_mid e s',
       _reconcile_brokers_and_update_balances w names1 now s = (Ok (), s_mid) →
       _reconcile_brokers_and_update_balances w [broker] now s_mid = (Raise e, s') →
       _reconcile_brokers_and_update_balances w (names1 ++ broker :: names2) now s
       = (Raise e, s')).
Proof.
  split_and!.
  - intros Hexp. unfold _run_sync_worker_iteration, try_except, wait_for.
    by rewrite Hexp.
  - intros Hexp.
    set (s0 := set_commits 0
                 (set_pending_delete []
                    (set_trace (trace s ++ [LogIterationStarted]) s))).
    destruct (try_except_log
      (_reconcile_brokers_and_update_balances w (brokers w).*1 (datetime_now w))
      LogReconcileStageError s0) as (s1 & Hs1 & _ & _ & Hlog1).
    destruct (try_except_log (_fetch_and_update_positions w (datetime_now w))
      LogValuationStageError s1) as (s2 & Hs2 & Hc2 & _ & Hlog2).
    exists s0, s1, s2.
    assert (_run_sync_worker_iteration_logic w s
            = (statement w (commit w) ≫= λ _, log LogIterationCompleted) s2) as Hlogic.
    { unfold _run_sync_worker_iteration_logic. unfold mbind at 1, M_bind at 1.
      unfold mbind at 1, M_bind at 1.
      change (open_session (log LogIterationStarted s).2) with (Ok (), s0).
      change (log LogIterationStarted s) with
        (Ok (), set_trace (trace s ++ [LogIterationStarted]) s).
      cbv beta iota.
      change (open_session (set_trace (trace s ++ [LogIterationStarted]) s))
        with (Ok (), s0). cbv beta iota.
      unfold mbind at 1, M_bind at 1. rewrite Hs1.
      unfold mbind at 1, M_bind at 1. by rewrite Hs2. }
    assert ((_run_sync_worker_iteration w s).1
            = (if transaction_failed w s2 then Raise PendingRollbackError
               else match commit_error w (commits s2) with
                    | Some e => Raise e
                    | None => Ok ()
                    end)) as Hresult.
    { by rewrite iteration_result, Hlogic, terminal_commit_result. }
    split_and!; [done|done|done|done|done| | |done|done|].
    + intros Hfailed. by rewrite Hc2, fetch_and_update_positions_commits.
    + intros Hfailed. apply (Hlog2 PendingRollbackError).
      by apply fetch_and_update_positions_refused.
    + rewrite Hresult. split.
      * destruct (transaction_failed w s2) eqn:Hfailed; [done|].
        destruct (commit_error w (commits s2)) eqn:Hterminal; [done|].
        intros _ n Hn. destruct (decide (n = commits s2)) as [->|Hne]; [done|].
        apply (proj1 (transaction_failed_false s2) Hfailed). lia.
      * intros Hall.
        rewrite (proj2 (transaction_failed_false s2))
          by (intros n Hn; apply Hall; lia).
        by rewrite Hall.
  - intros names1 broker names2 now s_mid e s'.
    apply stage_stops_at_failure.
Qed.

End Orchestrator.

(** C8 as stated fails in two ways.  When the account information of
    broker "a" cannot be fetched, the iteration catches and logs the error
    and goes on to the valuation stage, but no balance is derived for
    broker "b", which comes after "a" — although the derivation for "b"
    succeeds when "b" is the only broker.  And when the commit of the
    balances of broker "b" fails, the iteration logs that error, logs the
    refusal of the valuation stage's first statement, and raises the refusal
    of its terminal commit to its caller, although the timeout has not
    expired. *)
Lemma failure_of_one_broker_skips_the_next :
  (∃ s',
     @_run_sync_worker_iteration Examples.utils Examples.a_fails_b_works
       Examples.two_brokers = (Ok (), s')
     ∧ LogReconcileStageError (BrokerError "unavailable") ∈ trace s'
     ∧ LogPositionsFetched ∈ trace s'
     ∧ (LogBalancesUpdated "b" ∉ trace s')
     ∧ filter (λ r, bal_broker r = "b") (balances s')
       = filter (λ r, bal_broker r = "b") (balances Examples.two_brokers)
     ∧ ∃ s'',
         @_run_sync_worker_iteration Examples.utils Examples.b_works
           Examples.two_brokers = (Ok (), s'')
         ∧ LogBalancesUpdated "b" ∈ trace s''
         ∧ length (filter (λ r, bal_broker r = "b") (balances s'')) = 5%nat)
  ∧ timeout_expires Examples.first_commit_fails = false
  ∧ ∃ s',
      @_run_sync_worker_iteration Examples.utils Examples.first_commit_fails
        Examples.two_brokers = (Raise PendingRollbackError, s')
      ∧ trace s'
        = [LogIterationStarted; Commit;
           LogReconcileStageError (DatabaseError "connection lost");
           LogValuationStageError PendingRollbackError].
Proof.
  split_and!.
  - eexists. split; [vm_compute; reflexivity|].
    split_and!; try (apply (bool_decide_unpack _); vm_compute; reflexivity).
    + vm_compute. reflexivity.
    + eexists. split; [vm_compute; reflexivity|].
      split; [apply (bool_decide_unpack _); vm_compute; reflexivity|].
      vm_compute. reflexivity.
  - reflexivity.
  - eexists. split; vm_compute; reflexivity.
Qed.

End OrchestratorFacts.

(** * Further properties of the profit/loss calculator *)

Module ProfitLossEdges.
Import DBManager.
Local Open Scope Q_scope.

Lemma ascii_lower_idempotent c : ascii_lower (ascii_lower c) = ascii_lower c.
Proof. destruct c as [[] [] [] [] [] [] [] []]; reflexivity. Qed.

Lemma lower_idempotent s : lower (lower s) = lower s.
Proof.
  induction s as [|c s IH]; [done|].
  simpl. by rewrite ascii_lower_idempotent, IH.
Qed.

Section Edges.
Context `{SymbolUtils}.
Variable positions : list Position.

(** The side is compared in lower case, and a side that is neither "buy"
    nor "sell" yields no profit/loss. *)
Theorem side_is_case_insensitive broker symbol strategy side quantity price :
  calculate_profit_loss positions (mkTrade broker symbol strategy side quantity price)
  = calculate_profit_loss positions
      (mkTrade broker symbol strategy (lower side) quantity price)
  ∧ (lower side ≠ "buy" → lower side ≠ "sell" →
     calculate_profit_loss positions
       (mkTrade broker symbol strategy side quantity price) = None).
Proof.
  split.
  - unfold calculate_profit_loss, calculate_partial_profit_loss. simpl.
    by rewrite lower_idempotent.
  - intros Hbuy Hsell. unfold calculate_profit_loss.
    cbn [trade_side trade_executed_price].
    destruct price as [p|]; [|done]. cbn [py_float mbind result_bind].
    by rewrite !decide_False by done.
Qed.

(** A buy opens or adds to a position, and realises nothing, unless the
    matching position is short: with no matching position, or one of
    quantity zero or more, the result is [None]. *)
Theorem buy_to_open_has_no_profit_loss trade :
  lower (trade_side trade) = "buy" →
  match get_position positions (trade_broker trade) (trade_symbol trade)
          (trade_strategy trade) with
  | Some p => 0 <= pos_quantity p
  | None => True
  end →
  calculate_profit_loss positions trade = None.
Proof.
  intros Hside Hpos. unfold calculate_profit_loss. rewrite Hside.
  destruct (trade_executed_price trade); [|done]. simpl.
  destruct (get_position _ _ _ _) as [p|]; [|done].
  destruct (Qlt_le_dec (pos_quantity p) 0); [lra|done].
Qed.

Lemma adjust_None symbol :
  except_None (adjust_for_futures_and_options symbol None) = None.
Proof.
  unfold adjust_for_futures_and_options.
  by destruct (is_futures_symbol symbol), (is_option symbol).
Qed.

(** A sell with no matching position yields [None], whatever the symbol
    is: the attribute read on the missing position fails. *)
Theorem sell_without_position_has_no_profit_loss trade :
  lower (trade_side trade) = "sell" →
  get_position positions (trade_broker trade) (trade_symbol trade)
    (trade_strategy trade) = None →
  calculate_profit_loss positions trade = None.
Proof.
  intros Hside Hpos. unfold calculate_profit_loss. rewrite Hside, Hpos.
  destruct (trade_executed_price trade) as [price|] eqn:Hprice; [|done]. simpl.
  unfold calculate_partial_profit_loss. rewrite Hside, Hprice. simpl.
  apply adjust_None.
Qed.

(** A sell against a position without a cost basis, or against a position
    of quantity zero when the traded quantity is not zero, yields [None]:
    the conversion, respectively the division, fails. *)
Theorem sell_undefined_cost_per_share trade pos :
  lower (trade_side trade) = "sell" →
  get_position positions (trade_broker trade) (trade_symbol trade)
    (trade_strategy trade) = Some pos →
  pos_cost_basis pos = None
  ∨ (pos_quantity pos == 0 ∧ ¬ trade_quantity trade == 0) →
  calculate_profit_loss positions trade = None.
Proof.
  intros Hside Hpos Hcase. unfold calculate_profit_loss. rewrite Hside, Hpos.
  destruct (trade_executed_price trade) as [price|] eqn:Hprice; [|done]. simpl.
  unfold calculate_partial_profit_loss. rewrite Hside, Hprice. simpl.
  destruct Hcase as [Hcost|[Hzero Htrade]].
  - rewrite Hcost. simpl.
    destruct (Qeq_bool _ _); simpl; first [done|apply adjust_None].
  - destruct (Qeq_bool (pos_quantity pos) (trade_quantity trade)) eqn:E.
    { apply Qeq_bool_iff in E. rewrite Hzero in E. by destruct Htrade. }
    destruct (pos_cost_basis pos) as [cost|]; simpl; [|apply adjust_None].
    unfold py_truediv. apply Qeq_bool_iff in Hzero. rewrite Hzero. simpl.
    apply adjust_None.
Qed.

End Edges.

(** A buy while the ledger holds 100 shares long. *)
Lemma buy_to_open_has_no_profit_loss_witness :
  @calculate_profit_loss Examples.utils Examples.long_100 Examples.buy_10_at_90 = None.
Proof.
  apply (buy_to_open_has_no_profit_loss (H:=Examples.utils) Examples.long_100
           Examples.buy_10_at_90); vm_compute; [reflexivity|discriminate].
Defined.

(** A sell of a symbol of which the ledger holds nothing. *)
Lemma sell_without_position_has_no_profit_loss_witness :
  @calculate_profit_loss Examples.utils Examples.long_100
    Examples.sell_50_option_at_12 = None.
Proof.
  apply (sell_without_position_has_no_profit_loss (H:=Examples.utils)
           Examples.long_100 Examples.sell_50_option_at_12); reflexivity.
Defined.

(** A sell of 50 against a position of quantity zero. *)
Lemma sell_undefined_cost_per_share_witness :
  @calculate_profit_loss Examples.utils MoreExamples.flat_position Examples.sell_50_at_12
  = None.
Proof.
  apply (sell_undefined_cost_per_share (H:=Examples.utils) MoreExamples.flat_position
           Examples.sell_50_at_12 (Examples.position 1 "alpha" "SYM" 0 (Some 1000)));
    [reflexivity..|].
  right. split; [reflexivity|]. vm_compute. discriminate.
Defined.

End ProfitLossEdges.

(** * What the services never do *)

Module Invariants.
Import SyncWorker.

(** ** Rules *)

Section Rules.
Variable R : relation Session.
Context `{!PreOrder R}.

Lemma always_ret {A} (a : A) : always R (mret a).
Proof. intros s. reflexivity. Qed.

Lemma always_raise {A} e : always R (raise e : M A).
Proof. intros s. reflexivity. Qed.

Lemma always_lift {A} (r : result A) : always R (lift r).
Proof. intros s. reflexivity. Qed.

Lemma always_get : always R get.
Proof. intros s. reflexivity. Qed.

Lemma always_modify f : (∀ s, R s (f s)) → always R (modify f).
Proof. intros Hf s. apply Hf. Qed.

Lemma always_bind {A B} (m : M A) (k : A → M B) :
  always R m → (∀ a, always R (k a)) → always R (m ≫= k).
Proof.
  intros Hm Hk s. unfold mbind, M_bind. specialize (Hm s).
  destruct (m s) as [[a|e] s1]; [|done].
  etransitivity; [done|apply Hk].
Qed.

Lemma always_try_except {A} (body : M A) handler :
  always R body → (∀ e, always R (handler e)) → always R (try_except body handler).
Proof.
  intros Hm Hh s. unfold try_except. specialize (Hm s).
  destruct (body s) as [[a|e] s1]; [done|].
  etransitivity; [done|apply Hh].
Qed.

Lemma always_for_each {A} (xs : list A) (body : A → M ()) :
  (∀ x, always R (body x)) → always R (for_each xs body).
Proof.
  intros Hbody. induction xs as [|x xs IH]; [apply always_ret|].
  simpl. apply always_bind; [apply Hbody|]. by intros _.
Qed.

End Rules.

Arguments always_ret R {_ A} a.
Arguments always_raise R {_ A} e.
Arguments always_lift R {_ A} r.
Arguments always_get R {_}.
Arguments always_bind R {_ A B} m k.
Arguments always_try_except R {_ A} body handler.
Arguments always_for_each R {_ A} xs body.

Ltac always_step :=
  lazymatch goal with
  | |- always ?R _ =>
      first
        [ apply (always_ret R) | apply (always_raise R) | apply (always_lift R)
        | apply (always_get R)
        | apply (always_bind R); [|intros ?]
        | apply (always_try_except R); [|intros ?]
        | apply (always_for_each R); intros ?
        | match goal with
          | |- always _ (match ?x with _ => _ end) => destruct x
          end ]
  end.

(** ** The services, for a relation that their writes respect *)

Section Services.
Variable R : relation Session.
Context `{!PreOrder R}.
Context `{SymbolUtils}.
Variable w : World.

Hypothesis R_trace : ∀ s t, R s (set_trace t s).
Hypothesis R_commits : ∀ s n, R s (set_commits n s).
Hypothesis R_flushed : ∀ s, R s (flushed s).
Hypothesis R_pending : ∀ s ids, R s (set_pending_delete ids s).
Hypothesis R_add_balance : ∀ s b, R s (set_balances (balances s ++ [b]) s).
Hypothesis R_filter :
  ∀ s (P : Position → Prop) `{∀ p, Decision (P p)},
    R s (set_positions (filter P (positions s)) s).
Hypothesis R_set_quantity : ∀ s id q, R s (update_obj id (set_quantity q) s).2.
Hypothesis R_set_cost_basis : ∀ s id v, R s (update_obj id (set_cost_basis v) s).2.
Hypothesis R_set_latest_price :
  ∀ s id v, R s (update_obj id (set_latest_price v) s).2.
Hypothesis R_set_last_updated :
  ∀ s id t, R s (update_obj id (set_last_updated t) s).2.
Hypothesis R_set_underlying_volatility :
  ∀ s id v, R s (update_obj id (set_underlying_volatility v) s).2.
Hypothesis R_set_underlying_latest_price :
  ∀ s id v, R s (update_obj id (set_underlying_latest_price v) s).2.

Lemma always_log e : always R (log e).
Proof. intros s. apply R_trace. Qed.

Lemma always_flush : always R flush.
Proof. intros s. apply R_flushed. Qed.

Lemma always_commit : always R (commit w).
Proof.
  unfold commit. apply (always_bind R); [apply always_flush|intros _].
  apply (always_bind R); [apply always_log|intros _].
  apply (always_bind R); [apply (always_get R)|intros s0].
  apply (always_bind R); [intros s; apply R_commits|intros _].
  repeat always_step.
Qed.

Lemma always_select_positions (P : Position → Prop) `{∀ p, Decision (P p)} :
  always R (select_positions P).
Proof.
  unfold select_positions. apply (always_bind R); [apply always_flush|intros _].
  repeat always_step.
Qed.

Lemma always_select_balances (P : Balance → Prop) `{∀ b, Decision (P b)} :
  always R (select_balances P).
Proof.
  unfold select_balances. apply (always_bind R); [apply always_flush|intros _].
  repeat always_step.
Qed.

Lemma always_add_balance b : always R (add_balance b).
Proof. intros s. apply R_add_balance. Qed.

Lemma always_obj id : always R (obj id).
Proof. unfold obj. repeat always_step. Qed.

Lemma always_session_delete id : always R (session_delete id).
Proof. intros s. apply R_pending. Qed.

Lemma always_get_broker_instance name : always R (get_broker_instance w name).
Proof. unfold get_broker_instance. repeat always_step. Qed.

Lemma always_get_latest_price name symbol : always R (get_latest_price w name symbol).
Proof.
  unfold get_latest_price.
  apply (always_bind R); [apply always_get_broker_instance|intros ?]. always_step.
Qed.

Lemma always_broker_account_info name : always R (broker_account_info w name).
Proof.
  unfold broker_account_info.
  apply (always_bind R); [apply always_get_broker_instance|intros ?]. always_step.
Qed.

Lemma always_update_quantity id q : always R (update_obj id (set_quantity q)).
Proof. intros s. apply R_set_quantity. Qed.
Lemma always_update_cost_basis id v : always R (update_obj id (set_cost_basis v)).
Proof. intros s. apply R_set_cost_basis. Qed.
Lemma always_update_latest_price id v : always R (update_obj id (set_latest_price v)).
Proof. intros s. apply R_set_latest_price. Qed.
Lemma always_update_last_updated id t : always R (update_obj id (set_last_updated t)).
Proof. intros s. apply R_set_last_updated. Qed.
Lemma always_update_underlying_volatility id v :
  always R (update_obj id (set_underlying_volatility v)).
Proof. intros s. apply R_set_underlying_volatility. Qed.
Lemma always_update_underlying_latest_price id v :
  always R (update_obj id (set_underlying_latest_price v)).
Proof. intros s. apply R_set_underlying_latest_price. Qed.

Ltac always_auto :=
  repeat first
    [ apply always_log | apply always_flush | apply always_commit
    | apply always_select_positions | apply always_select_balances
    | apply always_add_balance | apply always_obj | apply always_session_delete
    | apply always_get_broker_instance | apply always_get_latest_price
    | apply always_broker_account_info
    | apply always_update_quantity | apply always_update_cost_basis
    | apply always_update_latest_price | apply always_update_last_updated
    | apply always_update_underlying_volatility
    | apply always_update_underlying_latest_price
    | always_step ].

(** *** Reconciliation *)

Lemma always_sum_categorized symbol values acc :
  always R (sum_categorized symbol values acc).
Proof.
  revert acc. induction values as [|id values IH]; intros acc; simpl.
  - always_auto.
  - apply (always_bind R); [apply always_obj|intros pos].
    destruct (_ && _); apply IH.
Qed.

Lemma always_remove_excess db_positions broker_positions :
  always R (_remove_excess_uncategorized_positions db_positions broker_positions).
Proof.
  unfold _remove_excess_uncategorized_positions, _get_categorized_quantity,
    _adjust_uncategorized_position.
  apply (always_for_each R). intros [symbol id].
  apply (always_bind R); [apply always_obj|intros pos].
  destruct (_is_uncategorized_position pos); [|always_auto].
  destruct (broker_positions !! symbol); [|always_auto].
  apply (always_bind R); [apply always_sum_categorized|intros q].
  always_auto.
Qed.

Lemma always_remove_db_positions broker db_positions broker_positions :
  always R (_remove_db_positions broker db_positions broker_positions).
Proof.
  unfold _remove_db_positions. destruct (decide _); [always_auto|].
  apply (always_bind R); [apply always_flush|intros _].
  intros s. apply (R_filter s _).
Qed.

Lemma always_add_missing_positions broker db_positions broker_positions now :
  always R (_add_missing_positions w broker db_positions broker_positions now).
Proof.
  unfold _add_missing_positions, _update_existing_position.
  apply (always_for_each R). intros [symbol bp].
  destruct (db_positions !! symbol); always_auto.
Qed.

Lemma always_get_positions broker : always R (_get_positions w broker).
Proof. unfold _get_positions, _fetch_db_positions. always_auto. Qed.

Lemma always_reconcile_positions broker timestamp :
  always R (reconcile_positions w broker timestamp).
Proof.
  unfold reconcile_positions.
  apply (always_bind R); [apply always_get_positions|intros [bps db]].
  apply (always_bind R); [apply always_remove_excess|intros _].
  apply (always_bind R); [apply always_remove_db_positions|intros _].
  apply (always_bind R); [apply always_get_positions|intros [bps' db']].
  apply (always_bind R); [apply always_add_missing_positions|intros _].
  always_auto.
Qed.

(** *** Valuation *)

Lemma always_update_position_cost_basis id broker_instance :
  always R (update_position_cost_basis id broker_instance).
Proof. unfold update_position_cost_basis. always_auto. Qed.

Lemma always_update_cost_basis_of id : always R (update_cost_basis w id).
Proof.
  unfold update_cost_basis.
  apply (always_bind R); [apply always_obj|intros pos].
  apply (always_bind R); [apply always_get_broker_instance|intros b].
  apply always_update_position_cost_basis.
Qed.

Lemma always_update_position_price id now :
  always R (_update_position_price w id now).
Proof.
  unfold _update_position_price, _fetch_and_log_price,
    _update_volatility_and_underlying_price.
  always_auto.
Qed.

Lemma always_update_prices_and_volatility ids now :
  always R (_update_prices_and_volatility w ids now).
Proof.
  unfold _update_prices_and_volatility. apply (always_for_each R). intros id.
  apply (always_try_except R).
  - apply (always_bind R); [apply always_update_position_price|intros _].
    always_auto.
  - intros e. always_auto.
Qed.

Lemma always_valuation ids timestamp :
  always R (update_position_prices_and_volatility w ids timestamp).
Proof.
  unfold update_position_prices_and_volatility.
  apply (always_bind R); [apply always_update_prices_and_volatility|intros _].
  always_auto.
Qed.

(** *** Balance derivation *)

Lemma always_sum_position_values broker rows acc :
  always R (sum_position_values w broker rows acc).
Proof.
  revert acc. induction rows as [|p rows IH]; intros acc; simpl; [always_auto|].
  apply (always_bind R); [apply always_get_latest_price|intros price].
  apply (always_bind R); [always_auto|intros price'].
  apply (always_bind R); [always_auto|intros value]. apply IH.
Qed.

Lemma always_calculate_positions_balance broker strategy :
  always R (_calculate_positions_balance w broker strategy).
Proof.
  unfold _calculate_positions_balance.
  apply (always_bind R); [apply always_select_positions|intros rows].
  apply always_sum_position_values.
Qed.

Lemma always_get_cash_balance broker strategy :
  always R (_get_cash_balance broker strategy).
Proof. unfold _get_cash_balance. always_auto. Qed.

Lemma always_get_strategies broker : always R (_get_strategies broker).
Proof. unfold _get_strategies. always_auto. Qed.

Lemma always_update_strategy_balance broker strategy timestamp :
  always R (update_strategy_balance w broker strategy timestamp).
Proof.
  unfold update_strategy_balance, _insert_or_update_balance.
  apply (always_bind R); [apply always_get_cash_balance|intros cash].
  apply (always_bind R); [apply always_calculate_positions_balance|intros value].
  always_auto.
Qed.

Lemma always_sum_each_strategy_balance broker strategies acc :
  always R (_sum_each_strategy_balance w broker strategies acc).
Proof.
  revert acc. induction strategies as [|x l IH]; intros acc; simpl; [always_auto|].
  apply (always_bind R); [apply always_get_cash_balance|intros cash].
  apply (always_bind R); [apply always_calculate_positions_balance|intros value].
  apply IH.
Qed.

Lemma always_update_uncategorized_balances broker timestamp :
  always R (update_uncategorized_balances w broker timestamp).
Proof.
  unfold update_uncategorized_balances, _get_account_balance_info,
    _sum_all_strategy_balances, _insert_uncategorized_balance.
  apply (always_bind R); [|intros [total sum]; always_auto].
  apply (always_bind R); [apply always_broker_account_info|intros total].
  apply (always_bind R); [|intros sum; always_auto].
  apply (always_bind R); [apply always_get_strategies|intros strategies].
  apply always_sum_each_strategy_balance.
Qed.

End Services.

Section Cycle.
Variable R : relation Session.
Context `{!PreOrder R}.
Context `{SymbolUtils}.
Variable w : World.

Hypothesis R_trace : ∀ s t, R s (set_trace t s).
Hypothesis R_commits : ∀ s n, R s (set_commits n s).
Hypothesis R_flushed : ∀ s, R s (flushed s).
Hypothesis R_add_balance : ∀ s b, R s (set_balances (balances s ++ [b]) s).

Lemma always_update_all_strategy_balances broker timestamp :
  always R (update_all_strategy_balances w broker timestamp).
Proof.
  unfold update_all_strategy_balances, _update_each_strategy_balance.
  apply (always_bind R); [by apply always_get_strategies|intros strategies].
  apply (always_bind R);
    [apply (always_for_each R); intros x; by apply always_update_strategy_balance
    |intros _].
  apply (always_bind R); [by apply always_update_uncategorized_balances|intros _].
  apply (always_bind R); [by apply always_commit|intros _].
  by apply always_log.
Qed.

End Cycle.

(** *** The orchestrator *)

Section Iteration.
Variable R : relation Session.
Context `{!PreOrder R}.
Context `{SymbolUtils}.
Variable w : World.

Hypothesis R_trace : ∀ s t, R s (set_trace t s).
Hypothesis R_commits : ∀ s n, R s (set_commits n s).
Hypothesis R_flushed : ∀ s, R s (flushed s).
Hypothesis R_pending : ∀ s ids, R s (set_pending_delete ids s).
Hypothesis R_add_balance : ∀ s b, R s (set_balances (balances s ++ [b]) s).
Hypothesis R_set_latest_price :
  ∀ s id v, R s (update_obj id (set_latest_price v) s).2.
Hypothesis R_set_last_updated :
  ∀ s id t, R s (update_obj id (set_last_updated t) s).2.
Hypothesis R_set_underlying_volatility :
  ∀ s id v, R s (update_obj id (set_underlying_volatility v) s).2.
Hypothesis R_set_underlying_latest_price :
  ∀ s id v, R s (update_obj id (set_underlying_latest_price v) s).2.

Lemma always_open_session : always R open_session.
Proof.
  intros s. unfold open_session, modify. cbn [snd].
  etransitivity; [apply R_pending|apply R_commits].
Qed.

Lemma always_statement {A} (m : M A) : always R m → always R (statement w m).
Proof.
  intros Hm s. unfold statement. destruct (transaction_failed w s); [reflexivity|].
  apply Hm.
Qed.

Lemma always_iteration_logic : always R (_run_sync_worker_iteration_logic w).
Proof.
  unfold _run_sync_worker_iteration_logic, _reconcile_brokers_and_update_balances,
    _fetch_and_update_positions.
  apply (always_bind R); [by apply always_log|intros _].
  apply (always_bind R); [apply always_open_session|intros _].
  apply (always_bind R).
  { apply (always_try_except R); [|intros e; by apply always_log].
    apply (always_for_each R). intros broker.
    apply (always_bind R); [apply (always_ret R)|intros _].
    by apply always_update_all_strategy_balances. }
  intros _. apply (always_bind R).
  { apply (always_try_except R); [|intros e; by apply always_log].
    apply (always_bind R);
      [apply always_statement; by apply always_select_positions|intros rows].
    apply (always_bind R); [by apply always_log|intros _].
    by apply always_valuation. }
  intros _.
  apply (always_bind R); [apply always_statement; by apply always_commit|intros _].
  by apply always_log.
Qed.

Lemma always_iteration s :
  timeout_expires w = false → R s (_run_sync_worker_iteration w s).2.
Proof.
  intros Hexp. unfold _run_sync_worker_iteration, try_except, wait_for.
  rewrite Hexp. pose proof (always_iteration_logic s) as Hlogic.
  destruct (_run_sync_worker_iteration_logic w s) as [[[]|e] s']; [done|].
  cbn [snd] in Hlogic. etransitivity; [exact Hlogic|].
  destruct e; try reflexivity.
  apply R_trace.
Qed.

End Iteration.

(** ** The relations *)

Global Instance both_preorder R1 R2 :
  PreOrder R1 → PreOrder R2 → PreOrder (both R1 R2).
Proof.
  intros H1 H2. split.
  - intros s. split; reflexivity.
  - intros s1 s2 s3 [? ?] [? ?]. split; by etransitivity.
Qed.

Global Instance balances_kept_preorder : PreOrder balances_kept.
Proof.
  split; [done|]. unfold balances_kept. intros s1 s2 s3 ? ?. congruence.
Qed.

Global Instance balances_appended_preorder : PreOrder balances_appended.
Proof.
  split; [intros s; by unfold balances_appended|].
  unfold balances_appended. intros s1 s2 s3 ? ?. by etransitivity.
Qed.

Global Instance positions_within_preorder : PreOrder positions_within.
Proof.
  split; [by intros s p|].
  unfold positions_within. intros s1 s2 s3 H12 H23 p Hp. by apply H12, H23.
Qed.

Global Instance tags_kept_preorder : PreOrder tags_kept.
Proof.
  split; [intros s; apply ReconcileFacts.derived_refl|].
  intros s1 s2 s3. apply ReconcileFacts.derived_trans.
Qed.

Global Instance holdings_kept_preorder : PreOrder holdings_kept.
Proof.
  split.
  - intros s p Hp. exists p. split_and!; done.
  - intros s1 s2 s3 H12 H23 p3 Hp3.
    destruct (H23 p3 Hp3) as (p2 & Hp2 & Hrow2 & Hq2 & Hc2).
    destruct (H12 p2 Hp2) as (p1 & Hp1 & Hrow1 & Hq1 & Hc1).
    exists p1. split_and!; [done| |congruence..].
    by eapply ReconcileFacts.same_row_trans.
Qed.

Lemma holdings_kept_subseteq s s' : positions s' ⊆ positions s → holdings_kept s s'.
Proof. intros Hsub p Hp. exists p. split_and!; [by apply Hsub|done..]. Qed.

Lemma holdings_kept_write id f s :
  (∀ p, same_row p (f p) ∧ pos_quantity (f p) = pos_quantity p
        ∧ pos_cost_basis (f p) = pos_cost_basis p) →
  holdings_kept s (update_obj id f s).2.
Proof.
  intros Hf p' Hp'. simpl in Hp'.
  apply list_elem_of_fmap in Hp' as (p & -> & Hp). exists p. split; [done|].
  destruct (decide (pos_id p = id)); [apply Hf|done].
Qed.

Lemma tags_kept_subseteq s s' : positions s' ⊆ positions s → tags_kept s s'.
Proof.
  intros Hsub p Hp. exists p. split_and!; [by apply Hsub|done|by left].
Qed.

Lemma tags_kept_write id f s :
  (∀ p, same_row p (f p)) → tags_kept s (update_obj id f s).2.
Proof.
  intros Hf. apply (ReconcileFacts.derived_update (λ _, True) f id (positions s)).
  intros p. split; [apply Hf|by right].
Qed.

Lemma filter_subseteq (P : Position → Prop) `{∀ p, Decision (P p)}
    (ps : list Position) :
  filter P ps ⊆ ps.
Proof. intros p Hp. by apply list_elem_of_filter in Hp as [_ ?]. Qed.

Global Instance commits_kept_preorder : PreOrder commits_kept.
Proof.
  split; [done|]. unfold commits_kept. intros s1 s2 s3 ? ?. congruence.
Qed.

(** ** Where a session can fail *)

(** A balance-derivation cycle commits once, with its last statement, and
    returns normally only if that commit succeeds.  So the cycles of the
    reconcile+balance stage never meet a session with a failed commit
    behind it: in the session that the iteration opens, a cycle that
    follows other cycles follows their successful commits. *)
Section WorkingSession.
Context `{SymbolUtils}.
Variable w : World.

Lemma commit_result s :
  commit w s
  = (match commit_error w (commits s) with
     | Some e => Raise e
     | None => Ok ()
     end,
     set_commits (S (commits s)) (set_trace (trace (flushed s) ++ [Commit]) (flushed s))).
Proof.
  unfold commit, flush, log, modify, get, mbind, M_bind, raise, mret, M_ret.
  simpl. by destruct (commit_error w (commits s)).
Qed.

Lemma cycle_commits_last broker t s s' :
  update_all_strategy_balances w broker t s = (Ok (), s') →
  commits s' = S (commits s) ∧ commit_error w (commits s) = None.
Proof.
  rewrite BalanceFacts.update_all_strategy_balances_steps.
  pose proof (always_for_each commits_kept (real_strategies (balances s) broker)
                (λ strategy, update_strategy_balance w broker strategy (Some t))
                (λ x, always_update_strategy_balance commits_kept w
                        (λ _, eq_refl) (λ _ _, eq_refl) broker x (Some t))
                (flushed s)) as H1.
  unfold _update_each_strategy_balance.
  destruct (for_each _ _ (flushed s)) as [[[]|e] s1]; [|done].
  pose proof (always_update_uncategorized_balances commits_kept (later w)
                (λ _, eq_refl) (λ _ _, eq_refl) broker t s1) as H2.
  destruct (update_uncategorized_balances (later w) broker t s1) as [[[]|e] s3];
    [|done].
  rewrite commit_result.
  unfold commits_kept in H1, H2. cbn [snd] in H1, H2.
  assert (commits s3 = commits s) as Hsame by (by rewrite H2, H1).
  rewrite Hsame.
  destruct (commit_error w (commits s)); [done|].
  by intros [= <-].
Qed.

Lemma reconcile_stage_keeps_session_working names now s s' :
  transaction_failed w s = false →
  _reconcile_brokers_and_update_balances w names now s = (Ok (), s') →
  transaction_failed w s' = false.
Proof.
  unfold _reconcile_brokers_and_update_balances. revert s.
  induction names as [|broker names IH]; intros s Hworking; [by intros [= <-]|].
  cbn [for_each]. unfold mbind at 1, M_bind at 1.
  change (RECONCILE_POSITIONS) with false. cbv iota.
  unfold mbind at 1, M_bind at 1. cbn [mret M_ret].
  destruct (update_all_strategy_balances w broker now s) as [[[]|e] s1] eqn:Hcycle;
    [|done].
  apply cycle_commits_last in Hcycle as [Hcommits Hcommit].
  apply IH. apply OrchestratorFacts.transaction_failed_false.
  intros n Hn. rewrite Hcommits in Hn.
  destruct (decide (n = commits s)) as [->|Hne]; [done|].
  apply (proj1 (OrchestratorFacts.transaction_failed_false w s) Hworking). lia.
Qed.

End WorkingSession.

(** ** The theorems *)

(** Whatever its outcome, reconciliation leaves the table [Balance] as it
    is and creates no position: every row of the table [Position]
    afterwards is a row that was there before, with its primary key,
    broker, symbol and strategy tag (as configured, the grow pass inserts
    nothing). *)
Theorem reconciliation_keeps_tags w broker timestamp s :
  balances_kept s (reconcile_positions w broker timestamp s).2
  ∧ tags_kept s (reconcile_positions w broker timestamp s).2.
Proof.
  apply (always_reconcile_positions (both balances_kept tags_kept) w).
  - intros s0 t. split; [done|apply tags_kept_subseteq; done].
  - intros s0 n. split; [done|apply tags_kept_subseteq; done].
  - intros s0. split; [done|apply tags_kept_subseteq, filter_subseteq].
  - intros s0 ids. split; [done|apply tags_kept_subseteq; done].
  - intros s0 P HP. split; [done|apply tags_kept_subseteq, filter_subseteq].
  - intros s0 id q. split; [done|by apply tags_kept_write].
  - intros s0 id t. split; [done|by apply tags_kept_write].
Qed.

(** Whatever its outcome, and whatever fails for a position, the
    valuation of a batch leaves the table [Balance] as it is, creates no
    position, and changes neither the strategy tag, nor the quantity, nor
    the cost basis of a position. *)
Theorem valuation_keeps_holdings `{SymbolUtils} w ids timestamp s :
  balances_kept s (update_position_prices_and_volatility w ids timestamp s).2
  ∧ holdings_kept s (update_position_prices_and_volatility w ids timestamp s).2.
Proof.
  apply (always_valuation (both balances_kept holdings_kept) w).
  - intros s0 t. split; [done|apply holdings_kept_subseteq; done].
  - intros s0 n. split; [done|apply holdings_kept_subseteq; done].
  - intros s0. split; [done|apply holdings_kept_subseteq, filter_subseteq].
  - intros s0 id v. split; [done|by apply holdings_kept_write].
  - intros s0 id t. split; [done|by apply holdings_kept_write].
  - intros s0 id v. split; [done|by apply holdings_kept_write].
  - intros s0 id v. split; [done|by apply holdings_kept_write].
Qed.

(** Whatever its outcome, a balance-derivation cycle only appends to the
    table [Balance]: the rows that were there are still there, in place
    and unchanged; and it writes to no position. *)
Theorem balance_derivation_is_append_only `{SymbolUtils} w broker timestamp s :
  balances_appended s (update_all_strategy_balances w broker timestamp s).2
  ∧ positions_within s (update_all_strategy_balances w broker timestamp s).2.
Proof.
  apply (always_update_all_strategy_balances
           (both balances_appended positions_within) w).
  - intros s0 t. split; [by unfold balances_appended|by intros p].
  - intros s0 n. split; [by unfold balances_appended|by intros p].
  - intros s0. split; [by unfold balances_appended|apply filter_subseteq].
  - intros s0 b. split; [by apply prefix_app_r|by intros p].
Qed.

(** Whatever its outcome, a whole iteration whose timeout does not expire,
    as configured (reconciliation disabled), only appends to the table
    [Balance], creates no position, and changes neither the strategy tag,
    nor the quantity, nor the cost basis of a position. *)
Theorem iteration_keeps_holdings `{SymbolUtils} w s :
  timeout_expires w = false →
  balances_appended s (_run_sync_worker_iteration w s).2
  ∧ holdings_kept s (_run_sync_worker_iteration w s).2.
Proof.
  intros Hexp.
  apply (always_iteration (both balances_appended holdings_kept) w); [..|done].
  - intros s0 t. split; [by unfold balances_appended|].
    apply holdings_kept_subseteq; done.
  - intros s0 n. split; [by unfold balances_appended|].
    apply holdings_kept_subseteq; done.
  - intros s0. split; [by unfold balances_appended|].
    apply holdings_kept_subseteq, filter_subseteq.
  - intros s0 ids. split; [by unfold balances_appended|].
    apply holdings_kept_subseteq; done.
  - intros s0 b. split; [by apply prefix_app_r|].
    apply holdings_kept_subseteq; done.
  - intros s0 id v. split; [by unfold balances_appended|].
    by apply holdings_kept_write.
  - intros s0 id t. split; [by unfold balances_appended|].
    by apply holdings_kept_write.
  - intros s0 id v. split; [by unfold balances_appended|].
    by apply holdings_kept_write.
  - intros s0 id v. split; [by unfold balances_appended|].
    by apply holdings_kept_write.
Qed.

(** An iteration over the ledger of "alpha" with broker "b" at work. *)
Lemma iteration_keeps_holdings_witness :
  balances_appended Examples.alpha_cash_200
    (@_run_sync_worker_iteration Examples.utils Examples.sym_100
       Examples.alpha_cash_200).2
  ∧ holdings_kept Examples.alpha_cash_200
      (@_run_sync_worker_iteration Examples.utils Examples.sym_100
         Examples.alpha_cash_200).2.
Proof.
  apply (iteration_keeps_holdings (H:=Examples.utils) Examples.sym_100
           Examples.alpha_cash_200).
  reflexivity.
Defined.

End Invariants.

(** * Properties of the methods of [DBManager] that write *)

Module DBStoreFacts.
Import DBStore.
Local Open Scope Q_scope.

(** ** The first row of a query *)

Section UpdateFirst.
Context {A : Type} (P : A → Prop) `{∀ x, Decision (P x)} (f : A → A).
Hypothesis f_keeps : ∀ x, P x → P (f x).

Lemma update_first_head (l : list A) :
  head (filter P (update_first P f l)) = f <$> head (filter P l).
Proof.
  induction l as [|x l IH]; [done|].
  simpl. destruct (decide (P x)) as [Hx|Hx].
  - rewrite !filter_cons, !decide_True by auto. done.
  - rewrite !filter_cons, !decide_False by done. apply IH.
Qed.

Lemma update_first_length (l : list A) :
  length (update_first P f l) = length l.
Proof.
  induction l as [|x l IH]; [done|].
  simpl. destruct (decide (P x)); simpl; by rewrite ?IH.
Qed.

Lemma update_first_filter_length (l : list A) :
  length (filter P (update_first P f l)) = length (filter P l).
Proof.
  induction l as [|x l IH]; [done|].
  simpl. destruct (decide (P x)) as [Hx|Hx].
  - by rewrite !filter_cons, !decide_True by auto.
  - by rewrite !filter_cons, !decide_False by done.
Qed.

(** Rows that the query does not return are not written to. *)
Lemma update_first_other (Q : A → Prop) `{∀ x, Decision (Q x)} (l : list A) :
  (∀ x, P x → ¬ Q x) →
  filter Q (update_first P f l) = filter Q l.
Proof.
  intros HPQ. induction l as [|x l IH]; [done|].
  simpl. destruct (decide (P x)) as [Hx|Hx].
  - rewrite !filter_cons, !decide_False by auto. done.
  - rewrite !filter_cons, IH. done.
Qed.

Lemma update_first_fixed (l : list A) a :
  head (filter P l) = Some a → f a = a → update_first P f l = l.
Proof.
  induction l as [|x l IH]; [done|].
  simpl. rewrite filter_cons. destruct (decide (P x)) as [Hx|Hx].
  - simpl. intros [= ->] ->. done.
  - intros Ha Hf. by rewrite IH.
Qed.

Lemma update_first_none (l : list A) :
  head (filter P l) = None → update_first P f l = l.
Proof.
  induction l as [|x l IH]; [done|].
  simpl. rewrite filter_cons. destruct (decide (P x)) as [Hx|Hx]; [done|].
  intros Hl. by rewrite IH.
Qed.

End UpdateFirst.

Lemma update_first_twice {A} (P : A → Prop) `{∀ x, Decision (P x)} (f g : A → A)
    (l : list A) :
  (∀ x, P x → P (f x)) →
  update_first P g (update_first P f l) = update_first P (g ∘ f) l.
Proof.
  intros Hf. induction l as [|x l IH]; [done|].
  simpl. destruct (decide (P x)) as [Hx|Hx]; simpl.
  - by rewrite decide_True by auto.
  - by rewrite decide_False, IH by done.
Qed.

Lemma update_first_ext {A} (P : A → Prop) `{∀ x, Decision (P x)} (f g : A → A)
    (l : list A) :
  (∀ x, f x = g x) → update_first P f l = update_first P g l.
Proof.
  intros Hfg. induction l as [|x l IH]; [done|].
  simpl. by rewrite Hfg, IH.
Qed.

(** ** Account information *)

Section Store.
Variable commit_error : nat → option exn.

(** [add_account_info] is an upsert: when its commit succeeds, the row
    that a query by broker returns first carries the new value, the broker
    has as many rows as before (one, if it had none), the rows of the other
    brokers and the other tables are as they were and no error is logged;
    and doing it twice is doing it once. *)
Theorem add_account_info_upserts account_info db :
  commit_error 0 = None →
  let db' := (add_account_info commit_error account_info db).2 in
  (add_account_info commit_error account_info db).1 = None
  ∧ ai_value <$> head (filter (λ a, ai_broker a = ai_broker account_info)
                         (db_account_info db')) = Some (ai_value account_info)
  ∧ length (filter (λ a, ai_broker a = ai_broker account_info) (db_account_info db'))
    = Nat.max 1 (length (filter (λ a, ai_broker a = ai_broker account_info)
                           (db_account_info db)))
  ∧ filter (λ a, ai_broker a ≠ ai_broker account_info) (db_account_info db')
    = filter (λ a, ai_broker a ≠ ai_broker account_info) (db_account_info db)
  ∧ db_trades db' = db_trades db ∧ db_balances db' = db_balances db
  ∧ db_positions db' = db_positions db
  ∧ (add_account_info commit_error account_info db').2 = db'.
Proof.
  intros Hcommit. unfold add_account_info, commit_or_rollback. rewrite Hcommit.
  set (P := λ a, ai_broker a = ai_broker account_info).
  destruct (head (filter P (db_account_info db))) as [a|] eqn:Hhead; cbn [fst snd].
  - assert (∀ x, P x → P (set_value (ai_value account_info) x)) as Hkeep by done.
    split_and!; cbn [db_account_info db_trades db_balances db_positions
                     with_account_info]; try done.
    + rewrite update_first_head by done. by rewrite Hhead.
    + rewrite update_first_filter_length by done.
      destruct (filter P (db_account_info db)); [done|]. simpl. lia.
    + apply update_first_other; [done|]. intros x Hx Hne. by apply Hne.
    + rewrite update_first_head, Hhead by done. cbn [fmap option_fmap option_map].
      unfold with_account_info. cbn [db_account_info db_trades db_balances
                                      db_positions].
      f_equal. rewrite update_first_twice by done.
      by apply update_first_ext.
  - assert (filter P (db_account_info db) = []) as Hnone.
    { by destruct (filter P (db_account_info db)). }
    assert (head (filter P (db_account_info db ++ [account_info]))
            = Some account_info) as Hnew.
    { rewrite filter_app, Hnone. simpl. rewrite filter_cons, decide_True by done.
      done. }
    split_and!; cbn [db_account_info db_trades db_balances db_positions
                     with_account_info]; try done.
    + by rewrite Hnew.
    + rewrite filter_app, Hnone. simpl. by rewrite filter_cons, decide_True.
    + rewrite filter_app. simpl. rewrite filter_cons, decide_False.
      * by rewrite filter_nil, app_nil_r.
      * intros Hne. by apply Hne.
    + rewrite Hnew. unfold with_account_info.
      cbn [db_account_info db_trades db_balances db_positions]. f_equal.
      apply (update_first_fixed P _ _ account_info); [done|].
      by destruct account_info.
Qed.

(** ** Trades *)

Lemma get_trade_updated id j f db :
  (∀ t, tr_id (f t) = tr_id t) →
  get_trade j (with_trades (update_first (λ t, tr_id t = id) f (db_trades db)) db)
  = if decide (j = id) then f <$> get_trade j db else get_trade j db.
Proof.
  intros Hf. unfold get_trade. cbn [db_trades with_trades].
  destruct (decide (j = id)) as [->|Hne].
  - apply update_first_head. intros t Ht. by rewrite Hf.
  - f_equal. apply update_first_other.
    + intros t Ht. by rewrite Hf.
    + intros t Ht Hj. congruence.
Qed.

(** [update_trade_status] on an unknown id writes nothing: the attribute
    write on [None] fails, and the error is logged.  On a known id, when
    the commit succeeds, the trade that [get_trade] returns has the new
    status and is otherwise as before, and every other trade and table is
    as it was. *)
Theorem update_trade_status_sets id status db :
  (get_trade id db = None →
   update_trade_status commit_error id status db = (Some AttributeError, db))
  ∧ (∀ t, get_trade id db = Some t → commit_error 0 = None →
       (update_trade_status commit_error id status db).1 = None
       ∧ get_trade id (update_trade_status commit_error id status db).2
         = Some (set_status status t)
       ∧ (∀ j, j ≠ id →
            get_trade j (update_trade_status commit_error id status db).2
            = get_trade j db)
       ∧ length (db_trades (update_trade_status commit_error id status db).2)
         = length (db_trades db)
       ∧ db_account_info (update_trade_status commit_error id status db).2
         = db_account_info db
       ∧ db_balances (update_trade_status commit_error id status db).2
         = db_balances db
       ∧ db_positions (update_trade_status commit_error id status db).2
         = db_positions db).
Proof.
  split.
  - intros Hnone. unfold update_trade_status. by rewrite Hnone.
  - intros t Ht Hcommit. unfold update_trade_status, commit_or_rollback.
    rewrite Ht, Hcommit. cbn [fst snd]. split_and!; try done.
    + rewrite get_trade_updated by done. rewrite decide_True by done.
      by rewrite Ht.
    + intros j Hj. rewrite get_trade_updated by done. by rewrite decide_False.
    + cbn [db_trades with_trades]. apply update_first_length.
Qed.

(** The status of a trade is not guarded: the last write wins.  When the
    commits succeed, cancelling a trade that was filled leaves it
    cancelled, filling a cancelled one leaves it filled, and in general a
    status update after another is the second one alone. *)
Theorem last_status_wins id status1 status2 db :
  commit_error 0 = None →
  update_trade_status commit_error id status2
    (update_trade_status commit_error id status1 db).2
  = update_trade_status commit_error id status2 db
  ∧ set_trade_cancelled commit_error id (set_trade_filled commit_error id db).2
    = set_trade_cancelled commit_error id db
  ∧ set_trade_filled commit_error id (set_trade_cancelled commit_error id db).2
    = set_trade_filled commit_error id db.
Proof.
  intros Hcommit.
  assert (∀ s1 s2,
    update_trade_status commit_error id s2
      (update_trade_status commit_error id s1 db).2
    = update_trade_status commit_error id s2 db) as Hgen.
  { intros s1 s2. unfold update_trade_status at 2.
    destruct (get_trade id db) as [t|] eqn:Ht; [|done].
    unfold commit_or_rollback at 1. rewrite Hcommit. cbn [snd].
    unfold update_trade_status.
    rewrite get_trade_updated by done. rewrite decide_True by done.
    rewrite Ht. cbn [fmap option_fmap option_map].
    unfold commit_or_rollback. rewrite Hcommit.
    unfold with_trades.
    cbn [db_trades db_account_info db_balances db_positions].
    by rewrite update_first_twice by done. }
  split_and!; [apply Hgen|..].
  - apply (Hgen "filled" "cancelled").
  - apply (Hgen "cancelled" "filled").
Qed.

Lemma filter_absent_id id (l : list TradeRow) :
  id ∉ tr_id <$> l → filter (λ t, tr_id t ≠ id) l = l.
Proof.
  induction l as [|x l IH]; [done|]. rewrite fmap_cons, not_elem_of_cons.
  intros [Hx Hl]. rewrite filter_cons_True by done. by rewrite IH.
Qed.

Lemma open_trades_after_fill id (l : list TradeRow) :
  NoDup (tr_id <$> l) →
  filter (λ t, tr_status t = "open")
    (update_first (λ t, tr_id t = id) (set_status "filled") l)
  = filter (λ t, tr_id t ≠ id) (filter (λ t, tr_status t = "open") l).
Proof.
  induction l as [|x l IH]; [done|]. rewrite fmap_cons, NoDup_cons.
  intros [Hx Hl]. cbn [update_first]. destruct (decide (tr_id x = id)) as [<-|Hne].
  - assert (filter (λ t, tr_id t ≠ tr_id x) (filter (λ t, tr_status t = "open") l)
            = filter (λ t, tr_status t = "open") l) as Hrest.
    { apply filter_absent_id. intros Hin. apply Hx.
      apply list_elem_of_fmap in Hin as (t & -> & Ht).
      apply list_elem_of_filter in Ht as [_ Ht].
      apply list_elem_of_fmap. eauto. }
    rewrite (filter_cons _ (set_status "filled" x)).
    rewrite decide_False by done.
    rewrite (filter_cons _ x l). destruct (decide (tr_status x = "open")); [|done].
    rewrite filter_cons. by rewrite decide_False by auto.
  - rewrite (filter_cons _ x (update_first _ _ _)), (filter_cons _ x l).
    destruct (decide (tr_status x = "open")); [|by rewrite IH].
    rewrite filter_cons. rewrite decide_True by done. by rewrite IH.
Qed.

(** With trade ids unique, as the primary key makes them, and the commit
    succeeding, [set_trade_filled] removes exactly the trade of that id
    from what [get_open_trades] returns: the other open trades stay, in
    their order, and an id that names no trade changes nothing. *)
Theorem filled_trade_leaves_open_trades id db :
  NoDup (tr_id <$> db_trades db) →
  commit_error 0 = None →
  get_open_trades (set_trade_filled commit_error id db).2
  = filter (λ t, tr_id t ≠ id) (get_open_trades db).
Proof.
  intros Hids Hcommit. unfold get_open_trades.
  rewrite <- open_trades_after_fill by done.
  unfold set_trade_filled. destruct (get_trade id db) as [t|] eqn:Ht.
  - unfold commit_or_rollback. by rewrite Hcommit.
  - cbn [snd]. f_equal. symmetry. apply update_first_none. apply Ht.
Qed.

(** No status update touches the profit/loss of any trade, whatever the
    id, the status and the outcome of the commit. *)
Theorem status_update_keeps_profit_loss id status j db :
  get_profit_loss j (update_trade_status commit_error id status db).2
  = get_profit_loss j db.
Proof.
  unfold update_trade_status. destruct (get_trade id db) as [t|] eqn:Ht; [|done].
  unfold commit_or_rollback. destruct (commit_error 0); [done|]. cbn [snd].
  unfold get_profit_loss. rewrite get_trade_updated by done.
  destruct (decide (j = id)); [|done]. by destruct (get_trade j db).
Qed.

(** ** Renaming a strategy *)

Section Renamed.
Context {A : Type} (row_broker row_strategy : A → string)
  (set_strategy : string → A → A).
Hypothesis set_broker : ∀ s r, row_broker (set_strategy s r) = row_broker r.
Hypothesis set_get : ∀ s r, row_strategy (set_strategy s r) = s.
Hypothesis get_set : ∀ r, set_strategy (row_strategy r) r = r.
Hypothesis set_set : ∀ s s' r, set_strategy s (set_strategy s' r) = set_strategy s r.

Lemma renamed_back broker old new (l : list A) :
  (∀ r, r ∈ l → ¬ (row_broker r = broker ∧ row_strategy r = new)) →
  renamed row_broker row_strategy set_strategy broker new old
    (renamed row_broker row_strategy set_strategy broker old new l) = l.
Proof.
  intros Hfree. unfold renamed. rewrite <- list_fmap_compose.
  rewrite <- (list_fmap_id l) at 2. apply list_fmap_ext.
  intros i r Hr. apply list_elem_of_lookup_2 in Hr. cbn [compose id].
  destruct (decide (row_broker r = broker ∧ row_strategy r = old)) as [[Hb Ho]|Hno].
  - rewrite decide_True by (by rewrite set_broker, set_get).
    by rewrite set_set, <- Ho, get_set.
  - rewrite decide_False; [done|]. by apply Hfree.
Qed.

Lemma renamed_none_left broker old new (l : list A) :
  old ≠ new →
  filter (λ r, row_broker r = broker ∧ row_strategy r = old)
    (renamed row_broker row_strategy set_strategy broker old new l) = [].
Proof.
  intros Hne. induction l as [|r l IH]; [done|]. unfold renamed in *.
  rewrite fmap_cons. rewrite filter_cons_False; [done|].
  destruct (decide (row_broker r = broker ∧ row_strategy r = old)) as [Hyes|Hno].
  - rewrite set_get. intros [_ Heq]. congruence.
  - done.
Qed.

Lemma renamed_other_rows broker old new (l : list A) :
  filter (λ r, row_broker r ≠ broker)
    (renamed row_broker row_strategy set_strategy broker old new l)
  = filter (λ r, row_broker r ≠ broker) l.
Proof.
  induction l as [|r l IH]; [done|]. unfold renamed in *. rewrite fmap_cons.
  rewrite !filter_cons. rewrite IH.
  destruct (decide (row_broker r = broker ∧ row_strategy r = old)) as [[Hb Ho]|Hno];
    [|done].
  rewrite set_broker. by rewrite !decide_False by auto.
Qed.

Lemma renamed_fmap {B} (g : A → B) broker old new (l : list A) :
  (∀ s r, g (set_strategy s r) = g r) →
  g <$> renamed row_broker row_strategy set_strategy broker old new l = g <$> l.
Proof.
  intros Hg. unfold renamed. rewrite <- list_fmap_compose.
  apply list_fmap_ext. intros i r _. cbn [compose].
  by destruct (decide (row_broker r = broker ∧ row_strategy r = old)).
Qed.

End Renamed.

Lemma renamed_balances_back broker old new (l : list Balance) :
  (∀ r, r ∈ l → ¬ (bal_broker r = broker ∧ bal_strategy r = new)) →
  renamed bal_broker bal_strategy set_balance_strategy broker new old
    (renamed bal_broker bal_strategy set_balance_strategy broker old new l) = l.
Proof. apply renamed_back; try done. by intros []. Qed.

Lemma renamed_trades_back broker old new (l : list TradeRow) :
  (∀ r, r ∈ l → ¬ (trade_broker (tr_trade r) = broker
                    ∧ trade_strategy (tr_trade r) = new)) →
  renamed (trade_broker ∘ tr_trade) (trade_strategy ∘ tr_trade)
    set_trade_strategy broker new old
    (renamed (trade_broker ∘ tr_trade) (trade_strategy ∘ tr_trade)
       set_trade_strategy broker old new l) = l.
Proof. apply renamed_back; try done. by intros [? ? ? []]. Qed.

Lemma renamed_positions_back broker old new (l : list Position) :
  (∀ r, r ∈ l → ¬ (pos_broker r = broker ∧ pos_strategy r = new)) →
  renamed pos_broker pos_strategy set_position_strategy broker new old
    (renamed pos_broker pos_strategy set_position_strategy broker old new l) = l.
Proof. apply renamed_back; try done. by intros []. Qed.

(** Renaming a strategy to a name that is free at the broker can be
    undone: when all commits succeed, renaming back gives the database
    one started from, and neither call logs an error.  (With the name
    taken, the rows that had it come back under the old name too.) *)
Theorem rename_strategy_round_trip broker old new db :
  (∀ n, commit_error n = None) →
  name_free broker new db →
  (rename_strategy commit_error broker old new db).1 = None
  ∧ rename_strategy commit_error broker new old
      (rename_strategy commit_error broker old new db).2 = (None, db).
Proof.
  intros Hcommit (Hb & Ht & Hp). unfold rename_strategy, commit_or_rollback.
  rewrite !Hcommit. cbn [fst snd]. split; [done|]. f_equal.
  unfold with_balances, with_trades, with_positions.
  cbn [db_account_info db_trades db_balances db_positions].
  rewrite renamed_balances_back, renamed_trades_back, renamed_positions_back
    by done.
  by destruct db.
Qed.

(** The three tables are committed one after the other.  When the first
    commit succeeds and the second fails, the error is logged and the
    balances stay renamed (none is left under the old name), while trades
    and positions keep the old one: the rename is not atomic. *)
Theorem rename_strategy_is_not_atomic broker old new db e :
  commit_error 0 = None →
  commit_error 1 = Some e →
  old ≠ new →
  (rename_strategy commit_error broker old new db).1 = Some e
  ∧ filter (λ r, bal_broker r = broker ∧ bal_strategy r = old)
      (db_balances (rename_strategy commit_error broker old new db).2) = []
  ∧ length (filter (λ r, bal_broker r = broker ∧ bal_strategy r = new)
      (db_balances (rename_strategy commit_error broker old new db).2))
    = length (filter (λ r, bal_broker r = broker
                            ∧ (bal_strategy r = old ∨ bal_strategy r = new))
      (db_balances db))
  ∧ db_trades (rename_strategy commit_error broker old new db).2 = db_trades db
  ∧ db_positions (rename_strategy commit_error broker old new db).2
    = db_positions db.
Proof.
  intros H0 H1 Hne. unfold rename_strategy. rewrite H0, H1. cbn [fst snd].
  unfold with_balances. cbn [db_balances db_trades db_positions].
  split_and!; try done.
  - by apply renamed_none_left.
  - generalize (db_balances db). intros l. induction l as [|r l IH]; [done|].
    unfold renamed in *. rewrite fmap_cons. rewrite !filter_cons.
    destruct (decide (bal_broker r = broker ∧ bal_strategy r = old)) as [[Hb Ho]|Hno].
    + cbn [bal_broker bal_strategy set_balance_strategy].
      rewrite !decide_True by auto. cbn [length]. by rewrite IH.
    + destruct (decide (bal_broker r = broker ∧ bal_strategy r = new)) as [[Hb Hn]|Hnn].
      * rewrite decide_True by auto. cbn [length]. by rewrite IH.
      * by rewrite decide_False by tauto.
Qed.

(** Whatever the commits do, [rename_strategy] changes strategy names
    only: every table keeps its rows in number and order, with the same
    ids, statuses, profit/loss, amounts, symbols, quantities and cost
    bases, the rows of other brokers are untouched, and [get_profit_loss]
    answers as before. *)
Theorem rename_strategy_changes_names_only broker old new db j :
  let db' := (rename_strategy commit_error broker old new db).2 in
  db_account_info db' = db_account_info db
  ∧ (λ b, (bal_broker b, bal_type b, bal_balance b, bal_timestamp b))
      <$> db_balances db'
    = (λ b, (bal_broker b, bal_type b, bal_balance b, bal_timestamp b))
      <$> db_balances db
  ∧ (λ t, (tr_id t, tr_status t, tr_profit_loss t, trade_symbol (tr_trade t),
           trade_side (tr_trade t), trade_quantity (tr_trade t)))
      <$> db_trades db'
    = (λ t, (tr_id t, tr_status t, tr_profit_loss t, trade_symbol (tr_trade t),
             trade_side (tr_trade t), trade_quantity (tr_trade t)))
      <$> db_trades db
  ∧ (λ p, (pos_id p, pos_symbol p, pos_quantity p, pos_cost_basis p,
           pos_latest_price p)) <$> db_positions db'
    = (λ p, (pos_id p, pos_symbol p, pos_quantity p, pos_cost_basis p,
             pos_latest_price p)) <$> db_positions db
  ∧ filter (λ b, bal_broker b ≠ broker) (db_balances db')
    = filter (λ b, bal_broker b ≠ broker) (db_balances db)
  ∧ filter (λ t, trade_broker (tr_trade t) ≠ broker) (db_trades db')
    = filter (λ t, trade_broker (tr_trade t) ≠ broker) (db_trades db)
  ∧ filter (λ p, pos_broker p ≠ broker) (db_positions db')
    = filter (λ p, pos_broker p ≠ broker) (db_positions db)
  ∧ get_profit_loss j db' = get_profit_loss j db.
Proof.
  cbv zeta.
  set (db1 := with_balances
    (renamed bal_broker bal_strategy set_balance_strategy broker old new
       (db_balances db)) db).
  set (db2 := with_trades
    (renamed (trade_broker ∘ tr_trade) (trade_strategy ∘ tr_trade)
       set_trade_strategy broker old new (db_trades db1)) db1).
  set (db3 := with_positions
    (renamed pos_broker pos_strategy set_position_strategy broker old new
       (db_positions db2)) db2).
  assert (∀ l, get_profit_loss j
    (with_trades (renamed (trade_broker ∘ tr_trade) (trade_strategy ∘ tr_trade)
       set_trade_strategy broker old new l) db1)
    = get_profit_loss j (with_trades l db)) as Hpl.
  { intros l. unfold get_profit_loss, get_trade. cbn [db_trades with_trades].
    induction l as [|t l IH]; [done|]. unfold renamed in *. rewrite fmap_cons.
    rewrite !filter_cons.
    assert (∀ t', tr_id (if decide ((trade_broker ∘ tr_trade) t' = broker
                                    ∧ (trade_strategy ∘ tr_trade) t' = old)
                         then set_trade_strategy new t' else t') = tr_id t'
                  ∧ tr_profit_loss (if decide ((trade_broker ∘ tr_trade) t' = broker
                                    ∧ (trade_strategy ∘ tr_trade) t' = old)
                         then set_trade_strategy new t' else t') = tr_profit_loss t')
      as Hsame by (intros t'; by destruct (decide _)).
    destruct (Hsame t) as [-> Hpl].
    destruct (decide (tr_id t = j)); [|done]. cbn [head]. by rewrite Hpl. }
  assert ((rename_strategy commit_error broker old new db).2 = db
          ∨ (rename_strategy commit_error broker old new db).2 = db1
          ∨ (rename_strategy commit_error broker old new db).2 = db2
          ∨ (rename_strategy commit_error broker old new db).2 = db3) as Hcases.
  { unfold rename_strategy, commit_or_rollback. fold db1. fold db2. fold db3.
    destruct (commit_error 0); [by left|].
    destruct (commit_error 1); [by right; left|].
    destruct (commit_error 2); [by right; right; left|by right; right; right]. }
  assert (∀ d, d = db ∨ d = db1 ∨ d = db2 ∨ d = db3 →
    db_account_info d = db_account_info db
    ∧ (db_balances d = db_balances db ∨ db_balances d = db_balances db1)
    ∧ (db_trades d = db_trades db ∨ db_trades d = db_trades db2)
    ∧ (db_positions d = db_positions db ∨ db_positions d = db_positions db3))
    as Htables.
  { intros d [-> | [-> | [-> | ->]]]; cbn; auto. }
  destruct (Htables _ Hcases) as (-> & Hb & Ht & Hp). clear Htables Hcases.
  split_and!; [done|..].
  - destruct Hb as [->| ->]; [done|]. by apply renamed_fmap.
  - destruct Ht as [->| ->]; [done|]. by apply renamed_fmap.
  - destruct Hp as [->| ->]; [done|]. by apply renamed_fmap.
  - destruct Hb as [->| ->]; [done|]. by apply renamed_other_rows.
  - destruct Ht as [->| ->]; [done|].
    by apply (renamed_other_rows (trade_broker ∘ tr_trade)).
  - destruct Hp as [->| ->]; [done|]. by apply renamed_other_rows.
  - unfold get_profit_loss, get_trade in *.
    destruct Ht as [->| ->]; [done|]. apply (Hpl (db_trades db)).
Qed.

End Store.

(** Broker b reports a new value; its row is overwritten in place. *)
Lemma add_account_info_upserts_witness :
  add_account_info MoreExamples.commits_succeed (mkAccountInfo "b" 1200)
    MoreExamples.store
  = (None,
     with_account_info [mkAccountInfo "b" 1200; mkAccountInfo "c" 50]
       MoreExamples.store)
  ∧ (add_account_info MoreExamples.commits_succeed (mkAccountInfo "b" 1200)
       (with_account_info [mkAccountInfo "b" 1200; mkAccountInfo "c" 50]
          MoreExamples.store)).2
    = with_account_info [mkAccountInfo "b" 1200; mkAccountInfo "c" 50]
        MoreExamples.store.
Proof.
  split; [reflexivity|].
  apply (add_account_info_upserts MoreExamples.commits_succeed
           (mkAccountInfo "b" 1200) MoreExamples.store).
  reflexivity.
Defined.

(** Trade 2, filled and then cancelled. *)
Lemma last_status_wins_witness :
  set_trade_cancelled MoreExamples.commits_succeed 2
    (set_trade_filled MoreExamples.commits_succeed 2 MoreExamples.store).2
  = set_trade_cancelled MoreExamples.commits_succeed 2 MoreExamples.store.
Proof.
  apply (last_status_wins MoreExamples.commits_succeed 2 "filled" "cancelled"
           MoreExamples.store).
  reflexivity.
Defined.

(** Trade 2 is filled; trade 3 is the one left open. *)
Lemma filled_trade_leaves_open_trades_witness :
  get_open_trades
    (set_trade_filled MoreExamples.commits_succeed 2 MoreExamples.store).2
  = filter (λ t, tr_id t ≠ 2%nat) (get_open_trades MoreExamples.store).
Proof.
  apply (filled_trade_leaves_open_trades MoreExamples.commits_succeed 2
           MoreExamples.store); [|reflexivity].
  apply (bool_decide_unpack _). vm_compute. reflexivity.
Defined.

Lemma name_free_beta : name_free "b" "beta" MoreExamples.store.
Proof.
  unfold name_free. rewrite <- !Forall_forall.
  split_and!; repeat constructor; cbn; intros [_ ?]; discriminate.
Defined.

(** The strategy alpha of broker b, renamed to beta and back. *)
Lemma rename_strategy_round_trip_witness :
  rename_strategy MoreExamples.commits_succeed "b" "beta" "alpha"
    (rename_strategy MoreExamples.commits_succeed "b" "alpha" "beta"
       MoreExamples.store).2
  = (None, MoreExamples.store).
Proof.
  apply (rename_strategy_round_trip MoreExamples.commits_succeed "b" "alpha" "beta"
           MoreExamples.store); [reflexivity|apply name_free_beta].
Defined.

(** The second commit of the rename of alpha to beta fails. *)
Lemma rename_strategy_is_not_atomic_witness :
  (rename_strategy MoreExamples.second_commit_fails "b" "alpha" "beta"
     MoreExamples.store).1 = Some (DatabaseError "locked")
  ∧ db_trades (rename_strategy MoreExamples.second_commit_fails "b" "alpha" "beta"
                 MoreExamples.store).2
    = db_trades MoreExamples.store.
Proof.
  destruct (rename_strategy_is_not_atomic MoreExamples.second_commit_fails
              "b" "alpha" "beta" MoreExamples.store (DatabaseError "locked"))
    as (He & _ & _ & Ht & _); [reflexivity|reflexivity|discriminate|].
  split; [exact He|exact Ht].
Defined.

End DBStoreFacts.
(** * Balance derivation: the value of the positions, and missing prices *)

Module BalanceEdges.
Import SyncWorker MonadFacts.
Local Open Scope Q_scope.

Section Prices.
Context `{SymbolUtils}.
Variable w : World.
Variable broker : string.
Variable br : Broker.
Hypothesis broker_configured :
  (list_to_map (brokers w) : gmap string Broker) !! broker = Some br.

Lemma sum_position_values_value (price : string → Q) rows acc :
  (∀ p, p ∈ rows → get_current_price br (pos_symbol p) = Ok (Some (price (pos_symbol p)))) →
  ∃ v, (∀ s, sum_position_values w broker rows acc s = (Ok v, s))
       ∧ v == acc + foldr (λ p total,
                             position_value_added (price (pos_symbol p)) p + total)
                      0 rows.
Proof.
  revert acc. induction rows as [|p rows IH]; intros acc Hprice.
  { exists acc. split; [done|]. simpl. ring. }
  assert (get_current_price br (pos_symbol p) = Ok (Some (price (pos_symbol p))))
    as Hp by (apply Hprice; by left).
  assert (∀ q, q ∈ rows →
            get_current_price br (pos_symbol q) = Ok (Some (price (pos_symbol q))))
    as Hrest by (intros q Hq; apply Hprice; by right).
  cbn [sum_position_values foldr]. unfold mbind at 1, M_bind at 1.
  setoid_rewrite (BalanceFacts.get_latest_price_run w broker br broker_configured).
  rewrite Hp. unfold position_value_added.
  destruct (is_option (pos_symbol p)), (is_futures_symbol (pos_symbol p));
    simpl; unfold mbind, M_bind, lift; simpl;
    (edestruct IH as (v & Hv & Heq); [exact Hrest|]);
    (exists v; split; [exact Hv|]); rewrite Heq; symmetry; apply Qplus_assoc.
Qed.

Lemma sum_position_values_raises rows acc bad :
  bad ∈ rows →
  (∀ x, get_current_price br (pos_symbol bad) ≠ Ok (Some x)) →
  ∃ e, (∀ s, sum_position_values w broker rows acc s = (Raise e, s))
       ∧ ((∀ p, p ∈ rows → ∃ v, get_current_price br (pos_symbol p) = Ok v) →
          e = TypeError).
Proof.
  revert acc. induction rows as [|p rows IH]; intros acc Hbad Hnone.
  { by apply elem_of_nil in Hbad. }
  cbn [sum_position_values]. unfold mbind at 1, M_bind at 1.
  setoid_rewrite (BalanceFacts.get_latest_price_run w broker br broker_configured).
  destruct (get_current_price br (pos_symbol p)) as [[x|]|e] eqn:Hp.
  - apply elem_of_cons in Hbad as [->|Hbad]; [by destruct (Hnone x)|].
    destruct (is_option (pos_symbol p)), (is_futures_symbol (pos_symbol p));
      simpl; unfold mbind, M_bind, lift; simpl;
      (edestruct IH as (e & He & Hty); [exact Hbad|exact Hnone|]);
      (exists e; split; [exact He|]); intros Hall; apply Hty;
      intros q Hq; apply Hall; by right.
  - exists TypeError. split; [|done]. intros s.
    by destruct (is_option (pos_symbol p)), (is_futures_symbol (pos_symbol p)).
  - exists e. split; [done|]. intros Hall. destruct (Hall p) as [v Hv]; [by left|].
    congruence.
Qed.

Lemma flushed_flushed s : flushed (flushed s) = flushed s.
Proof. apply BalanceFacts.flushed_clean, BalanceFacts.clean_flushed. Qed.

Lemma get_strategies_flushes s :
  _get_strategies broker s = (Ok (real_strategies (balances s) broker), flushed s).
Proof. reflexivity. Qed.

Lemma get_cash_balance_flushes strategy s :
  ∃ c, _get_cash_balance broker strategy s = (Ok c, flushed s).
Proof.
  unfold _get_cash_balance, select_balances, mbind, M_bind, flush, modify, get.
  cbn [fst snd]. by eexists.
Qed.

(** With the broker configured and a price for every position of the
    strategy, [_calculate_positions_balance] returns the sum, over the
    positions the strategy holds at the broker, of what the loop adds for
    each: price * quantity for a plain symbol, but price * quantity * 100
    * quantity for an option and price * quantity * contract size *
    quantity for a futures symbol.  It flushes the session and writes
    nothing else. *)
Theorem positions_balance_closed_form (price : string → Q) strategy s :
  (∀ p, p ∈ positions (flushed s) → pos_broker p = broker →
        pos_strategy p = strategy →
        get_current_price br (pos_symbol p) = Ok (Some (price (pos_symbol p)))) →
  ∃ v, _calculate_positions_balance w broker strategy s = (Ok v, flushed s)
       ∧ v == foldr (λ p total,
                       position_value_added (price (pos_symbol p)) p + total)
                0 (filter (λ p, pos_broker p = broker ∧ pos_strategy p = strategy)
                     (positions (flushed s))).
Proof.
  intros Hprice.
  destruct (sum_position_values_value price
    (filter (λ p, pos_broker p = broker ∧ pos_strategy p = strategy)
       (positions (flushed s))) 0) as (v & Hv & Heq).
  { intros p Hp. apply list_elem_of_filter in Hp as [[Hb Hs] Hp]. by apply Hprice. }
  exists v. split.
  - unfold _calculate_positions_balance, select_positions, mbind, M_bind,
      flush, modify, get. cbn [fst snd]. apply Hv.
  - rewrite Heq. ring.
Qed.

Lemma calculate_positions_balance_raises strategy s bad :
  bad ∈ positions (flushed s) → pos_broker bad = broker → pos_strategy bad = strategy →
  (∀ x, get_current_price br (pos_symbol bad) ≠ Ok (Some x)) →
  ∃ e, _calculate_positions_balance w broker strategy s = (Raise e, flushed s)
       ∧ ((∀ p, p ∈ positions (flushed s) → pos_broker p = broker →
             pos_strategy p = strategy →
             ∃ v, get_current_price br (pos_symbol p) = Ok v) → e = TypeError).
Proof.
  intros Hbad Hb Hs Hnone.
  destruct (sum_position_values_raises
    (filter (λ p, pos_broker p = broker ∧ pos_strategy p = strategy)
       (positions (flushed s))) 0 bad) as (e & He & Hty).
  { by apply list_elem_of_filter. }
  { done. }
  exists e. split.
  - unfold _calculate_positions_balance, select_positions, mbind, M_bind,
      flush, modify, get. cbn [fst snd]. apply He.
  - intros Hall. apply Hty. intros p Hp.
    apply list_elem_of_filter in Hp as [[? ?] Hp]. by apply Hall.
Qed.

(** One position of the strategy without a price is enough for
    [update_strategy_balance] to write none of the three rows: the
    multiplication by the missing price raises (a [TypeError] when the
    broker answered [None], the broker's own error otherwise) before the
    first row is added, and the session is left as the queries flushed
    it. *)
Theorem missing_price_blocks_strategy_rows strategy timestamp s bad :
  bad ∈ positions (flushed s) → pos_broker bad = broker → pos_strategy bad = strategy →
  (∀ x, get_current_price br (pos_symbol bad) ≠ Ok (Some x)) →
  ∃ e, update_strategy_balance w broker strategy timestamp s = (Raise e, flushed s)
       ∧ ((∀ p, p ∈ positions (flushed s) → pos_broker p = broker →
             pos_strategy p = strategy →
             ∃ v, get_current_price br (pos_symbol p) = Ok v) → e = TypeError).
Proof.
  intros Hbad Hb Hs Hnone.
  destruct (calculate_positions_balance_raises strategy (flushed s) bad)
    as (e & He & Hty); rewrite ?flushed_flushed; try done.
  rewrite flushed_flushed in He, Hty.
  exists e. split; [|done].
  destruct (get_cash_balance_flushes strategy s) as [c Hc].
  unfold update_strategy_balance. unfold mbind at 1, M_bind at 1. rewrite Hc.
  unfold mbind at 1, M_bind at 1. by rewrite He.
Qed.

Lemma update_strategy_balance_cases strategy timestamp s :
  clean s →
  (∃ c v, update_strategy_balance w broker strategy timestamp s
          = (Ok (),
             set_balances
               (balances s ++
                strategy_rows broker strategy c v
                  (default (datetime_now w) timestamp)) s))
  ∨ (∃ e, update_strategy_balance w broker strategy timestamp s = (Raise e, s)).
Proof.
  intros Hs.
  destruct (get_cash_balance_flushes strategy s) as [c Hc].
  rewrite (BalanceFacts.flushed_clean s Hs) in Hc.
  destruct (BalanceFacts.sum_position_values_pure w broker br broker_configured
    (filter (λ p, pos_broker p = broker ∧ pos_strategy p = strategy) (positions s)) 0)
    as [r Hr].
  assert (_calculate_positions_balance w broker strategy s = (r, s)) as Hcalc.
  { unfold _calculate_positions_balance, mbind, M_bind.
    rewrite BalanceFacts.select_positions_run by done. apply Hr. }
  destruct r as [v|e]; [left; exists c, v|right; exists e];
    unfold update_strategy_balance; unfold mbind at 1, M_bind at 1; rewrite Hc;
    unfold mbind at 1, M_bind at 1; rewrite Hcalc; [|done].
  unfold _insert_or_update_balance, add_balance, modify, set_balances, mbind, M_bind.
  cbn [fst snd balances positions pending_delete commits trace strategy_rows].
  by rewrite <- !app_assoc.
Qed.

Lemma each_strategy_aborts strategies strategy timestamp s bad :
  clean s →
  bad ∈ positions s → pos_broker bad = broker → pos_strategy bad = strategy →
  (∀ x, get_current_price br (pos_symbol bad) ≠ Ok (Some x)) →
  strategy ∈ strategies →
  (∀ x, x ∈ strategies → x ≠ "uncategorized") →
  ∃ e s', _update_each_strategy_balance w broker strategies timestamp s = (Raise e, s')
    ∧ positions s' = positions s ∧ commits s' = commits s ∧ trace s' = trace s
    ∧ filter (λ b, bal_strategy b = "uncategorized") (balances s')
      = filter (λ b, bal_strategy b = "uncategorized") (balances s).
Proof.
  intros Hs Hbad Hb Hst Hnone. unfold _update_each_strategy_balance.
  revert s Hs Hbad. induction strategies as [|x l IH]; intros s Hs Hbad Hin Hreal.
  { by apply elem_of_nil in Hin. }
  cbn [for_each]. unfold mbind at 1, M_bind at 1.
  destruct (update_strategy_balance_cases x timestamp s Hs)
    as [(c & v & Hrun)|[e Hrun]]; rewrite Hrun.
  - apply elem_of_cons in Hin as [<-|Hin].
    { destruct (missing_price_blocks_strategy_rows strategy timestamp s bad)
        as (e & He & _); rewrite ?(BalanceFacts.flushed_clean s Hs); try done.
      rewrite (BalanceFacts.flushed_clean s Hs) in He. congruence. }
    destruct (IH (set_balances
                    (balances s ++
                     strategy_rows broker x c v (default (datetime_now w) timestamp))
                    s))
      as (e & s' & Hrest & Hp & Hc & Ht & Hu); [done|done|done| |].
    { intros y Hy. apply Hreal. by right. }
    exists e, s'. split; [done|]. split_and!; [done..|].
    rewrite Hu. cbn [balances set_balances]. rewrite filter_app.
    assert (x ≠ "uncategorized") as Hx by (apply Hreal; by left).
    unfold strategy_rows. rewrite !filter_cons, filter_nil.
    cbn [bal_strategy]. rewrite !decide_False by done. by rewrite app_nil_r.
  - by exists e, s.
Qed.

(** One position without a price aborts the whole cycle of its broker,
    when its strategy is one with balance rows: the cycle raises before
    it commits, logs and writes the row of the uncategorized bucket, and
    the strategies that come later get no rows. *)
Theorem one_unpriced_position_aborts_cycle strategy timestamp s bad :
  strategy ∈ real_strategies (balances s) broker →
  bad ∈ positions (flushed s) → pos_broker bad = broker → pos_strategy bad = strategy →
  (∀ x, get_current_price br (pos_symbol bad) ≠ Ok (Some x)) →
  ∃ e s', update_all_strategy_balances w broker timestamp s = (Raise e, s')
    ∧ commits s' = commits s ∧ trace s' = trace s
    ∧ positions s' = positions (flushed s)
    ∧ filter (λ b, bal_strategy b = "uncategorized") (balances s')
      = filter (λ b, bal_strategy b = "uncategorized") (balances s).
Proof.
  intros Hin Hbad Hb Hst Hnone.
  destruct (each_strategy_aborts (real_strategies (balances s) broker) strategy
              (Some timestamp) (flushed s) bad)
    as (e & s' & Hrun & Hp & Hc & Ht & Hu); try done.
  { intros x Hx. by apply BalanceFacts.real_strategies_elem in Hx as (_ & _ & _ & _ & ?). }
  exists e, s'. split; [|done].
  unfold update_all_strategy_balances. unfold mbind at 1, M_bind at 1.
  rewrite get_strategies_flushes.
  unfold mbind at 1, M_bind at 1. by rewrite Hrun.
Qed.

End Prices.

(** Every price is 3; alpha holds 10 shares and 2 option contracts
    sold short: 3 * 10 + 3 * (-2) * 100 * (-2) = 1230. *)
Lemma positions_balance_closed_form_witness :
  ∃ v, @_calculate_positions_balance Examples.utils Examples.sym_100 "b" "alpha"
         MoreExamples.alpha_and_beta
       = (Ok v, flushed MoreExamples.alpha_and_beta)
       ∧ v == 1230.
Proof.
  destruct (positions_balance_closed_form (H:=Examples.utils) Examples.sym_100 "b"
              (Examples.broker_reporting {["SYM" := mkBrokerPosition "SYM" 100]})
              eq_refl (λ _, 3) "alpha" MoreExamples.alpha_and_beta)
    as (v & Hrun & Hv).
  - intros p _ _ _. reflexivity.
  - exists v. split; [exact Hrun|]. rewrite Hv. vm_compute. reflexivity.
Defined.

(** The broker has no price for NEW, which beta holds. *)
Lemma missing_price_blocks_strategy_rows_witness :
  ∃ e, @update_strategy_balance Examples.utils MoreExamples.no_quote_for_NEW "b"
         "beta" (Some 2%Z) MoreExamples.alpha_and_beta
       = (Raise e, flushed MoreExamples.alpha_and_beta).
Proof.
  destruct (missing_price_blocks_strategy_rows (H:=Examples.utils)
              MoreExamples.no_quote_for_NEW "b"
              (MoreExamples.broker_not_quoting ["NEW"]) eq_refl "beta" (Some 2%Z)
              MoreExamples.alpha_and_beta (Examples.position 2 "beta" "NEW" 4 None))
    as (e & He & _).
  - apply (list_elem_of_lookup_2 _ 1%nat). reflexivity.
  - reflexivity.
  - reflexivity.
  - intros x. vm_compute. discriminate.
  - exists e. exact He.
Defined.

(** The cycle of broker b stops at beta, the second strategy. *)
Lemma one_unpriced_position_aborts_cycle_witness :
  ∃ e s', @update_all_strategy_balances Examples.utils MoreExamples.no_quote_for_NEW
            "b" 2 MoreExamples.alpha_and_beta = (Raise e, s')
    ∧ commits s' = commits MoreExamples.alpha_and_beta.
Proof.
  destruct (one_unpriced_position_aborts_cycle (H:=Examples.utils)
              MoreExamples.no_quote_for_NEW "b"
              (MoreExamples.broker_not_quoting ["NEW"]) eq_refl "beta" 2%Z
              MoreExamples.alpha_and_beta (Examples.position 2 "beta" "NEW" 4 None))
    as (e & s' & Hrun & Hc & _).
  - apply (bool_decide_unpack _). vm_compute. reflexivity.
  - apply (list_elem_of_lookup_2 _ 1%nat). reflexivity.
  - reflexivity.
  - reflexivity.
  - intros x. vm_compute. discriminate.
  - exists e, s'. split; [exact Hrun|exact Hc].
Defined.

End BalanceEdges.
(** * Valuation of one position: what is written, and when it stops *)

Module ValuationEdges.
Import SyncWorker MonadFacts.
Local Open Scope Q_scope.

Section OnePosition.
Context `{SymbolUtils}.
Variable w : World.
Variable id : nat.
Variable now : Z.
Variable s : Session.
Variable p : Position.
Variable br : Broker.
Variable x : Q.
Hypothesis position_loaded : find_position id (positions s) = Some p.
Hypothesis broker_configured :
  (list_to_map (brokers w) : gmap string Broker) !! pos_broker p = Some br.
Hypothesis own_price_fetched : get_current_price br (pos_symbol p) = Ok (Some x).
Hypothesis own_price_truthy : ¬ x == 0.

Let priced : Position → Position := set_last_updated now ∘ set_latest_price (Some x).
Let s2 : Session := set_positions (write_to id priced <$> positions s) s.

Lemma priced_loaded : find_position id (positions s2) = Some (priced p).
Proof.
  unfold s2. cbn [positions set_positions].
  rewrite ValuationFacts.find_position_write by done.
  rewrite decide_True by done. by rewrite position_loaded.
Qed.

Lemma price_step :
  _update_position_price w id now s
  = _update_volatility_and_underlying_price w id (_get_underlying_symbol p) s2.
Proof.
  unfold _update_position_price. unfold mbind at 1, M_bind at 1.
  rewrite ValuationFacts.fetch_and_log_price_run, position_loaded.
  unfold own_price. rewrite broker_configured, own_price_fetched.
  cbn [falsy]. destruct (Qeq_bool x 0) eqn:Hz.
  { by apply Qeq_bool_iff in Hz. }
  set (g1 := set_latest_price (Some x)). set (g2 := set_last_updated now).
  assert ((update_obj id g2 (update_obj id g1 s).2).2 = s2) as Hs2.
  { unfold s2, update_obj, modify, set_positions. cbn [fst snd positions balances
      pending_delete commits trace]. f_equal.
    apply (ValuationFacts.write_to_compose id g1 g2). done. }
  change ((update_obj id g1 ≫= λ _, update_obj id g2 ≫= λ _, obj id ≫= λ pos,
             _update_volatility_and_underlying_price w id
               (_get_underlying_symbol pos)) s)
    with (match obj id (update_obj id g2 (update_obj id g1 s).2).2 with
          | (Ok pos, s') =>
              _update_volatility_and_underlying_price w id
                (_get_underlying_symbol pos) s'
          | (Raise e, s') => (Raise e, s')
          end).
  rewrite Hs2, (ReconcileFacts.obj_run id s2 _ priced_loaded). done.
Qed.

Lemma volatility_step underlying :
  _update_volatility_and_underlying_price w id underlying s2
  = match get_current_price br underlying with
    | Raise e => (Raise e, s2)
    | Ok latest_underlying_price =>
        match historical_volatility w underlying with
        | None => (Ok (), set_trace (trace s2 ++ [LogVolatilityMissing underlying]) s2)
        | Some volatility =>
            match latest_underlying_price with
            | None =>
                (Raise TypeError,
                 set_positions
                   (write_to id (set_underlying_volatility (Some volatility))
                      <$> positions s2) s2)
            | Some price =>
                (Ok (),
                 set_positions
                   (write_to id (set_underlying_latest_price (Some price)
                                 ∘ set_underlying_volatility (Some volatility))
                      <$> positions s2) s2)
            end
        end
    end.
Proof.
  unfold _update_volatility_and_underlying_price. unfold mbind at 1, M_bind at 1.
  rewrite (ReconcileFacts.obj_run id s2 _ priced_loaded).
  unfold get_latest_price, get_broker_instance.
  change (pos_broker (priced p)) with (pos_broker p). rewrite broker_configured.
  unfold mbind, M_bind, mret, M_ret, lift. cbv beta iota.
  destruct (get_current_price br underlying) as [[price|]|e]; [| |done];
    destruct (historical_volatility w underlying) as [volatility|]; try done.
  unfold update_obj, modify, set_positions.
  cbn [py_float fst snd positions balances pending_delete commits trace].
  do 2 f_equal.
  apply (ValuationFacts.write_to_compose id
           (set_underlying_volatility (Some volatility))
           (set_underlying_latest_price (Some price))). done.
Qed.

Lemma other_positions_kept g j :
  (∀ r, pos_id (g r) = pos_id r) →
  j ≠ id →
  find_position j (write_to id g <$> positions s2) = find_position j (positions s).
Proof.
  intros Hg Hj. rewrite ValuationFacts.find_position_write by done.
  rewrite decide_False by done. unfold s2. cbn [positions set_positions].
  rewrite ValuationFacts.find_position_write by done. by rewrite decide_False.
Qed.

(** The valuation of a position whose broker is configured and quotes a
    price other than 0 for its symbol, a price for the underlying symbol
    (the symbol itself unless it is an option), with a historical
    volatility known: it returns normally and the position then carries
    the price, the timestamp, the volatility and the underlying price, and
    is otherwise as before; no other position, no balance, and neither
    the commits nor the log change. *)
Theorem valuation_writes_price_and_underlying u v :
  get_current_price br (_get_underlying_symbol p) = Ok (Some u) →
  historical_volatility w (_get_underlying_symbol p) = Some v →
  ∃ s', _update_position_price w id now s = (Ok (), s')
    ∧ find_position id (positions s')
      = Some (mkPosition (pos_id p) (pos_broker p) (pos_strategy p) (pos_symbol p)
                (pos_quantity p) (Some x) (pos_cost_basis p) now (Some v) (Some u))
    ∧ (∀ j, j ≠ id → find_position j (positions s') = find_position j (positions s))
    ∧ balances s' = balances s ∧ commits s' = commits s ∧ trace s' = trace s.
Proof.
  intros Hu Hv. rewrite price_step, volatility_step, Hu, Hv.
  eexists. split; [reflexivity|]. cbn [positions set_positions].
  split_and!; try done.
  - rewrite ValuationFacts.find_position_write by done.
    rewrite decide_True by done. by rewrite priced_loaded.
  - intros j Hj. by apply other_positions_kept.
Qed.

(** The price of the underlying symbol is fetched before the volatility
    is computed.  When that fetch returns (a price or [None]) and no
    historical volatility can be computed, the position still gets its
    price and timestamp and the call returns normally; the volatility and
    the underlying price stay as they were, and the log says that the
    volatility is missing.  When that fetch raises, the call raises the
    broker's error after the price and the timestamp were written, and
    logs nothing, whatever the volatility would have been. *)
Theorem valuation_without_volatility :
  (∀ u,
     get_current_price br (_get_underlying_symbol p) = Ok u →
     historical_volatility w (_get_underlying_symbol p) = None →
     ∃ s', _update_position_price w id now s = (Ok (), s')
       ∧ find_position id (positions s')
         = Some (mkPosition (pos_id p) (pos_broker p) (pos_strategy p)
                   (pos_symbol p) (pos_quantity p) (Some x) (pos_cost_basis p) now
                   (pos_underlying_volatility p) (pos_underlying_latest_price p))
       ∧ (∀ j, j ≠ id →
            find_position j (positions s') = find_position j (positions s))
       ∧ trace s' = trace s ++ [LogVolatilityMissing (_get_underlying_symbol p)])
  ∧ (∀ e,
       get_current_price br (_get_underlying_symbol p) = Raise e →
       ∃ s', _update_position_price w id now s = (Raise e, s')
         ∧ find_position id (positions s')
           = Some (mkPosition (pos_id p) (pos_broker p) (pos_strategy p)
                     (pos_symbol p) (pos_quantity p) (Some x) (pos_cost_basis p)
                     now (pos_underlying_volatility p)
                     (pos_underlying_latest_price p))
         ∧ (∀ j, j ≠ id →
              find_position j (positions s') = find_position j (positions s))
         ∧ trace s' = trace s).
Proof.
  split.
  - intros u Hu Hv. rewrite price_step, volatility_step, Hu, Hv.
    eexists. split; [reflexivity|]. cbn [positions set_positions set_trace].
    split_and!; try done.
    + by rewrite priced_loaded.
    + intros j Hj. unfold s2. cbn [positions set_positions].
      rewrite ValuationFacts.find_position_write by done. by rewrite decide_False.
  - intros e He. rewrite price_step, volatility_step, He.
    eexists. split; [reflexivity|]. split_and!; try done.
    + by rewrite priced_loaded.
    + intros j Hj. unfold s2. cbn [positions set_positions].
      rewrite ValuationFacts.find_position_write by done. by rewrite decide_False.
Qed.

(** With a volatility but no price for the underlying symbol, the
    conversion of the missing price raises a [TypeError] after the price,
    the timestamp and the volatility were written: the position is left
    with the new volatility next to the old underlying price. *)
Theorem valuation_stops_at_missing_underlying_price v :
  get_current_price br (_get_underlying_symbol p) = Ok None →
  historical_volatility w (_get_underlying_symbol p) = Some v →
  ∃ s', _update_position_price w id now s = (Raise TypeError, s')
    ∧ find_position id (positions s')
      = Some (mkPosition (pos_id p) (pos_broker p) (pos_strategy p) (pos_symbol p)
                (pos_quantity p) (Some x) (pos_cost_basis p) now (Some v)
                (pos_underlying_latest_price p))
    ∧ (∀ j, j ≠ id → find_position j (positions s') = find_position j (positions s)).
Proof.
  intros Hu Hv. rewrite price_step, volatility_step, Hu, Hv.
  eexists. split; [reflexivity|]. cbn [positions set_positions].
  split.
  - rewrite ValuationFacts.find_position_write by done.
    rewrite decide_True by done. by rewrite priced_loaded.
  - intros j Hj. by apply other_positions_kept.
Qed.

End OnePosition.

(** The option position of beta: price 3, underlying price 3, volatility 1. *)
Lemma valuation_writes_price_and_underlying_witness :
  ∃ s', @_update_position_price Examples.utils Examples.sym_100 3 7
          Examples.mixed_batch = (Ok (), s')
    ∧ find_position 3 (positions s')
      = Some (mkPosition 3 "b" "beta" "OPT" 1 (Some 3) None 7 (Some 1) (Some 3)).
Proof.
  destruct (valuation_writes_price_and_underlying (H:=Examples.utils)
              Examples.sym_100 3 7 Examples.mixed_batch
              (Examples.position 3 "beta" "OPT" 1 None)
              (Examples.broker_reporting {["SYM" := mkBrokerPosition "SYM" 100]})
              3 eq_refl eq_refl eq_refl ltac:(vm_compute; discriminate)
              3 1 eq_refl eq_refl)
    as (s' & Hrun & Hrow & _).
  exists s'. split; [exact Hrun|exact Hrow].
Defined.

(** The same position where no volatility can be computed. *)
Lemma valuation_without_volatility_witness :
  ∃ s', @_update_position_price Examples.utils MoreExamples.no_volatility 3 7
          Examples.mixed_batch = (Ok (), s')
    ∧ find_position 3 (positions s')
      = Some (mkPosition 3 "b" "beta" "OPT" 1 (Some 3) None 7 None None).
Proof.
  destruct (valuation_without_volatility (H:=Examples.utils)
              MoreExamples.no_volatility 3 7 Examples.mixed_batch
              (Examples.position 3 "beta" "OPT" 1 None)
              (MoreExamples.broker_not_quoting [])
              3 eq_refl eq_refl eq_refl ltac:(vm_compute; discriminate))
    as [Hreturns _].
  destruct (Hreturns (Some 3) eq_refl eq_refl) as (s' & Hrun & Hrow & _).
  exists s'. split; [exact Hrun|exact Hrow].
Defined.

(** The same position where the broker has no price for the underlying
    symbol. *)
Lemma valuation_stops_at_missing_underlying_price_witness :
  ∃ s', @_update_position_price Examples.utils MoreExamples.no_quote_for_UND 3 7
          Examples.mixed_batch = (Raise TypeError, s')
    ∧ find_position 3 (positions s')
      = Some (mkPosition 3 "b" "beta" "OPT" 1 (Some 3) None 7 (Some 1) None).
Proof.
  destruct (valuation_stops_at_missing_underlying_price (H:=Examples.utils)
              MoreExamples.no_quote_for_UND 3 7 Examples.mixed_batch
              (Examples.position 3 "beta" "OPT" 1 None)
              (MoreExamples.broker_not_quoting ["UND"])
              3 eq_refl eq_refl eq_refl ltac:(vm_compute; discriminate)
              1 eq_refl eq_refl)
    as (s' & Hrun & Hrow & _).
  exists s'. split; [exact Hrun|exact Hrow].
Defined.

End ValuationEdges.
(** * Reconciliation and the rows of other brokers *)

Module ReconcileEdges.
Import SyncWorker MonadFacts.
Local Open Scope Q_scope.

Section Maintains.
Variable Inv : Session → Prop.

Lemma maintains_ret {A} (a : A) (Q : A → Prop) : Q a → maintains Inv (mret a) Q.
Proof. intros Ha s Hs. split; [done|]. by intros a' [= <-]. Qed.

Lemma maintains_raise {A} e (Q : A → Prop) : maintains Inv (raise e) Q.
Proof. intros s Hs. by split. Qed.

Lemma maintains_lift {A} (r : result A) : maintains Inv (lift r) (λ a, r = Ok a).
Proof. intros s Hs. split; [done|]. by intros a <-. Qed.

Lemma maintains_get : maintains Inv get Inv.
Proof. intros s Hs. split; [done|]. by intros a [= <-]. Qed.

Lemma maintains_modify f :
  (∀ s, Inv s → Inv (f s)) → maintains Inv (modify f) (λ _, True).
Proof. intros Hf s Hs. split; [by apply Hf|done]. Qed.

Lemma maintains_weaken {A} (m : M A) (Q Q' : A → Prop) :
  maintains Inv m Q → (∀ a, Q a → Q' a) → maintains Inv m Q'.
Proof.
  intros Hm HQ s Hs. destruct (Hm s Hs) as [Hi Ha]. split; [done|].
  intros a Hr. by apply HQ, Ha.
Qed.

Lemma maintains_bind {A B} (m : M A) (k : A → M B) (Q : A → Prop) (Q' : B → Prop) :
  maintains Inv m Q → (∀ a, Q a → maintains Inv (k a) Q') →
  maintains Inv (m ≫= k) Q'.
Proof.
  intros Hm Hk s Hs. destruct (Hm s Hs) as [Hi Ha].
  unfold mbind, M_bind. destruct (m s) as [[a|e] s1]; cbn [fst snd] in *.
  - apply Hk; [by apply Ha|done].
  - by split.
Qed.

Lemma maintains_for_each {A} (xs : list A) (body : A → M ()) :
  (∀ x, x ∈ xs → maintains Inv (body x) (λ _, True)) →
  maintains Inv (for_each xs body) (λ _, True).
Proof.
  induction xs as [|x xs IH]; intros Hbody; [by apply maintains_ret|].
  cbn [for_each]. eapply maintains_bind.
  - apply Hbody. by left.
  - intros _ _. apply IH. intros y Hy. apply Hbody. by right.
Qed.

End Maintains.

Section OtherBrokers.
Variable w : World.
Variable broker : string.
Variable s0 : Session.

(** An id that no row of another broker carries. *)
Let own (id : nat) : Prop := id ∉ pos_id <$> other_brokers broker (positions s0).

(** The rows of the other brokers are those of [s0], and every row of
    the broker and every pending deletion has an id of its own. *)
Let Inv (s : Session) : Prop :=
  other_brokers broker (positions s) = other_brokers broker (positions s0)
  ∧ (∀ p, p ∈ positions s → pos_broker p = broker → own (pos_id p))
  ∧ (∀ id, id ∈ pending_delete s → own id).

Lemma others_filter (P : Position → Prop) `{∀ p, Decision (P p)}
    (ps : list Position) :
  (∀ p, p ∈ ps → pos_broker p ≠ broker → P p) →
  other_brokers broker (filter P ps) = other_brokers broker ps.
Proof.
  unfold other_brokers. induction ps as [|p ps IH]; intros HP; [done|].
  assert (filter (λ p, pos_broker p ≠ broker) (filter P ps)
          = filter (λ p, pos_broker p ≠ broker) ps) as IH'.
  { apply IH. intros q Hq. apply HP. by right. }
  rewrite (filter_cons P). destruct (decide (P p)) as [Hp|Hp].
  - rewrite !filter_cons. by rewrite IH'.
  - rewrite IH', (filter_cons _ p ps). rewrite decide_False; [done|].
    intros Hb. apply Hp, HP; [by left|done].
Qed.

Lemma others_update id f (ps : list Position) :
  (∀ p, pos_broker (f p) = pos_broker p) →
  (∀ p, p ∈ ps → pos_broker p ≠ broker → pos_id p ≠ id) →
  other_brokers broker ((λ p, if decide (pos_id p = id) then f p else p) <$> ps)
  = other_brokers broker ps.
Proof.
  intros Hf. unfold other_brokers. induction ps as [|p ps IH]; intros Hid; [done|].
  rewrite fmap_cons, !filter_cons. rewrite IH by (intros q Hq; apply Hid; by right).
  destruct (decide (pos_id p = id)) as [Hp|Hp]; [|done].
  rewrite Hf. destruct (decide (pos_broker p ≠ broker)) as [Hb|Hb]; [|done].
  destruct (Hid p); [by left|done|done].
Qed.

Lemma Inv_initial :
  NoDup (pos_id <$> positions s0) → pending_delete s0 = [] → Inv s0.
Proof.
  intros Hnd Hpd. split_and!; [done| |].
  - intros p Hp Hb Hin. apply list_elem_of_fmap in Hin as (q & Hid & Hq).
    apply list_elem_of_filter in Hq as [Hqb Hq].
    pose proof (ReconcileFacts.find_position_NoDup _ p Hnd Hp) as Fp.
    pose proof (ReconcileFacts.find_position_NoDup _ q Hnd Hq) as Fq.
    rewrite Hid, Fq in Fp. injection Fp as ->. done.
  - rewrite Hpd. intros id Hid. by apply elem_of_nil in Hid.
Qed.

Lemma other_ids s p :
  Inv s → p ∈ positions s → pos_broker p ≠ broker → ¬ own (pos_id p).
Proof.
  intros (Ho & _) Hp Hb Hown. apply Hown. rewrite <- Ho.
  apply list_elem_of_fmap. exists p. split; [done|]. by apply list_elem_of_filter.
Qed.

Lemma Inv_filter (P : Position → Prop) `{∀ p, Decision (P p)} s :
  (∀ p, p ∈ positions s → pos_broker p ≠ broker → P p) →
  Inv s → Inv (set_positions (filter P (positions s)) s).
Proof.
  intros HP (Ho & Hb & Hd). split_and!; cbn [positions set_positions pending_delete].
  - rewrite <- Ho. by apply others_filter.
  - intros p Hp. apply list_elem_of_filter in Hp as [_ Hp]. by apply Hb.
  - done.
Qed.

Lemma Inv_flushed s : Inv s → Inv (flushed s).
Proof.
  intros HI. pose proof HI as (Ho & Hb & Hd). unfold flushed.
  split_and!; cbn [positions set_positions set_pending_delete pending_delete].
  - rewrite <- Ho. apply others_filter. intros p Hp Hbp Hin.
    apply (other_ids s p HI Hp Hbp). by apply Hd.
  - intros p Hp. apply list_elem_of_filter in Hp as [_ Hp]. by apply Hb.
  - intros id Hid. by apply elem_of_nil in Hid.
Qed.

Lemma Inv_update id f s :
  own id →
  (∀ p, pos_id (f p) = pos_id p) →
  (∀ p, pos_broker (f p) = pos_broker p) →
  Inv s →
  Inv (set_positions
         ((λ p, if decide (pos_id p = id) then f p else p) <$> positions s) s).
Proof.
  intros Hown Hfid Hfb HI. pose proof HI as (Ho & Hb & Hd).
  split_and!; cbn [positions set_positions pending_delete].
  - rewrite <- Ho. apply others_update; [done|].
    intros p Hp Hbp Hid. apply (other_ids s p HI Hp Hbp). by rewrite Hid.
  - intros q Hq. apply list_elem_of_fmap in Hq as (p & -> & Hp).
    destruct (decide (pos_id p = id)) as [Hid|Hid].
    + rewrite Hfid, Hfb. by apply Hb.
    + by apply Hb.
  - done.
Qed.

Lemma Inv_delete id s :
  own id → Inv s → Inv (set_pending_delete (pending_delete s ++ [id]) s).
Proof.
  intros Hown (Ho & Hb & Hd). split_and!; [done|done|].
  cbn [pending_delete set_pending_delete]. intros j Hj.
  apply elem_of_app in Hj as [Hj|Hj]; [by apply Hd|].
  by apply list_elem_of_singleton in Hj as ->.
Qed.

(** ** The steps of a reconciliation *)

Lemma M_log e : maintains Inv (log e) (λ _, True).
Proof. apply maintains_modify. done. Qed.

Lemma M_flush : maintains Inv flush (λ _, True).
Proof. apply maintains_modify. apply Inv_flushed. Qed.

Lemma M_commit : maintains Inv (commit w) (λ _, True).
Proof.
  unfold commit.
  eapply (maintains_bind Inv); [apply M_flush|]. intros _ _.
  eapply (maintains_bind Inv); [apply M_log|]. intros _ _.
  eapply (maintains_bind Inv); [apply maintains_get|]. intros s _.
  eapply (maintains_bind Inv); [apply maintains_modify; done|]. intros _ _.
  destruct (commit_error w (commits s)); [apply maintains_raise|by apply maintains_ret].
Qed.

Lemma M_obj id : maintains Inv (obj id) (λ _, True).
Proof.
  unfold obj. eapply (maintains_bind Inv); [apply maintains_get|]. intros s _.
  destruct (find_position id (positions s));
    [by apply maintains_ret|apply maintains_raise].
Qed.

Lemma M_update id f :
  own id →
  (∀ p, pos_id (f p) = pos_id p) →
  (∀ p, pos_broker (f p) = pos_broker p) →
  maintains Inv (update_obj id f) (λ _, True).
Proof.
  intros Hown Hfid Hfb. apply maintains_modify. intros s Hs. by apply Inv_update.
Qed.

Lemma M_select_positions (P : Position → Prop) `{∀ p, Decision (P p)} :
  maintains Inv (select_positions P)
    (λ rows, ∀ p, p ∈ rows → P p ∧ (pos_broker p = broker → own (pos_id p))).
Proof.
  unfold select_positions.
  eapply (maintains_bind Inv); [apply M_flush|]. intros _ _.
  eapply (maintains_bind Inv); [apply maintains_get|]. intros s (_ & Hb & _).
  apply maintains_ret. intros p Hp. apply list_elem_of_filter in Hp as [HP Hp].
  split; [done|]. by apply Hb.
Qed.

Lemma M_fetch_db_positions :
  maintains Inv (_fetch_db_positions broker)
    (λ db_positions, ∀ symbol id, db_positions !! symbol = Some id → own id).
Proof.
  unfold _fetch_db_positions.
  eapply (maintains_bind Inv); [apply M_select_positions|]. intros rows Hrows.
  apply maintains_ret. intros symbol id Hid.
  apply ReconcileFacts.by_symbol_lookup_Some in Hid as (p & Hp & _ & <-).
  destruct (Hrows p Hp) as [Hb Hown]. by apply Hown.
Qed.

Lemma M_get_positions :
  maintains Inv (_get_positions w broker)
    (λ fetched, ∀ symbol id, fetched.2 !! symbol = Some id → own id).
Proof.
  unfold _get_positions.
  eapply (maintains_bind Inv _ _ (λ _, True)).
  { unfold get_broker_instance.
    destruct ((list_to_map (brokers w) : gmap string Broker) !! broker);
      [by apply maintains_ret|apply maintains_raise]. }
  intros br _. eapply (maintains_bind Inv _ _ (λ _, True)).
  { eapply maintains_weaken; [apply maintains_lift|done]. }
  intros bps _. eapply (maintains_bind Inv); [apply M_fetch_db_positions|].
  intros db Hdb. by apply maintains_ret.
Qed.

Lemma M_sum_categorized symbol ids acc :
  maintains Inv (sum_categorized symbol ids acc) (λ _, True).
Proof.
  revert acc. induction ids as [|id ids IH]; intros acc; [by apply maintains_ret|].
  cbn [sum_categorized]. eapply (maintains_bind Inv); [apply M_obj|].
  intros pos _. destruct (_ && _); apply IH.
Qed.

Lemma M_shrink db_positions broker_positions :
  (∀ symbol id, db_positions !! symbol = Some id → own id) →
  maintains Inv (_remove_excess_uncategorized_positions db_positions broker_positions)
    (λ _, True).
Proof.
  intros Hdb. unfold _remove_excess_uncategorized_positions.
  apply maintains_for_each. intros [symbol id] Hin.
  apply elem_of_map_to_list in Hin. apply Hdb in Hin. cbv beta iota.
  eapply (maintains_bind Inv); [apply M_obj|]. intros pos _.
  destruct (_is_uncategorized_position pos); [|by apply maintains_ret].
  destruct (broker_positions !! symbol) as [broker_position|].
  - eapply (maintains_bind Inv); [apply M_sum_categorized|]. intros cq _.
    unfold _adjust_uncategorized_position.
    eapply (maintains_bind Inv); [apply M_obj|]. intros pos' _.
    destruct (Qlt_le_dec _ _); [by apply M_update|by apply maintains_ret].
  - apply maintains_modify. intros s Hs. by apply Inv_delete.
Qed.

Lemma M_prune db_positions broker_positions :
  maintains Inv (_remove_db_positions broker db_positions broker_positions)
    (λ _, True).
Proof.
  unfold _remove_db_positions. cbv zeta.
  match goal with |- maintains _ (if ?d then _ else _) _ => destruct d end;
    [by apply maintains_ret|].
  eapply (maintains_bind Inv); [apply M_flush|]. intros _ _.
  apply maintains_modify. intros s Hs. apply Inv_filter; [|done].
  intros p _ Hb [Hb' _]. done.
Qed.

Lemma M_grow db_positions broker_positions now :
  (∀ symbol id, db_positions !! symbol = Some id → own id) →
  maintains Inv (_add_missing_positions w broker db_positions broker_positions now)
    (λ _, True).
Proof.
  intros Hdb. unfold _add_missing_positions.
  apply maintains_for_each. intros [symbol bp] _. cbv beta iota.
  destruct (db_positions !! symbol) as [id|] eqn:E.
  - apply Hdb in E. unfold _update_existing_position.
    eapply (maintains_bind Inv); [by apply M_update|]. intros _ _.
    by apply M_update.
  - by apply maintains_ret.
Qed.

Lemma M_reconcile_positions timestamp :
  maintains Inv (reconcile_positions w broker timestamp) (λ _, True).
Proof.
  unfold reconcile_positions. cbv zeta.
  eapply (maintains_bind Inv); [apply M_get_positions|].
  intros [bps db] Hdb. cbv beta iota.
  eapply (maintains_bind Inv); [by apply M_shrink|]. intros _ _.
  eapply (maintains_bind Inv); [apply M_prune|]. intros _ _.
  eapply (maintains_bind Inv); [apply M_get_positions|].
  intros [bps' db'] Hdb'. cbv beta iota.
  eapply (maintains_bind Inv); [by apply M_grow|]. intros _ _.
  eapply (maintains_bind Inv); [apply M_commit|]. intros _ _.
  apply M_log.
Qed.

(** With primary keys unique and no deletion pending, the reconciliation
    of one broker leaves the rows of every other broker in the table
    [Position] as they are, whatever its outcome: what it deletes,
    shrinks and overwrites are rows of its own broker. *)
Theorem reconciliation_leaves_other_brokers timestamp :
  NoDup (pos_id <$> positions s0) →
  pending_delete s0 = [] →
  other_brokers broker (positions (reconcile_positions w broker timestamp s0).2)
  = other_brokers broker (positions s0).
Proof.
  intros Hnd Hpd.
  destruct (M_reconcile_positions timestamp s0 (Inv_initial Hnd Hpd))
    as [(Ho & _) _].
  exact Ho.
Qed.

End OtherBrokers.

(** The broker b drops the option of beta; the row of the broker
    "elsewhere" stays. *)
Lemma reconciliation_leaves_other_brokers_witness :
  other_brokers "b"
    (positions (reconcile_positions Examples.sym_100 "b" None
                  Examples.mixed_batch).2)
  = other_brokers "b" (positions Examples.mixed_batch).
Proof.
  apply (reconciliation_leaves_other_brokers Examples.sym_100 "b"
           Examples.mixed_batch None).
  - apply (bool_decide_unpack _). vm_compute. reflexivity.
  - reflexivity.
Defined.

End ReconcileEdges.
